(** * Benji: bounded read engine, Ceph backup script and operator status lists

    A shallow embedding of three parts of the repository:

    - [src/benji/io/base.py]: the abstract [IOBase] class with its
      thread pool, its list of futures and its bounded semaphore
      (module [IO]);
    - [scripts/ceph.py]: snapshot creation, backup and restore driven by
      external commands and blinker signals (module [Ceph]);
    - [src/benji/k8s_operator/resources.py]: [create_object_ref], the
      status lists and the status of dependant jobs, over Python lists and
      dictionaries that live in a store (module [Resources]).  *)

From Stdlib Require Import ZArith Lia.
From stdpp Require Import gmap strings list fin_maps.

(** ** Python exceptions and the outcome of a call *)

(** An exception object: its class name and its message, and for one raised
    inside an [except] block the exception that was being handled
    ([__context__]). *)
Inductive exn : Type :=
| Exn (kind : string) (msg : string)
| ExnDuring (kind : string) (msg : string) (context : exn).

Definition exn_kind (e : exn) : string :=
  match e with Exn k _ | ExnDuring k _ _ => k end.

Definition exn_context (e : exn) : option exn :=
  match e with Exn _ _ => None | ExnDuring _ _ c => Some c end.

Fixpoint exn_depth (e : exn) : nat :=
  match e with
  | Exn _ _ => 0
  | ExnDuring _ _ c => S (exn_depth c)
  end.

(** Raising [e] while [handled] is being handled chains the two. *)
Definition with_context (handled : exn) (e : exn) : exn :=
  match e with Exn k m | ExnDuring k m _ => ExnDuring k m handled end.

Definition ValueError (msg : string) : exn := Exn "ValueError" msg.
Definition TypeError (msg : string) : exn := Exn "TypeError" msg.
Definition KeyError (msg : string) : exn := Exn "KeyError" msg.
Definition AttributeError (msg : string) : exn := Exn "AttributeError" msg.
Definition RuntimeError (msg : string) : exn := Exn "RuntimeError" msg.
Definition CancelledError : exn := Exn "CancelledError" EmptyString.

Inductive outcome (A : Type) : Type :=
| Returned (a : A)
| Raised (e : exn).
Arguments Returned {A} a.
Arguments Raised {A} e.

(** ** The read engine of [IOBase] *)

Module IO.

Definition bytes : Type := list Byte.byte.

(** The abstract method [_read] of a concrete backend: the block read and
    its payload, or the exception the backend raises. *)
Class IOBackend (Block : Type) : Type :=
  { _read : Block -> outcome (Block * bytes) }.

(** [threading.BoundedSemaphore]. *)
Record BoundedSemaphore : Type :=
  { _value : Z; _initial_value : Z }.

Definition BoundedSemaphore_init (value : Z) : outcome BoundedSemaphore :=
  if (value <? 0)%Z
  then Raised (ValueError "semaphore initial value must be >= 0")
  else Returned {| _value := value; _initial_value := value |}.

(** [acquire()] takes a permit; with none left the calling thread blocks,
    which is [None] here. *)
Definition acquire (sem : BoundedSemaphore) : option BoundedSemaphore :=
  if (0 <? _value sem)%Z
  then Some {| _value := _value sem - 1; _initial_value := _initial_value sem |}
  else None.

Definition release (sem : BoundedSemaphore) : outcome BoundedSemaphore :=
  if (_initial_value sem <=? _value sem)%Z
  then Raised (ValueError "Semaphore released too many times")
  else Returned {| _value := _value sem + 1; _initial_value := _initial_value sem |}.

(** [concurrent.futures.ThreadPoolExecutor]: the work queue is the
    sequence of futures still [PENDING], in submission order. *)
Record ThreadPoolExecutor : Type :=
  { _max_workers : Z; _shutdown : bool }.

Definition ThreadPoolExecutor_init (max_workers : Z) : outcome ThreadPoolExecutor :=
  if (max_workers <=? 0)%Z
  then Raised (ValueError "max_workers must be greater than 0")
  else Returned {| _max_workers := max_workers; _shutdown := false |}.

Section IOBase.
Context {Block : Type} `{IOBackend Block}.

Definition result : Type := outcome (Block * bytes).

(** A future running [read_with_acquire] for one block.  [RUNNING false]
    is a worker that has not yet passed [self._read_semaphore.acquire()],
    [RUNNING true] one that is inside [self._read(block)]. *)
Inductive FutureState : Type :=
| PENDING
| RUNNING (acquired : bool)
| CANCELLED
| FINISHED (r : result).

Record Future : Type :=
  { block : Block; _state : FutureState }.

Definition set_state (st : FutureState) (f : Future) : Future :=
  {| block := block f; _state := st |}.

(** [Future.cancel()]: only a future that has not started is cancelled. *)
Definition cancel (f : Future) : Future :=
  match _state f with
  | PENDING => set_state CANCELLED f
  | _ => f
  end.

Definition done (f : Future) : bool :=
  match _state f with
  | CANCELLED | FINISHED _ => true
  | _ => false
  end.

Definition cancelled (f : Future) : bool :=
  match _state f with CANCELLED => true | _ => false end.

Definition is_pending (f : Future) : bool :=
  match _state f with PENDING => true | _ => false end.

Definition is_running (f : Future) : bool :=
  match _state f with RUNNING _ => true | _ => false end.

(** The future went through [acquire()] and nobody released for it yet. *)
Definition holds_permit (f : Future) : bool :=
  match _state f with
  | RUNNING true | FINISHED _ => true
  | _ => false
  end.

(** [Future.result()], with the exception as a value. *)
Definition future_result (f : Future) : option result :=
  match _state f with
  | FINISHED r => Some r
  | CANCELLED => Some (Raised CancelledError)
  | _ => None
  end.

(** The three attributes [open_r] creates. *)
Record ReadSide : Type :=
  { _read_executor : ThreadPoolExecutor;
    _read_futures : list Future;
    _read_semaphore : BoundedSemaphore }.

Record IOBase : Type :=
  { _simultaneous_reads : Z;
    opened : option ReadSide }.

Definition READ_QUEUE_LENGTH : Z := 5.

Definition IOBase_init (simultaneous_reads : Z) : IOBase :=
  {| _simultaneous_reads := simultaneous_reads; opened := None |}.

Definition open_r (self : IOBase) : outcome IOBase :=
  match ThreadPoolExecutor_init (_simultaneous_reads self) with
  | Raised e => Raised e
  | Returned executor =>
    match BoundedSemaphore_init (_simultaneous_reads self + READ_QUEUE_LENGTH) with
    | Raised e => Raised e
    | Returned semaphore =>
      Returned {| _simultaneous_reads := _simultaneous_reads self;
                  opened := Some {| _read_executor := executor;
                                    _read_futures := [];
                                    _read_semaphore := semaphore |} |}
    end
  end.

(** [ThreadPoolExecutor.submit]. *)
Definition submit (executor : ThreadPoolExecutor) (b : Block) : outcome Future :=
  if _shutdown executor
  then Raised (RuntimeError "cannot schedule new futures after shutdown")
  else Returned {| block := b; _state := PENDING |}.

Definition read (self : IOBase) (b : Block) (sync : bool)
  : outcome (option bytes) * IOBase :=
  if sync then
    match _read b with
    | Returned (_, data) => (Returned (Some data), self)
    | Raised e => (Raised e, self)
    end
  else
    match opened self with
    | None =>
      (Raised (AttributeError "'IOBase' object has no attribute '_read_futures'"), self)
    | Some r =>
      match submit (_read_executor r) b with
      | Raised e => (Raised e, self)
      | Returned future =>
        (Returned None,
         {| _simultaneous_reads := _simultaneous_reads self;
            opened := Some {| _read_executor := _read_executor r;
                              _read_futures := _read_futures r ++ [future];
                              _read_semaphore := _read_semaphore r |} |})
      end
    end.

(** Modelled from the spec: [future_results_as_completed] of [benji.utils],
    which [read_get_completed] returns, is not among the sources.  One
    item of that generator is modelled here: the drain hands out the
    result of a completed operation (success, failure or cancellation, the
    last two as exception values), takes its handle off the list of
    outstanding operations, and gives back the permit the operation holds.
    An operation cancelled before it started went through no [acquire()]
    and holds none.  [i] is the position of the future that completed next;
    [None] means that this future has not completed and the generator
    waits. *)
Definition future_results_as_completed
    (futures : list Future) (semaphore : BoundedSemaphore) (i : nat)
  : option (outcome result * list Future * BoundedSemaphore) :=
  match futures !! i with
  | None => None
  | Some future =>
    match future_result future with
    | None => None
    | Some r =>
      if cancelled future
      then Some (Returned r, delete i futures, semaphore)
      else
        match release semaphore with
        | Returned semaphore' => Some (Returned r, delete i futures, semaphore')
        | Raised e => Some (Raised e, delete i futures, semaphore)
        end
    end
  end.

(** One item of [self.read_get_completed()]. *)
Definition read_get_completed (r : ReadSide) (i : nat)
  : option (outcome result * ReadSide) :=
  match future_results_as_completed (_read_futures r) (_read_semaphore r) i with
  | None => None
  | Some (o, futures, semaphore) =>
    Some (o, {| _read_executor := _read_executor r;
                _read_futures := futures;
                _read_semaphore := semaphore |})
  end.

(** *** Threads

    The caller thread runs the methods of the engine; the workers of the
    pool run [read_with_acquire].  [close] is not atomic: between two of
    its statements the workers go on, so the caller carries the point of
    [close] it has reached. *)
Inductive Caller : Type :=
| Idle                      (* outside [close] *)
| Cancelling (i : nat)      (* in the loop of [future.cancel()], at index [i] *)
| Draining.                 (* in the loop over [self.read_get_completed()] *)

Record System : Type :=
  { io : IOBase; pc : Caller }.

Inductive Event : Type :=
| call_open_r
| call_read (b : Block) (sync : bool)
| call_read_get_completed (i : nat)
| call_close
| close_cancel
| close_get (i : nat)
| close_shutdown
| worker_start
| worker_acquire (i : nat)
| worker_finish (i : nat).

(** What the caller sees of a step. *)
Inductive Label : Type :=
| silent
| returns (v : option bytes)
| yields (r : result)
| raises (e : exn).

Definition with_read_side (self : IOBase) (r : ReadSide) : IOBase :=
  {| _simultaneous_reads := _simultaneous_reads self; opened := Some r |}.

Definition with_futures (r : ReadSide) (futures : list Future) : ReadSide :=
  {| _read_executor := _read_executor r;
     _read_futures := futures;
     _read_semaphore := _read_semaphore r |}.

Fixpoint total (w : Future -> nat) (futures : list Future) : nat :=
  match futures with
  | [] => 0
  | f :: rest => w f + total w rest
  end.

Definition indicator (p : Future -> bool) (f : Future) : nat :=
  if p f then 1 else 0.

Fixpoint first_pending (futures : list Future) : option nat :=
  match futures with
  | [] => None
  | f :: rest => if is_pending f then Some 0 else S <$> first_pending rest
  end.

(** An idle worker takes the oldest work item that is not cancelled. *)
Definition start_worker (r : ReadSide) : option ReadSide :=
  if (Z.of_nat (total (indicator is_running) (_read_futures r))
      <? _max_workers (_read_executor r))%Z
  then
    match first_pending (_read_futures r) with
    | Some i => Some (with_futures r (alter (set_state (RUNNING false)) i (_read_futures r)))
    | None => None
    end
  else None.

(** [self._read_semaphore.acquire()] in [read_with_acquire]. *)
Definition worker_acquires (r : ReadSide) (i : nat) : option ReadSide :=
  match _read_futures r !! i with
  | Some f =>
    match _state f with
    | RUNNING false =>
      match acquire (_read_semaphore r) with
      | Some semaphore =>
        Some {| _read_executor := _read_executor r;
                _read_futures := alter (set_state (RUNNING true)) i (_read_futures r);
                _read_semaphore := semaphore |}
      | None => None
      end
    | _ => None
    end
  | None => None
  end.

(** [return self._read(block)] in [read_with_acquire]. *)
Definition worker_finishes (r : ReadSide) (i : nat) : option ReadSide :=
  match _read_futures r !! i with
  | Some f =>
    match _state f with
    | RUNNING true =>
      Some (with_futures r (alter (set_state (FINISHED (_read (block f)))) i (_read_futures r)))
    | _ => None
    end
  | None => None
  end.

(** [self._read_executor.shutdown()]. *)
Definition shutdown (r : ReadSide) : ReadSide :=
  {| _read_executor := {| _max_workers := _max_workers (_read_executor r); _shutdown := true |};
     _read_futures := _read_futures r;
     _read_semaphore := _read_semaphore r |}.

(** [IOBase.close], statement by statement: called on an opened engine
    with futures outstanding it goes through the loop of [future.cancel()],
    then through the loop over [self.read_get_completed()], whose results
    it drops, and then shuts the executor down.  An exception of the drain
    would leave [close]. *)
Definition close (ev : Event) (s : System) : option (Label * System) :=
  match ev, pc s, opened (io s) with
  | call_close, Idle, None => Some (returns None, s)
  | call_close, Idle, Some r =>
    match _read_futures r with
    | [] => Some (returns None, {| io := with_read_side (io s) (shutdown r); pc := Idle |})
    | _ :: _ => Some (silent, {| io := io s; pc := Cancelling 0 |})
    end
  | close_cancel, Cancelling i, Some r =>
    if decide (i < length (_read_futures r))
    then Some (silent,
               {| io := with_read_side (io s) (with_futures r (alter cancel i (_read_futures r)));
                  pc := if decide (S i < length (_read_futures r))
                        then Cancelling (S i) else Draining |})
    else None
  | close_get i, Draining, Some r =>
    match read_get_completed r i with
    | Some (Returned _, r') => Some (silent, {| io := with_read_side (io s) r'; pc := Draining |})
    | Some (Raised e, r') => Some (raises e, {| io := with_read_side (io s) r'; pc := Idle |})
    | None => None
    end
  | close_shutdown, Draining, Some r =>
    match _read_futures r with
    | [] => Some (returns None, {| io := with_read_side (io s) (shutdown r); pc := Idle |})
    | _ :: _ => None
    end
  | _, _, _ => None
  end.

(** One step of one thread.  [None] is a step that cannot be taken in
    this state: a thread that waits (a worker at [acquire()] with no permit
    left, the drain with no completed future at [i]), or an event that is
    not the next thing its thread does.  The caller is one thread: while
    it is inside [close] it calls nothing else.  An instance is opened
    once; timeouts of the drain are left out. *)
Definition step (ev : Event) (s : System) : option (Label * System) :=
  match ev, pc s, opened (io s) with
  | call_open_r, Idle, None =>
    match open_r (io s) with
    | Returned self => Some (returns None, {| io := self; pc := Idle |})
    | Raised e => Some (raises e, s)
    end
  | call_read b sync, Idle, _ =>
    match read (io s) b sync with
    | (Returned v, self) => Some (returns v, {| io := self; pc := Idle |})
    | (Raised e, self) => Some (raises e, {| io := self; pc := Idle |})
    end
  | call_read_get_completed i, Idle, Some r =>
    match read_get_completed r i with
    | Some (Returned x, r') => Some (yields x, {| io := with_read_side (io s) r'; pc := Idle |})
    | Some (Raised e, r') => Some (raises e, {| io := with_read_side (io s) r'; pc := Idle |})
    | None => None
    end
  | call_close, _, _ | close_cancel, _, _ | close_get _, _, _ | close_shutdown, _, _ =>
    close ev s
  | worker_start, _, Some r =>
    r' ← start_worker r; Some (silent, {| io := with_read_side (io s) r'; pc := pc s |})
  | worker_acquire i, _, Some r =>
    r' ← worker_acquires r i; Some (silent, {| io := with_read_side (io s) r'; pc := pc s |})
  | worker_finish i, _, Some r =>
    r' ← worker_finishes r i; Some (silent, {| io := with_read_side (io s) r'; pc := pc s |})
  | _, _, _ => None
  end.

Fixpoint run (evs : list Event) (s : System) : option (list Label * System) :=
  match evs with
  | [] => Some ([], s)
  | ev :: rest =>
    match step ev s with
    | None => None
    | Some (l, s') =>
      match run rest s' with
      | None => None
      | Some (ls, s'') => Some (l :: ls, s'')
      end
    end
  end.

(** A new instance, before [open_r]. *)
Definition boot (simultaneous_reads : Z) : System :=
  {| io := IOBase_init simultaneous_reads; pc := Idle |}.

Definition futures_of (s : System) : list Future :=
  match opened (io s) with
  | Some r => _read_futures r
  | None => []
  end.

(** Reads submitted and not yet drained. *)
Definition outstanding (s : System) : nat := length (futures_of s).

(** Reads that went through [acquire()] and were not yet drained. *)
Definition permits_held (s : System) : nat :=
  total (indicator holds_permit) (futures_of s).

(** The state in which [close] leaves the engine: nothing outstanding,
    every permit back, the pool shut down. *)
Definition closed_cleanly (N : Z) (s : System) : Prop :=
  pc s = Idle /\
  exists r, opened (io s) = Some r /\
    _read_futures r = [] /\
    _shutdown (_read_executor r) = true /\
    _value (_read_semaphore r) = (N + READ_QUEUE_LENGTH)%Z /\
    _initial_value (_read_semaphore r) = (N + READ_QUEUE_LENGTH)%Z.

(** *** Runs of [close] *)

(** The events of the caller thread that are calls of a method; while
    [close] runs the caller makes none. *)
Definition is_call (ev : Event) : bool :=
  match ev with
  | call_open_r | call_read _ _ | call_read_get_completed _ | call_close => true
  | _ => false
  end.

Definition is_worker (ev : Event) : bool :=
  match ev with
  | worker_start | worker_acquire _ | worker_finish _ => true
  | _ => false
  end.

(** The steps of the caller in a run, in order. *)
Fixpoint caller_part (evs : list Event) : list Event :=
  match evs with
  | [] => []
  | ev :: rest => if is_worker ev then caller_part rest else ev :: caller_part rest
  end.

(** What is left to do for a future, and for [close]. *)
Definition weight (f : Future) : nat :=
  match _state f with
  | PENDING => 4
  | RUNNING false => 3
  | RUNNING true => 2
  | CANCELLED | FINISHED _ => 1
  end.

Definition pc_weight (c : Caller) (n : nat) : nat :=
  match c with
  | Idle => 0
  | Cancelling i => 1 + (n - i)
  | Draining => 1
  end.

Definition measure (s : System) : nat :=
  total weight (futures_of s) + pc_weight (pc s) (outstanding s).

(** *** The invariant of an engine configured with [N] simultaneous reads *)

Definition no_pending_before (i : nat) (fs : list Future) : Prop :=
  forall j f, j < i -> fs !! j = Some f -> is_pending f = false.

Definition phase_ok (c : Caller) (fs : list Future) : Prop :=
  match c with
  | Idle => True
  | Cancelling i => i < length fs /\ no_pending_before i fs
  | Draining => no_pending_before (length fs) fs
  end.

Definition read_side_ok (N : Z) (r : ReadSide) : Prop :=
  (0 < N)%Z /\
  _max_workers (_read_executor r) = N /\
  _initial_value (_read_semaphore r) = (N + READ_QUEUE_LENGTH)%Z /\
  (0 <= _value (_read_semaphore r))%Z /\
  (Z.of_nat (total (indicator holds_permit) (_read_futures r))
   + _value (_read_semaphore r) = N + READ_QUEUE_LENGTH)%Z.

Definition inv (N : Z) (s : System) : Prop :=
  _simultaneous_reads (io s) = N /\
  match opened (io s) with
  | None => pc s = Idle
  | Some r => read_side_ok N r /\ phase_ok (pc s) (_read_futures r)
  end.

(** How one step changes the semaphore. *)
Definition semaphore_effect (ev : Event) (r r' : ReadSide) : Prop :=
  _initial_value (_read_semaphore r') = _initial_value (_read_semaphore r) /\
  match ev with
  | call_read_get_completed i | close_get i =>
    exists f x, _read_futures r !! i = Some f /\ future_result f = Some x /\
      _value (_read_semaphore r') =
        (_value (_read_semaphore r) + Z.of_nat (indicator holds_permit f))%Z
  | worker_acquire i =>
    _value (_read_semaphore r') = (_value (_read_semaphore r) - 1)%Z
  | worker_finish i =>
    _read_semaphore r' = _read_semaphore r /\
    exists f x, _read_futures r !! i = Some f /\ _state f = RUNNING true /\
      _read_futures r' !! i = Some (set_state (FINISHED x) f)
  | _ => _read_semaphore r' = _read_semaphore r
  end.

(** The steps that are not calls: a worker step, or one of the three
    kinds of steps of [close]. *)
Inductive closing_step (s : System) (r : ReadSide) (ev : Event) (l : Label)
    (s1 : System) (r1 : ReadSide) : Prop :=
| by_worker :
    is_worker ev = true -> l = silent -> pc s1 = pc s ->
    length (_read_futures r1) = length (_read_futures r) ->
    total weight (_read_futures r1) < total weight (_read_futures r) ->
    closing_step s r ev l s1 r1
| by_cancel i :
    ev = close_cancel -> l = silent -> pc s = Cancelling i ->
    i < length (_read_futures r) ->
    pc s1 = (if decide (S i < length (_read_futures r)) then Cancelling (S i) else Draining) ->
    length (_read_futures r1) = length (_read_futures r) ->
    total weight (_read_futures r1) <= total weight (_read_futures r) ->
    closing_step s r ev l s1 r1
| by_get j :
    ev = close_get j -> l = silent -> pc s = Draining -> pc s1 = Draining ->
    S (length (_read_futures r1)) = length (_read_futures r) ->
    total weight (_read_futures r1) < total weight (_read_futures r) ->
    closing_step s r ev l s1 r1
| by_shutdown :
    ev = close_shutdown -> l = returns None -> pc s = Draining -> pc s1 = Idle ->
    _read_futures r = [] -> r1 = shutdown r ->
    closing_step s r ev l s1 r1.

(** *** Counting over the list of futures *)

Lemma total_app w (fs gs : list Future) :
  total w (fs ++ gs) = total w fs + total w gs.
Proof. induction fs as [|f fs IH]; simpl; lia. Qed.

Lemma total_alter w g (fs : list Future) i f :
  fs !! i = Some f ->
  total w (alter g i fs) + w f = total w fs + w (g f).
Proof.
  revert i. induction fs as [|f0 fs IH]; intros [|i] Hi; simplify_eq/=; try lia.
  specialize (IH _ Hi). lia.
Qed.

Lemma total_delete w (fs : list Future) i f :
  fs !! i = Some f ->
  total w (delete i fs) + w f = total w fs.
Proof.
  revert i. induction fs as [|f0 fs IH]; intros [|i] Hi; simplify_eq/=; try lia.
  specialize (IH _ Hi). lia.
Qed.

Lemma total_zero w (fs : list Future) :
  total w fs = 0 -> forall i f, fs !! i = Some f -> w f = 0.
Proof.
  induction fs as [|f0 fs IH]; intros Ht [|i] f Hi; simplify_eq/=; try lia.
  apply (IH ltac:(lia) i f Hi).
Qed.

Lemma first_pending_Some (fs : list Future) i :
  first_pending fs = Some i ->
  exists f, fs !! i = Some f /\ _state f = PENDING.
Proof.
  revert i. induction fs as [|f0 fs IH]; intros i Hi; simpl in *; [done|].
  unfold is_pending in Hi. destruct (_state f0) eqn:Hst.
  - simplify_eq. by exists f0.
  - destruct (first_pending fs) as [j|]; simplify_eq/=. by apply IH.
  - destruct (first_pending fs) as [j|]; simplify_eq/=. by apply IH.
  - destruct (first_pending fs) as [j|]; simplify_eq/=. by apply IH.
Qed.

Lemma no_pending_before_alter g i k (fs : list Future) :
  (forall f, is_pending f = false -> is_pending (g f) = false) ->
  no_pending_before i fs -> no_pending_before i (alter g k fs).
Proof.
  intros Hg Hn j f Hj Hf.
  destruct (decide (k = j)) as [->|Hne].
  - rewrite list_lookup_alter_eq in Hf.
    destruct (fs !! j) as [f0|] eqn:Hf0; simplify_eq/=.
    apply Hg. by apply (Hn j).
  - rewrite list_lookup_alter_ne in Hf by done. by apply (Hn j).
Qed.

Lemma no_pending_before_delete i k (fs : list Future) :
  no_pending_before (length fs) fs ->
  no_pending_before i (delete k fs).
Proof.
  intros Hn j f _ Hf.
  destruct (decide (j < k)).
  - rewrite list_lookup_delete_lt in Hf by done.
    apply (Hn j); [by eapply lookup_lt_Some|done].
  - rewrite list_lookup_delete_ge in Hf by lia.
    apply (Hn (S j)); [by eapply lookup_lt_Some|done].
Qed.

Lemma start_worker_Some r r' :
  start_worker r = Some r' ->
  exists i f, _read_futures r !! i = Some f /\ _state f = PENDING /\
    r' = with_futures r (alter (set_state (RUNNING false)) i (_read_futures r)).
Proof.
  unfold start_worker. case_match; [|done].
  destruct (first_pending (_read_futures r)) as [i|] eqn:Hp; [|done].
  intros [= <-]. apply first_pending_Some in Hp as (f & Hf & Hst). eauto.
Qed.

Lemma worker_acquires_Some r i r' :
  worker_acquires r i = Some r' ->
  exists f, _read_futures r !! i = Some f /\ _state f = RUNNING false /\
    (0 < _value (_read_semaphore r))%Z /\
    r' = {| _read_executor := _read_executor r;
            _read_futures := alter (set_state (RUNNING true)) i (_read_futures r);
            _read_semaphore := {| _value := _value (_read_semaphore r) - 1;
                                  _initial_value := _initial_value (_read_semaphore r) |} |}.
Proof.
  unfold worker_acquires, acquire.
  destruct (_read_futures r !! i) as [f|] eqn:Hf; [|done].
  destruct (_state f) as [|[]| |] eqn:Hst; try done.
  destruct (0 <? _value (_read_semaphore r))%Z eqn:Hv; [|done].
  intros [= <-]. exists f. repeat split; auto. lia.
Qed.

Lemma worker_finishes_Some r i r' :
  worker_finishes r i = Some r' ->
  exists f, _read_futures r !! i = Some f /\ _state f = RUNNING true /\
    r' = with_futures r (alter (set_state (FINISHED (_read (block f)))) i (_read_futures r)).
Proof.
  unfold worker_finishes.
  destruct (_read_futures r !! i) as [f|] eqn:Hf; [|done].
  destruct (_state f) as [|[]| |] eqn:Hst; try done.
  intros [= <-]. eauto.
Qed.

(** The drain of a reachable engine never releases once too often. *)
Lemma read_get_completed_Some N r i o r' :
  read_side_ok N r ->
  read_get_completed r i = Some (o, r') ->
  exists f x, _read_futures r !! i = Some f /\ future_result f = Some x /\
    o = Returned x /\
    _read_executor r' = _read_executor r /\
    _read_futures r' = delete i (_read_futures r) /\
    _read_semaphore r' =
      {| _value := _value (_read_semaphore r) + Z.of_nat (indicator holds_permit f);
         _initial_value := _initial_value (_read_semaphore r) |}.
Proof.
  intros (HN & Hw & Hi & Hv & Hsum).
  unfold read_get_completed, future_results_as_completed.
  destruct (_read_futures r !! i) as [f|] eqn:Hf; [|done].
  destruct (future_result f) as [x|] eqn:Hx; [|done].
  pose proof (total_delete (indicator holds_permit) _ _ _ Hf) as Hd.
  unfold future_result in Hx. unfold cancelled, release.
  destruct (_state f) as [|a| |x'] eqn:Hst; simplify_eq/=.
  - intros [= <- <-]. exists f, (Raised CancelledError).
    unfold future_result, indicator, holds_permit. rewrite Hst. simpl.
    repeat split; auto. destruct (_read_semaphore r); simpl. f_equal. lia.
  - assert (indicator holds_permit f = 1) as Hone
      by (unfold indicator, holds_permit; by rewrite Hst).
    destruct (_initial_value (_read_semaphore r) <=? _value (_read_semaphore r))%Z eqn:Hle.
    + exfalso. lia.
    + intros [= <- <-]. exists f, x.
      unfold future_result. rewrite Hst, Hone. simpl. repeat split; auto.
Qed.

Lemma inv_boot N : inv N (boot N).
Proof. by split. Qed.

Lemma open_r_Returned self self' :
  open_r self = Returned self' ->
  (0 < _simultaneous_reads self)%Z /\
  self' = with_read_side self
    {| _read_executor := {| _max_workers := _simultaneous_reads self; _shutdown := false |};
       _read_futures := [];
       _read_semaphore :=
         {| _value := _simultaneous_reads self + READ_QUEUE_LENGTH;
            _initial_value := _simultaneous_reads self + READ_QUEUE_LENGTH |} |}.
Proof.
  unfold open_r, ThreadPoolExecutor_init, BoundedSemaphore_init, READ_QUEUE_LENGTH.
  destruct (_simultaneous_reads self <=? 0)%Z eqn:HN; [done|].
  destruct (_simultaneous_reads self + 5 <? 0)%Z eqn:HQ; [lia|].
  intros [= <-]. split; [lia|done].
Qed.

Lemma read_async_Returned self b o self' :
  read self b false = (o, self') ->
  (self' = self /\ exists e, o = Raised e) \/
  (exists r, opened self = Some r /\ _shutdown (_read_executor r) = false /\
     o = Returned None /\
     self' = with_read_side self
       (with_futures r (_read_futures r ++ [{| block := b; _state := PENDING |}]))).
Proof.
  unfold read, submit. destruct (opened self) as [r|] eqn:Hr.
  - destruct (_shutdown (_read_executor r)) eqn:Hs; intros [= <- <-]; eauto 10.
  - intros [= <- <-]; eauto.
Qed.

Lemma read_sync_state self b o self' :
  read self b true = (o, self') -> self' = self.
Proof.
  unfold read. destruct (_read b) as [[? ?]|]; by intros [= <- <-].
Qed.

Lemma inv_step N ev s l s' :
  inv N s -> step ev s = Some (l, s') -> inv N s'.
Proof.
  intros Hinv Hstep. destruct s as [self c].
  unfold step, close in Hstep. unfold inv in Hinv. simpl in *.
  destruct (opened self) as [r|] eqn:Hr.
  - destruct Hinv as [HN [Hok Hph]].
    destruct ev; simpl in *.
    + by destruct c.
    + destruct c; try done.
      destruct (read self b sync) as [o self1] eqn:Hread.
      assert (inv N {| io := self1; pc := Idle |}) as Hgoal.
      { destruct sync.
        - apply read_sync_state in Hread as ->. split; simpl; [done|]. by rewrite Hr.
        - apply read_async_Returned in Hread as [[-> _]|(r0 & Hr0 & _ & _ & ->)].
          + split; simpl; [done|]. by rewrite Hr.
          + rewrite Hr in Hr0. simplify_eq. split; simpl; [done|]. split; [|done].
            destruct Hok as (? & ? & ? & ? & Hsum). repeat split; simpl; auto.
            rewrite total_app. simpl. lia. }
      destruct o; by simplify_eq.
    + destruct c; try done.
      destruct (read_get_completed r i) as [[o r1]|] eqn:Hget; [|done].
      pose proof (read_get_completed_Some _ _ _ _ _ Hok Hget)
        as (f & x & Hf & Hx & -> & He & Hfs & Hsem).
      simplify_eq. split; simpl; [done|]. split; [|done].
      destruct Hok as (? & ? & ? & ? & Hsum).
      pose proof (total_delete (indicator holds_permit) _ _ _ Hf).
      unfold read_side_ok. rewrite He, Hfs, Hsem. repeat split; simpl; auto; lia.
    + destruct c; try done.
      destruct (_read_futures r) eqn:Hfs; simplify_eq.
      * split; simpl; [done|]. split; [|done].
        destruct Hok as (? & ? & ? & ? & Hsum). rewrite Hfs in Hsum.
        repeat split; simpl; auto. by rewrite Hfs.
      * split; simpl; [done|]. rewrite Hr. split; [done|].
        rewrite Hfs. split; [simpl; lia|]. intros j f0 Hj. lia.
    + destruct c as [|i|]; try done.
      destruct (decide (i < length (_read_futures r))) as [Hi|]; [|done].
      simplify_eq. split; simpl; [done|].
      destruct (lookup_lt_is_Some_2 _ _ Hi) as [f Hf].
      assert (indicator holds_permit (cancel f) = indicator holds_permit f) as Hc.
      { by destruct f as [b0 [|[]| |]]. }
      pose proof (total_alter (indicator holds_permit) cancel _ _ _ Hf) as Ht.
      destruct Hok as (? & ? & ? & ? & Hsum). split.
      { repeat split; simpl; auto. lia. }
      assert (no_pending_before (S i) (alter cancel i (_read_futures r))) as Hnp.
      { intros j f0 Hj Hf0. destruct (decide (j = i)) as [->|Hne].
        - rewrite list_lookup_alter_eq, Hf in Hf0. simplify_eq/=.
          by destruct f as [b0 [|[]| |]].
        - destruct Hph as [_ Hnp]. rewrite list_lookup_alter_ne in Hf0 by done.
          apply (Hnp j); [lia|done]. }
      case_decide; simpl; rewrite length_alter.
      * done.
      * by replace (length (_read_futures r)) with (S i) by lia.
    + destruct c; try done.
      destruct (read_get_completed r i) as [[o r1]|] eqn:Hget; [|done].
      pose proof (read_get_completed_Some _ _ _ _ _ Hok Hget)
        as (f & x & Hf & Hx & -> & He & Hfs & Hsem).
      simplify_eq. split; simpl; [done|].
      destruct Hok as (? & ? & ? & ? & Hsum).
      pose proof (total_delete (indicator holds_permit) _ _ _ Hf).
      unfold read_side_ok. rewrite He, Hfs, Hsem. split.
      { repeat split; simpl; auto; lia. }
      by apply no_pending_before_delete.
    + destruct c; try done.
      destruct (_read_futures r) eqn:Hfs; simplify_eq.
      split; simpl; [done|]. split; [|done].
      destruct Hok as (? & ? & ? & ? & Hsum). rewrite Hfs in Hsum.
      repeat split; simpl; auto. by rewrite Hfs.
    + assert (exists r', start_worker r = Some r' /\
                s' = {| io := with_read_side self r'; pc := c |}) as (r' & Hw & ->).
      { destruct c; simpl in Hstep; destruct (start_worker r); simplify_eq/=; eauto. }
      apply start_worker_Some in Hw as (i & f & Hf & Hst & ->).
      pose proof (total_alter (indicator holds_permit) (set_state (RUNNING false)) _ _ _ Hf) as Ht.
      assert (indicator holds_permit f = 0) as Hw0
        by (unfold indicator, holds_permit; by rewrite Hst).
      change (indicator holds_permit (set_state (RUNNING false) f)) with 0 in Ht.
      rewrite Hw0 in Ht.
      destruct Hok as (? & ? & ? & ? & Hsum).
      split; simpl; [done|]. split.
      { repeat split; simpl; auto. lia. }
      destruct c; simpl in *; [done| |].
      * rewrite length_alter. destruct Hph. split; [done|].
        by apply no_pending_before_alter.
      * rewrite length_alter. by apply no_pending_before_alter.
    + assert (exists r', worker_acquires r i = Some r' /\
                s' = {| io := with_read_side self r'; pc := c |}) as (r' & Hw & ->).
      { destruct c; simpl in Hstep; destruct (worker_acquires r i); simplify_eq/=; eauto. }
      apply worker_acquires_Some in Hw as (f & Hf & Hst & Hpos & ->).
      pose proof (total_alter (indicator holds_permit) (set_state (RUNNING true)) _ _ _ Hf) as Ht.
      assert (indicator holds_permit f = 0) as Hw0
        by (unfold indicator, holds_permit; by rewrite Hst).
      change (indicator holds_permit (set_state (RUNNING true) f)) with 1 in Ht.
      rewrite Hw0 in Ht.
      destruct Hok as (? & ? & ? & ? & Hsum).
      split; simpl; [done|]. split.
      { repeat split; simpl; auto; lia. }
      destruct c; simpl in *; [done| |].
      * rewrite length_alter. destruct Hph. split; [done|].
        by apply no_pending_before_alter.
      * rewrite length_alter. by apply no_pending_before_alter.
    + assert (exists r', worker_finishes r i = Some r' /\
                s' = {| io := with_read_side self r'; pc := c |}) as (r' & Hw & ->).
      { destruct c; simpl in Hstep; destruct (worker_finishes r i); simplify_eq/=; eauto. }
      apply worker_finishes_Some in Hw as (f & Hf & Hst & ->).
      pose proof (total_alter (indicator holds_permit)
                    (set_state (FINISHED (_read (block f)))) _ _ _ Hf) as Ht.
      assert (indicator holds_permit f = 1) as Hw0
        by (unfold indicator, holds_permit; by rewrite Hst).
      change (indicator holds_permit (set_state (FINISHED (_read (block f))) f)) with 1 in Ht.
      rewrite Hw0 in Ht.
      destruct Hok as (? & ? & ? & ? & Hsum).
      split; simpl; [done|]. split.
      { repeat split; simpl; auto; lia. }
      destruct c; simpl in *; [done| |].
      * rewrite length_alter. destruct Hph. split; [done|].
        by apply no_pending_before_alter.
      * rewrite length_alter. by apply no_pending_before_alter.
  - destruct Hinv as [HN ->].
    destruct ev; simpl in *; try done.
    + destruct (open_r self) as [self1|e] eqn:Hopen; simplify_eq.
      * apply open_r_Returned in Hopen as [Hpos ->].
        split; simpl; [done|]. split; [|done].
        unfold read_side_ok, READ_QUEUE_LENGTH. simpl. lia.
      * split; simpl; [done|]. by rewrite Hr.
    + destruct (read self b sync) as [o self1] eqn:Hread.
      assert (self1 = self) as ->.
      { destruct sync.
        - by apply read_sync_state in Hread.
        - apply read_async_Returned in Hread as [[-> _]|(r0 & Hr0 & _)]; [done|].
          by rewrite Hr in Hr0. }
      assert (inv N {| io := self; pc := Idle |}) by (split; simpl; [done|by rewrite Hr]).
      destruct o; by simplify_eq.
    + simplify_eq. split; simpl; [done|by rewrite Hr].
Qed.

Lemma inv_run N evs : forall s ls s',
  inv N s -> run evs s = Some (ls, s') -> inv N s'.
Proof.
  induction evs as [|ev evs IH]; intros s ls s' Hinv Hrun; simpl in Hrun.
  - by simplify_eq.
  - destruct (step ev s) as [[l s1]|] eqn:Hstep; [|done].
    destruct (run evs s1) as [[ls1 s2]|] eqn:Hrest; [|done].
    simplify_eq. eapply IH; [|done]. by eapply inv_step.
Qed.

Lemma step_semaphore N ev s l s' r :
  inv N s -> step ev s = Some (l, s') -> opened (io s) = Some r ->
  exists r', opened (io s') = Some r' /\ semaphore_effect ev r r'.
Proof.
  intros Hinv Hstep Hr. destruct s as [self c].
  unfold step, close in Hstep. unfold inv in Hinv. simpl in *. rewrite Hr in *.
  destruct Hinv as [HN [Hok Hph]].
  destruct ev; simpl in *.
  - by destruct c.
  - destruct c; try done.
    destruct (read self b sync) as [o self1] eqn:Hread.
    assert (exists r', opened self1 = Some r' /\ _read_semaphore r' = _read_semaphore r)
      as (r' & Hr' & Hsem).
    { destruct sync.
      - apply read_sync_state in Hread as ->. eauto.
      - apply read_async_Returned in Hread as [[-> _]|(r0 & Hr0 & _ & _ & ->)]; [eauto|].
        rewrite Hr in Hr0. simplify_eq. simpl. eauto. }
    exists r'. split; [destruct o; by simplify_eq|]. split; by rewrite Hsem.
  - destruct c; try done.
    destruct (read_get_completed r i) as [[o r1]|] eqn:Hget; [|done].
    pose proof (read_get_completed_Some _ _ _ _ _ Hok Hget)
      as (f & x & Hf & Hx & -> & He & Hfs & Hsem).
    simplify_eq. simpl. exists r1. split; [done|]. unfold semaphore_effect. rewrite Hsem. simpl. eauto 10.
  - destruct c; try done.
    destruct (_read_futures r) eqn:Hfs; simplify_eq; simpl.
    + exists (shutdown r). by repeat split.
    + exists r. by repeat split.
  - destruct c as [|i|]; try done. case_decide; [|done].
    simplify_eq. simpl. eexists. split; [done|]. by split.
  - destruct c; try done.
    destruct (read_get_completed r i) as [[o r1]|] eqn:Hget; [|done].
    pose proof (read_get_completed_Some _ _ _ _ _ Hok Hget)
      as (f & x & Hf & Hx & -> & He & Hfs & Hsem).
    simplify_eq. simpl. exists r1. split; [done|]. unfold semaphore_effect. rewrite Hsem. simpl. eauto 10.
  - destruct c; try done.
    destruct (_read_futures r) eqn:Hfs; simplify_eq. simpl.
    exists (shutdown r). by repeat split.
  - assert (exists r', start_worker r = Some r' /\
              s' = {| io := with_read_side self r'; pc := c |}) as (r' & Hw & ->).
    { destruct c; simpl in Hstep; destruct (start_worker r); simplify_eq/=; eauto. }
    apply start_worker_Some in Hw as (i & f & Hf & Hst & ->).
    simpl. eexists. split; [done|]. by split.
  - assert (exists r', worker_acquires r i = Some r' /\
              s' = {| io := with_read_side self r'; pc := c |}) as (r' & Hw & ->).
    { destruct c; simpl in Hstep; destruct (worker_acquires r i); simplify_eq/=; eauto. }
    apply worker_acquires_Some in Hw as (f & Hf & Hst & Hpos & ->).
    simpl. eexists. split; [done|]. by split.
  - assert (exists r', worker_finishes r i = Some r' /\
              s' = {| io := with_read_side self r'; pc := c |}) as (r' & Hw & ->).
    { destruct c; simpl in Hstep; destruct (worker_finishes r i); simplify_eq/=; eauto. }
    apply worker_finishes_Some in Hw as (f & Hf & Hst & ->).
    simpl. eexists. split; [done|]. repeat split.
    exists f, (_read (block f)). repeat split; auto.
    simpl. by rewrite list_lookup_alter_eq, Hf.
Qed.

(** *** Steps taken while [close] runs *)

Lemma weight_pos f : 0 < weight f.
Proof. unfold weight. destruct (_state f) as [|[]| |]; lia. Qed.

Lemma step_closing N s ev l s1 r :
  inv N s -> opened (io s) = Some r -> is_call ev = false ->
  step ev s = Some (l, s1) ->
  exists r1, opened (io s1) = Some r1 /\ closing_step s r ev l s1 r1.
Proof.
  intros Hinv Hr Hcall Hstep. destruct s as [self c].
  unfold step, close in Hstep. unfold inv in Hinv. simpl in *. rewrite Hr in *.
  destruct Hinv as [HN [Hok Hph]].
  destruct ev; simpl in *; try done.
  - destruct c as [|i|]; try done. case_decide as Hi; [|done].
    simplify_eq. eexists. split; [done|].
    destruct (lookup_lt_is_Some_2 _ _ Hi) as [f Hf].
    pose proof (total_alter weight cancel _ _ _ Hf) as Ht.
    assert (weight (cancel f) <= weight f) by (by destruct f as [b0 [|[]| |]]; cbv; lia).
    eapply (by_cancel _ _ _ _ _ _ i); simpl; auto; [by rewrite length_alter|lia].
  - destruct c; try done.
    destruct (read_get_completed r i) as [[o r1]|] eqn:Hget; [|done].
    pose proof (read_get_completed_Some _ _ _ _ _ Hok Hget)
      as (f & x & Hf & Hx & -> & He & Hfs & Hsem).
    simplify_eq. exists r1. split; [done|].
    pose proof (total_delete weight _ _ _ Hf) as Ht. pose proof (weight_pos f).
    eapply (by_get _ _ _ _ _ _ i); simpl; auto; rewrite Hfs.
    + rewrite length_delete by eauto. apply lookup_lt_Some in Hf. lia.
    + lia.
  - destruct c; try done.
    destruct (_read_futures r) eqn:Hfs; simplify_eq.
    exists (shutdown r). split; [done|]. by apply by_shutdown.
  - assert (exists r', start_worker r = Some r' /\ l = silent /\
              s1 = {| io := with_read_side self r'; pc := c |}) as (r' & Hw & -> & ->).
    { destruct c; simpl in Hstep; destruct (start_worker r); simplify_eq/=; eauto. }
    apply start_worker_Some in Hw as (i & f & Hf & Hst & ->).
    eexists. split; [done|].
    pose proof (total_alter weight (set_state (RUNNING false)) _ _ _ Hf) as Ht.
    assert (weight f = 4) as Hw0 by (unfold weight; by rewrite Hst).
    change (weight (set_state (RUNNING false) f)) with 3 in Ht.
    apply by_worker; simpl; auto; [by rewrite length_alter|lia].
  - assert (exists r', worker_acquires r i = Some r' /\ l = silent /\
              s1 = {| io := with_read_side self r'; pc := c |}) as (r' & Hw & -> & ->).
    { destruct c; simpl in Hstep; destruct (worker_acquires r i); simplify_eq/=; eauto. }
    apply worker_acquires_Some in Hw as (f & Hf & Hst & Hpos & ->).
    eexists. split; [done|].
    pose proof (total_alter weight (set_state (RUNNING true)) _ _ _ Hf) as Ht.
    assert (weight f = 3) as Hw0 by (unfold weight; by rewrite Hst).
    change (weight (set_state (RUNNING true) f)) with 2 in Ht.
    apply by_worker; simpl; auto; [by rewrite length_alter|lia].
  - assert (exists r', worker_finishes r i = Some r' /\ l = silent /\
              s1 = {| io := with_read_side self r'; pc := c |}) as (r' & Hw & -> & ->).
    { destruct c; simpl in Hstep; destruct (worker_finishes r i); simplify_eq/=; eauto. }
    apply worker_finishes_Some in Hw as (f & Hf & Hst & ->).
    eexists. split; [done|].
    pose proof (total_alter weight (set_state (FINISHED (_read (block f)))) _ _ _ Hf) as Ht.
    assert (weight f = 2) as Hw0 by (unfold weight; by rewrite Hst).
    change (weight (set_state (FINISHED (_read (block f))) f)) with 1 in Ht.
    apply by_worker; simpl; auto; [by rewrite length_alter|lia].
Qed.

Lemma no_step_when_drained s r ev :
  pc s = Idle -> opened (io s) = Some r -> _read_futures r = [] ->
  is_call ev = false -> step ev s = None.
Proof.
  intros Hpc Hr Hfs Hcall. destruct s as [self c]. simpl in *. subst c.
  unfold step, close. simpl. rewrite Hr.
  destruct ev; simpl in *; try done.
  - unfold start_worker. rewrite Hfs. simpl. by case_match.
  - unfold worker_acquires. by rewrite Hfs.
  - unfold worker_finishes. by rewrite Hfs.
Qed.

Lemma inv_opened_when_closing N s :
  inv N s -> pc s <> Idle -> exists r, opened (io s) = Some r.
Proof.
  intros [_ Hinv] Hpc. destruct (opened (io s)) as [r|]; [eauto|done].
Qed.

Lemma drain_runs N evs : forall s ls s',
  inv N s -> pc s = Draining ->
  Forall (fun ev => is_call ev = false) evs ->
  run evs s = Some (ls, s') -> pc s' = Idle ->
  exists js k,
    caller_part evs = map close_get js ++ [close_shutdown] /\
    length js = outstanding s /\
    ls = replicate k silent ++ [returns None] /\
    closed_cleanly N s'.
Proof.
  induction evs as [|ev evs IH]; intros s ls s' Hinv Hpc Hcalls Hrun Hidle; simpl in Hrun.
  { simplify_eq. congruence. }
  destruct (step ev s) as [[l s1]|] eqn:Hstep; [|done].
  destruct (run evs s1) as [[ls1 s2]|] eqn:Hrest; [|done]. simplify_eq.
  apply Forall_cons in Hcalls as [Hcall Hcalls].
  destruct (inv_opened_when_closing N s Hinv) as [r Hr]; [congruence|].
  pose proof (inv_step _ _ _ _ _ Hinv Hstep) as Hinv1.
  destruct (step_closing _ _ _ _ _ _ Hinv Hr Hcall Hstep) as (r1 & Hr1 & Hcs).
  unfold outstanding, futures_of. rewrite Hr.
  destruct Hcs as [Hw -> Hpc1 Hlen _ | i -> _ Hpci | j -> -> _ Hpc1 Hlen _
                  | -> -> _ Hpc1 Hfs ->].
  - destruct (IH s1 ls1 s' Hinv1 ltac:(congruence) Hcalls Hrest Hidle)
      as (js & k & Hcp & Hjs & -> & Hclean).
    exists js, (S k). simpl. rewrite Hw. split_and!; auto.
    unfold outstanding, futures_of in Hjs. rewrite Hr1 in Hjs. lia.
  - congruence.
  - destruct (IH s1 ls1 s' Hinv1 Hpc1 Hcalls Hrest Hidle)
      as (js & k & Hcp & Hjs & -> & Hclean).
    exists (j :: js), (S k). simpl. rewrite Hcp. split_and!; auto.
    unfold outstanding, futures_of in Hjs. rewrite Hr1 in Hjs. lia.
  - assert (evs = []) as ->.
    { destruct evs as [|ev' evs']; [done|]. simpl in Hrest.
      apply Forall_cons in Hcalls as [Hcall' _].
      by rewrite (no_step_when_drained s1 (shutdown r) ev' Hpc1 Hr1 Hfs Hcall') in Hrest. }
    simpl in Hrest. simplify_eq. exists [], 0. rewrite Hfs.
    split_and!; auto. split; [done|]. exists (shutdown r). split; [done|].
    destruct Hinv1 as [_ Hinv1]. rewrite Hr1 in Hinv1.
    destruct Hinv1 as [(_ & _ & Hi & _ & Hsum) _]. simpl in *.
    rewrite Hfs in Hsum. simpl in Hsum. repeat split; auto.
Qed.

Lemma cancel_runs N evs : forall s i ls s',
  inv N s -> pc s = Cancelling i ->
  Forall (fun ev => is_call ev = false) evs ->
  run evs s = Some (ls, s') -> pc s' = Idle ->
  exists js k,
    caller_part evs
      = replicate (outstanding s - i) close_cancel ++ map close_get js ++ [close_shutdown] /\
    length js = outstanding s /\
    ls = replicate k silent ++ [returns None] /\
    closed_cleanly N s'.
Proof.
  induction evs as [|ev evs IH]; intros s i ls s' Hinv Hpc Hcalls Hrun Hidle; simpl in Hrun.
  { simplify_eq. congruence. }
  destruct (step ev s) as [[l s1]|] eqn:Hstep; [|done].
  destruct (run evs s1) as [[ls1 s2]|] eqn:Hrest; [|done]. simplify_eq.
  apply Forall_cons in Hcalls as [Hcall Hcalls].
  destruct (inv_opened_when_closing N s Hinv) as [r Hr]; [congruence|].
  pose proof (inv_step _ _ _ _ _ Hinv Hstep) as Hinv1.
  destruct (step_closing _ _ _ _ _ _ Hinv Hr Hcall Hstep) as (r1 & Hr1 & Hcs).
  unfold outstanding, futures_of. rewrite Hr.
  destruct Hcs as [Hw -> Hpc1 Hlen _ | i' -> -> Hpci Hi Hpc1 Hlen _ | j -> -> Hpcd
                  | -> -> Hpcd].
  - destruct (IH s1 i ls1 s' Hinv1 ltac:(congruence) Hcalls Hrest Hidle)
      as (js & k & Hcp & Hjs & -> & Hclean).
    unfold outstanding, futures_of in Hcp, Hjs. rewrite Hr1 in Hcp, Hjs.
    exists js, (S k). simpl. rewrite Hw, Hcp, Hlen. split_and!; auto. lia.
  - rewrite Hpc in Hpci. simplify_eq. case_decide as Hlt.
    + destruct (IH s1 (S i') ls1 s' Hinv1 Hpc1 Hcalls Hrest Hidle)
        as (js & k & Hcp & Hjs & -> & Hclean).
      unfold outstanding, futures_of in Hcp, Hjs. rewrite Hr1 in Hcp, Hjs.
      exists js, (S k). simpl. rewrite Hcp, Hlen. split_and!; auto; [|lia].
      replace (length (_read_futures r) - i') with (S (length (_read_futures r) - S i')) by lia.
      done.
    + destruct (drain_runs N evs s1 ls1 s' Hinv1 Hpc1 Hcalls Hrest Hidle)
        as (js & k & Hcp & Hjs & -> & Hclean).
      unfold outstanding, futures_of in Hjs. rewrite Hr1 in Hjs.
      exists js, (S k). simpl. rewrite Hcp. split_and!; auto; [|lia].
      by replace (length (_read_futures r) - i') with 1 by lia.
  - congruence.
  - congruence.
Qed.

Lemma step_measure N s ev l s1 :
  inv N s -> is_call ev = false -> step ev s = Some (l, s1) ->
  measure s1 < measure s.
Proof.
  intros Hinv Hcall Hstep.
  destruct (opened (io s)) as [r|] eqn:Hr.
  - destruct (step_closing _ _ _ _ _ _ Hinv Hr Hcall Hstep) as (r1 & Hr1 & Hcs).
    unfold measure, outstanding, futures_of. rewrite Hr, Hr1.
    destruct Hcs as [Hw -> Hpc1 Hlen Hlt | i -> -> Hpci Hi Hpc1 Hlen Hle
                    | j -> -> Hpcd Hpc1 Hlen Hlt | -> -> Hpcd Hpc1 Hfs ->].
    + rewrite Hpc1, Hlen. lia.
    + rewrite Hpc1, Hpci, Hlen. case_decide; simpl; lia.
    + rewrite Hpc1, Hpcd. simpl. lia.
    + rewrite Hpc1, Hpcd. simpl. lia.
  - destruct s as [self c]. unfold step, close in Hstep. simpl in *. rewrite Hr in Hstep.
    destruct ev, c; simpl in *; done.
Qed.

Lemma run_length_bound N evs : forall s ls s',
  inv N s -> Forall (fun ev => is_call ev = false) evs ->
  run evs s = Some (ls, s') -> length evs + measure s' <= measure s.
Proof.
  induction evs as [|ev evs IH]; intros s ls s' Hinv Hcalls Hrun; simpl in Hrun.
  { simplify_eq. simpl. lia. }
  destruct (step ev s) as [[l s1]|] eqn:Hstep; [|done].
  destruct (run evs s1) as [[ls1 s2]|] eqn:Hrest; [|done]. simplify_eq.
  apply Forall_cons in Hcalls as [Hcall Hcalls].
  pose proof (step_measure _ _ _ _ _ Hinv Hcall Hstep).
  pose proof (IH s1 ls1 s' (inv_step _ _ _ _ _ Hinv Hstep) Hcalls Hrest).
  simpl. lia.
Qed.

Lemma total_weight_bound (fs : list Future) : total weight fs <= 4 * length fs.
Proof.
  induction fs as [|f fs IH]; simpl; [lia|].
  assert (weight f <= 4) by (unfold weight; destruct (_state f) as [|[]| |]; lia). lia.
Qed.

Lemma total_all_zero w (fs : list Future) :
  (forall j f, fs !! j = Some f -> w f = 0) -> total w fs = 0.
Proof.
  induction fs as [|f fs IH]; intros Hall; simpl; [done|].
  rewrite (Hall 0 f eq_refl), IH; [done|]. intros j f' Hj. by apply (Hall (S j)).
Qed.

(** Once the cancel loop is over, the list of futures is empty, or holds
    a completed future, or a worker inside [_read], or only workers that
    wait for a permit. *)
Lemma drain_cases (fs : list Future) :
  no_pending_before (length fs) fs ->
  fs = [] \/
  (exists j f, fs !! j = Some f /\ done f = true) \/
  (exists j f, fs !! j = Some f /\ _state f = RUNNING true) \/
  (exists f0, fs !! 0 = Some f0 /\ forall j f, fs !! j = Some f -> _state f = RUNNING false).
Proof.
  induction fs as [|f fs IH]; intros Hnp; [by left|]. right.
  assert (no_pending_before (length fs) fs) as Hnp'.
  { intros j f' Hj Hf'. apply (Hnp (S j)); [simpl; lia|done]. }
  pose proof (Hnp 0 f ltac:(simpl; lia) eq_refl) as Hf. unfold is_pending in Hf.
  destruct (_state f) as [|[]| |x] eqn:Hst; try done.
  - right. left. by exists 0, f.
  - destruct (IH Hnp') as [-> | [(j & f' & Hj & Hd) | [(j & f' & Hj & Hr) | (f0 & _ & Hall)]]].
    + right. right. exists f. split; [done|]. intros [|j] f' Hj; by simplify_eq/=.
    + left. by exists (S j), f'.
    + right. left. by exists (S j), f'.
    + right. right. exists f. split; [done|].
      intros [|j] f' Hj; simplify_eq/=; [done|]. by apply (Hall j).
  - left. exists 0, f. split; [done|]. unfold done. by rewrite Hst.
  - left. exists 0, f. split; [done|]. unfold done. by rewrite Hst.
Qed.

Lemma read_get_completed_done N r j f :
  read_side_ok N r -> _read_futures r !! j = Some f -> done f = true ->
  exists x r1, read_get_completed r j = Some (Returned x, r1).
Proof.
  intros Hok Hf Hd.
  destruct (read_get_completed r j) as [[o r1]|] eqn:Hget.
  - destruct (read_get_completed_Some _ _ _ _ _ Hok Hget) as (_ & x & _ & _ & -> & _). eauto.
  - exfalso. unfold read_get_completed, future_results_as_completed in Hget.
    rewrite Hf in Hget. unfold done in Hd. unfold future_result, cancelled in Hget.
    destruct (_state f); try done.
    by destruct (release (_read_semaphore r)).
Qed.

(** While [close] runs, some thread can always take a step. *)
Lemma close_progress N s :
  inv N s -> pc s <> Idle ->
  exists ev l s1, is_call ev = false /\ step ev s = Some (l, s1).
Proof.
  intros Hinv Hpc.
  destruct (inv_opened_when_closing N s Hinv Hpc) as [r Hr].
  destruct s as [self c]. unfold inv in Hinv. simpl in *. rewrite Hr in Hinv.
  destruct Hinv as [HN [Hok Hph]].
  destruct c as [|i|]; [done| |]; simpl in Hph.
  - exists close_cancel. unfold step, close. simpl. rewrite Hr.
    destruct Hph as [Hi _]. rewrite decide_True by done. eauto.
  - destruct (drain_cases _ Hph)
      as [Hfs | [(j & f & Hf & Hd) | [(j & f & Hf & Hst) | (f0 & Hf0 & Hall)]]].
    + exists close_shutdown. unfold step, close. simpl. rewrite Hr, Hfs. eauto.
    + exists (close_get j). unfold step, close. simpl. rewrite Hr.
      destruct (read_get_completed_done _ _ _ _ Hok Hf Hd) as (x & r1 & ->). eauto.
    + exists (worker_finish j). unfold step, close. simpl. rewrite Hr.
      unfold worker_finishes. rewrite Hf, Hst. simpl. eauto.
    + exists (worker_acquire 0). unfold step, close. simpl. rewrite Hr.
      unfold worker_acquires, acquire. rewrite Hf0, (Hall 0 f0 Hf0).
      destruct Hok as (HNpos & _ & _ & _ & Hsum).
      rewrite total_all_zero in Hsum.
      2:{ intros j f Hf. unfold indicator, holds_permit. by rewrite (Hall j f Hf). }
      unfold READ_QUEUE_LENGTH in Hsum.
      destruct (0 <? _value (_read_semaphore r))%Z eqn:Hpos; [|lia]. simpl. eauto.
Qed.

(** Under every schedule [close] comes to its end. *)
Lemma close_completes N : forall n s,
  measure s <= n -> inv N s -> pc s <> Idle ->
  exists evs ls s',
    Forall (fun ev => is_call ev = false) evs /\
    run evs s = Some (ls, s') /\ pc s' = Idle.
Proof.
  induction n as [|n IH]; intros s Hm Hinv Hpc.
  { exfalso. unfold measure in Hm. destruct (pc s); simpl in Hm; [done|lia|lia]. }
  destruct (close_progress N s Hinv Hpc) as (ev & l & s1 & Hcall & Hstep).
  pose proof (step_measure _ _ _ _ _ Hinv Hcall Hstep) as Hlt.
  assert (pc s1 = Idle \/ pc s1 <> Idle) as [Hidle|Hbusy]
    by (destruct (pc s1); auto).
  - exists [ev], [l], s1. simpl. rewrite Hstep. by repeat split; [constructor|..].
  - destruct (IH s1 ltac:(lia) (inv_step _ _ _ _ _ Hinv Hstep) Hbusy)
      as (evs & ls & s' & Hcalls & Hrun & Hidle).
    exists (ev :: evs), (l :: ls), s'. simpl. rewrite Hstep, Hrun.
    by repeat split; [constructor|..].
Qed.

(** *** Synchronous reads *)

(** C8.  [read(block, sync=True)] returns the payload that [_read] gives
    for the block, in the calling thread: the engine is left exactly as it
    was, so no permit is taken and no future is queued.  It does not even
    need an opened engine. *)
Theorem read_sync_bypasses_queue (self : IOBase) (b b' : Block) (data : bytes) :
  _read b = Returned (b', data) ->
  read self b true = (Returned (Some data), self) /\
  step (call_read b true) {| io := self; pc := Idle |}
    = Some (returns (Some data), {| io := self; pc := Idle |}).
Proof.
  intros Hread. unfold step, close, read. simpl. rewrite Hread.
  split; [done|]. by destruct (opened self).
Qed.

(** *** The semaphore bounds the reads that were started, not the reads
    that were submitted *)

(** C1, as amended.  [open_r] creates the semaphore with
    [simultaneousReads + 5] permits, and from then on the reads that went
    through [acquire()] and were not drained yet, together with the free
    permits, are exactly that many; at most [N + 5] reads hold a permit at
    any time. *)
Theorem permits_bound_started_reads
    (self self' : IOBase) (r0 : ReadSide) (evs : list Event) (ls : list Label)
    (s : System) (r : ReadSide) :
  open_r self = Returned self' ->
  opened self' = Some r0 ->
  run evs {| io := self'; pc := Idle |} = Some (ls, s) ->
  opened (io s) = Some r ->
  READ_QUEUE_LENGTH = 5%Z /\
  _read_semaphore r0 =
    {| _value := _simultaneous_reads self + READ_QUEUE_LENGTH;
       _initial_value := _simultaneous_reads self + READ_QUEUE_LENGTH |} /\
  _initial_value (_read_semaphore r) = (_simultaneous_reads self + READ_QUEUE_LENGTH)%Z /\
  (Z.of_nat (permits_held s) + _value (_read_semaphore r)
   = _simultaneous_reads self + READ_QUEUE_LENGTH)%Z /\
  (Z.of_nat (permits_held s) <= _simultaneous_reads self + READ_QUEUE_LENGTH)%Z.
Proof.
  intros Hopen Hr0 Hrun Hr.
  apply open_r_Returned in Hopen as [Hpos ->]. simpl in Hr0. simplify_eq.
  assert (inv (_simultaneous_reads self) s) as Hinv.
  { eapply inv_run; [|exact Hrun]. split; simpl; [done|]. split; [|done].
    unfold read_side_ok, READ_QUEUE_LENGTH. simpl. lia. }
  destruct Hinv as [_ Hinv]. rewrite Hr in Hinv.
  destruct Hinv as [(_ & _ & Hi & Hv & Hsum) _].
  unfold permits_held, futures_of. rewrite Hr.
  repeat split; auto. lia.
Qed.

(** *** Submitting never blocks *)

(** C2, as amended.  [read(block)] on an opened engine only queues the
    job and returns; the semaphore is not touched by the caller.  The
    permit is taken by the worker that starts the job, and it is this
    worker that waits while no permit is free. *)
Theorem submit_returns_at_once (s : System) (r : ReadSide) (b : Block) :
  pc s = Idle ->
  opened (io s) = Some r ->
  _shutdown (_read_executor r) = false ->
  step (call_read b false) s
    = Some (returns None,
            {| io := with_read_side (io s)
                       (with_futures r (_read_futures r ++ [{| block := b; _state := PENDING |}]));
               pc := Idle |}) /\
  (forall i, (_value (_read_semaphore r) <= 0)%Z -> step (worker_acquire i) s = None) /\
  (forall i l s' r', step (worker_acquire i) s = Some (l, s') ->
     opened (io s') = Some r' ->
     _value (_read_semaphore r') = (_value (_read_semaphore r) - 1)%Z).
Proof.
  intros Hpc Hr Hs. destruct s as [self c]. simpl in *. subst c.
  unfold step, close. simpl. rewrite Hr. repeat split.
  - unfold read, submit. simpl. by rewrite Hs.
  - intros i Hv. unfold worker_acquires, acquire.
    destruct (_read_futures r !! i) as [f|]; [|done].
    destruct (_state f) as [|[]| |]; try done.
    by destruct (0 <? _value (_read_semaphore r))%Z eqn:Hlt; [lia|].
  - intros i l s' r' Hstep Hr'.
    destruct (worker_acquires r i) as [r1|] eqn:Hw; simplify_eq/=.
    by apply worker_acquires_Some in Hw as (f & _ & _ & _ & ->).
Qed.

(** *** Permits come back through the drain only *)

(** C3.  In an engine reached from a fresh instance, a step that makes a
    permit free is one item of [read_get_completed] (taken by the caller,
    or by [close]) that hands out the result of a future holding a permit;
    every such item frees exactly the permit of its future.  The step in
    which a worker finishes [_read] leaves the semaphore as it is: the
    finished future keeps its permit until its result is taken. *)
Theorem permit_released_on_retrieval
    (N : Z) (evs : list Event) (ls : list Label) (s : System)
    (ev : Event) (l : Label) (s' : System) (r r' : ReadSide) :
  run evs (boot N) = Some (ls, s) ->
  step ev s = Some (l, s') ->
  opened (io s) = Some r ->
  opened (io s') = Some r' ->
  ((_value (_read_semaphore r) < _value (_read_semaphore r'))%Z ->
     exists i f x, (ev = call_read_get_completed i \/ ev = close_get i) /\
       _read_futures r !! i = Some f /\ holds_permit f = true /\
       future_result f = Some x) /\
  (forall i f, ev = call_read_get_completed i \/ ev = close_get i ->
     _read_futures r !! i = Some f ->
     _value (_read_semaphore r')
       = (_value (_read_semaphore r) + (if holds_permit f then 1 else 0))%Z) /\
  (forall i, ev = worker_finish i ->
     _read_semaphore r' = _read_semaphore r /\
     exists f', _read_futures r' !! i = Some f' /\
       done f' = true /\ holds_permit f' = true).
Proof.
  intros Hrun Hstep Hr Hr'.
  assert (inv N s) as Hinv by (eapply inv_run; [apply inv_boot|exact Hrun]).
  destruct (step_semaphore _ _ _ _ _ _ Hinv Hstep Hr) as (r1 & Hr1 & Hinit & Heff).
  rewrite Hr' in Hr1. simplify_eq.
  assert (forall f, Z.of_nat (indicator holds_permit f)
                    = (if holds_permit f then 1 else 0)%Z) as Hind.
  { intros f. unfold indicator. by destruct (holds_permit f). }
  split; [|split].
  - intros Hlt. destruct ev; simpl in Heff;
      try (rewrite Heff in Hlt; lia); try lia.
    + destruct Heff as (f & x & Hf & Hx & Hv). exists i, f, x.
      rewrite Hv, Hind in Hlt. destruct (holds_permit f); [eauto|lia].
    + destruct Heff as (f & x & Hf & Hx & Hv). exists i, f, x.
      rewrite Hv, Hind in Hlt. destruct (holds_permit f); [eauto|lia].
    + destruct Heff as [Heff _]. rewrite Heff in Hlt. lia.
  - intros i f [-> | ->] Hf; simpl in Heff;
      destruct Heff as (f0 & x & Hf0 & _ & Hv); simplify_eq; by rewrite Hv, Hind.
  - intros i ->. destruct Heff as (Hsem & f & x & Hf & Hst & Hf').
    split; [done|]. exists (set_state (FINISHED x) f). by repeat split.
Qed.

(** *** Closing an engine with outstanding reads *)

Lemma run_cons ev evs s :
  run (ev :: evs) s =
  match step ev s with
  | None => None
  | Some (l, s1) =>
    match run evs s1 with
    | None => None
    | Some (ls, s2) => Some (l :: ls, s2)
    end
  end.
Proof. reflexivity. Qed.

Lemma step_call_close s r :
  pc s = Idle -> opened (io s) = Some r -> _read_futures r <> [] ->
  step call_close s = Some (silent, {| io := io s; pc := Cancelling 0 |}).
Proof.
  intros Hpc Hr Hfs. destruct s as [self c]. simpl in *. subst c.
  unfold step, close. simpl. rewrite Hr. by destruct (_read_futures r).
Qed.

Lemma inv_cancelling N s r :
  inv N s -> opened (io s) = Some r -> _read_futures r <> [] ->
  inv N {| io := io s; pc := Cancelling 0 |}.
Proof.
  intros [HN Hinv] Hr Hfs. rewrite Hr in Hinv. destruct Hinv as [Hok _].
  split; simpl; [done|]. rewrite Hr. split; [done|]. split.
  - destruct (_read_futures r); [done|simpl; lia].
  - intros j f Hj. lia.
Qed.

(** C4.  Take an engine reached from a fresh instance, with reads
    outstanding, and any complete run of [close] on it, the workers going
    on as they like.  The caller first calls [cancel()] once for every
    outstanding future, then takes as many results from
    [read_get_completed] as there were futures, and only then shuts the
    pool down.  At the end nothing is outstanding and the semaphore has all
    its [N + 5] permits.  Such a run exists, and no run of [close] takes
    more than [5 * outstanding + 1] steps.  A fresh engine opened
    afterwards starts with [N + 5] free permits. *)
Theorem close_cancels_drains_then_shuts_down
    (N : Z) (evs0 : list Event) (ls0 : list Label) (s : System) (r : ReadSide) :
  run evs0 (boot N) = Some (ls0, s) ->
  pc s = Idle ->
  opened (io s) = Some r ->
  _read_futures r <> [] ->
  (forall evs ls s',
     Forall (fun ev => is_call ev = false) evs ->
     run (call_close :: evs) s = Some (ls, s') ->
     pc s' = Idle ->
     (exists js,
        caller_part evs
          = replicate (outstanding s) close_cancel ++ map close_get js ++ [close_shutdown] /\
        length js = outstanding s) /\
     closed_cleanly N s' /\
     length evs <= 5 * outstanding s + 1) /\
  (exists evs ls s',
     Forall (fun ev => is_call ev = false) evs /\
     run (call_close :: evs) s = Some (ls, s') /\ pc s' = Idle) /\
  (exists self r0,
     open_r (IOBase_init N) = Returned self /\ opened self = Some r0 /\
     _read_futures r0 = [] /\
     _value (_read_semaphore r0) = (N + READ_QUEUE_LENGTH)%Z).
Proof.
  intros Hrun0 Hpc Hr Hfs.
  assert (inv N s) as Hinv by (eapply inv_run; [apply inv_boot|exact Hrun0]).
  pose proof (step_call_close s r Hpc Hr Hfs) as Hclose.
  pose proof (inv_cancelling N s r Hinv Hr Hfs) as Hinv1.
  set (s1 := {| io := io s; pc := Cancelling 0 |}) in *.
  assert (outstanding s1 = outstanding s) as Hout by done.
  split; [|split].
  - intros evs ls s' Hcalls Hrun Hidle. rewrite run_cons, Hclose in Hrun.
    destruct (run evs s1) as [[ls1 s2]|] eqn:Hrest; [|done]. simplify_eq.
    destruct (cancel_runs N evs s1 0 ls1 s' Hinv1 eq_refl Hcalls Hrest Hidle)
      as (js & k & Hcp & Hjs & _ & Hclean).
    rewrite Hout, Nat.sub_0_r in Hcp. rewrite Hout in Hjs.
    split; [eauto|]. split; [done|].
    pose proof (run_length_bound N evs s1 ls1 s' Hinv1 Hcalls Hrest) as Hb.
    unfold measure in Hb. rewrite Hout in Hb.
    pose proof (total_weight_bound (futures_of s1)) as Hw.
    change (length (futures_of s1)) with (outstanding s) in Hw.
    change (pc_weight (pc s1) (outstanding s)) with (1 + (outstanding s - 0)) in Hb. lia.
  - destruct (close_completes N (measure s1) s1 (le_n _) Hinv1 ltac:(done))
      as (evs & ls & s' & Hcalls & Hrun & Hidle).
    exists evs, (silent :: ls), s'. by rewrite run_cons, Hclose, Hrun.
  - destruct Hinv as [_ Hinv]. rewrite Hr in Hinv. destruct Hinv as [(HN & _) _].
    unfold open_r, ThreadPoolExecutor_init, BoundedSemaphore_init, READ_QUEUE_LENGTH. simpl.
    destruct (N <=? 0)%Z eqn:H1; [lia|]. destruct (N + 5 <? 0)%Z eqn:H2; [lia|].
    eexists _, _. by repeat split.
Qed.

(** C5.  A future that [close] cancels has [CancelledError] as its
    outcome, and [close] takes that outcome from the drain like every
    other.  In a complete run of [close] the caller sees silent steps and
    at the end the normal return of [close]: nothing is raised and no
    result is handed to it. *)
Theorem close_swallows_cancellations
    (N : Z) (evs0 : list Event) (ls0 : list Label) (s : System) (r : ReadSide)
    (evs : list Event) (ls : list Label) (s' : System) :
  run evs0 (boot N) = Some (ls0, s) ->
  pc s = Idle ->
  opened (io s) = Some r ->
  _read_futures r <> [] ->
  Forall (fun ev => is_call ev = false) evs ->
  run (call_close :: evs) s = Some (ls, s') ->
  pc s' = Idle ->
  (forall f, f ∈ _read_futures r -> is_pending f = true ->
     _state (cancel f) = CANCELLED /\
     future_result (cancel f) = Some (Raised CancelledError)) /\
  (exists k, ls = replicate k silent ++ [returns None]) /\
  (forall e, raises e ∉ ls) /\
  (forall x, yields x ∉ ls).
Proof.
  intros Hrun0 Hpc Hr Hfs Hcalls Hrun Hidle.
  assert (inv N s) as Hinv by (eapply inv_run; [apply inv_boot|exact Hrun0]).
  pose proof (step_call_close s r Hpc Hr Hfs) as Hclose.
  pose proof (inv_cancelling N s r Hinv Hr Hfs) as Hinv1.
  rewrite run_cons, Hclose in Hrun.
  destruct (run evs _) as [[ls1 s2]|] eqn:Hrest; [|done]. simplify_eq.
  destruct (cancel_runs N evs _ 0 ls1 s' Hinv1 eq_refl Hcalls Hrest Hidle)
    as (js & k & _ & _ & -> & _).
  split; [|split; [|split]].
  - intros f _ Hp. unfold is_pending in Hp. unfold cancel, future_result.
    by destruct (_state f).
  - by exists (S k).
  - intros e [He|He]%elem_of_cons; [done|].
    apply elem_of_app in He as [[He _]%elem_of_replicate|He%list_elem_of_singleton]; done.
  - intros x [He|He]%elem_of_cons; [done|].
    apply elem_of_app in He as [[He _]%elem_of_replicate|He%list_elem_of_singleton]; done.
Qed.

End IOBase.

(** *** A backend to run the engine on *)

(** Blocks are numbers; every read succeeds with a one-byte payload. *)
Definition memory_backend : IOBackend nat :=
  {| _read := fun b => Returned (b, [Byte.x2a]) |}.

Definition run_on_memory := run (H := memory_backend).
Definition step_on_memory := step (H := memory_backend).

(** An engine for one simultaneous read, opened, with two reads queued. *)
Definition two_queued : list (Event (Block := nat)) :=
  [call_open_r; call_read 0 false; call_read 1 false].

(** An engine for one simultaneous read on which eight reads were
    submitted and none drained; the worker finished six of them and
    started the seventh. *)
Definition saturating : list (Event (Block := nat)) :=
  call_open_r :: replicate 8 (call_read 0 false)
  ++ mjoin ((fun k => [worker_start; worker_acquire k; worker_finish k]) <$> seq 0 6)
  ++ [worker_start].

Definition state_after (evs : list (Event (Block := nat))) : System :=
  match run_on_memory evs (boot 1) with
  | Some (_, s) => s
  | None => boot 1
  end.

Lemma read_sync_bypasses_queue_witness :
  read (H := memory_backend) (IOBase_init 1) 3 true
    = (Returned (Some [Byte.x2a]), IOBase_init 1) /\
  step_on_memory (call_read 3 true) (boot 1)
    = Some (returns (Some [Byte.x2a]), boot 1).
Proof.
  apply (read_sync_bypasses_queue (H := memory_backend) (IOBase_init 1) 3 3 [Byte.x2a]).
  reflexivity.
Defined.

(** C1 as the spec states it fails: with one simultaneous read, seven reads
    can be submitted and none drained, more than the [1 + 5] permits; none
    of them holds a permit yet. *)
Lemma submitted_reads_exceed_permits :
  exists ls s,
    run_on_memory (call_open_r :: replicate 7 (call_read 0 false)) (boot 1) = Some (ls, s) /\
    outstanding s = 7 /\
    (1 + READ_QUEUE_LENGTH < Z.of_nat (outstanding s))%Z /\
    permits_held s = 0.
Proof. eexists _, _. split; [vm_compute; reflexivity|]. by vm_compute. Qed.

Lemma permits_bound_started_reads_witness :
  exists r,
    opened (io (state_after saturating)) = Some r /\
    _initial_value (_read_semaphore r) = 6%Z /\
    (Z.of_nat (permits_held (state_after saturating)) + _value (_read_semaphore r) = 6)%Z.
Proof.
  eexists. split; [vm_compute; reflexivity|].
  pose proof (permits_bound_started_reads (H := memory_backend)
                (IOBase_init 1) _ _ (tail saturating) _ _ _
                ltac:(vm_compute; reflexivity) ltac:(vm_compute; reflexivity)
                ltac:(vm_compute; reflexivity) ltac:(vm_compute; reflexivity))
    as (_ & _ & Hi & Hsum & _).
  split; [exact Hi|exact Hsum].
Defined.

(** C2 as the spec states it fails: eight reads were submitted and none
    drained, all six permits are taken and the worker waits for one, and
    still the ninth [read] returns at once. *)
Lemma submit_does_not_block :
  let s := state_after saturating in
  exists r s',
    opened (io s) = Some r /\
    (1 + READ_QUEUE_LENGTH < Z.of_nat (outstanding s))%Z /\
    _value (_read_semaphore r) = 0%Z /\
    step_on_memory (worker_acquire 6) s = None /\
    step_on_memory (call_read 0 false) s = Some (returns None, s') /\
    outstanding s' = 9.
Proof. eexists _, _. split; [vm_compute; reflexivity|]. by vm_compute. Qed.

Lemma submit_returns_at_once_witness :
  exists s',
    step_on_memory (call_read 7 false) (state_after saturating) = Some (returns None, s') /\
    step_on_memory (worker_acquire 6) (state_after saturating) = None.
Proof.
  eexists.
  pose proof (submit_returns_at_once (H := memory_backend) (state_after saturating) _ 7
                ltac:(vm_compute; reflexivity) ltac:(vm_compute; reflexivity)
                ltac:(vm_compute; reflexivity)) as (Hs & Hw & _).
  split; [exact Hs|]. apply Hw. by vm_compute.
Defined.

(** One of the two queued reads has gone through the worker. *)
Definition one_finished : list (Event (Block := nat)) :=
  two_queued ++ [worker_start; worker_acquire 0; worker_finish 0].

(** A run of [close] during which the worker picks up the first read
    before it can be cancelled. *)
Definition closing : list (Event (Block := nat)) :=
  [worker_start; close_cancel; close_cancel; close_get 1;
   worker_acquire 0; worker_finish 0; close_get 0; close_shutdown].

Lemma permit_released_on_retrieval_witness :
  exists l s' r r',
    step_on_memory (call_read_get_completed 0) (state_after one_finished) = Some (l, s') /\
    opened (io (state_after one_finished)) = Some r /\
    opened (io s') = Some r' /\
    _value (_read_semaphore r) = 5%Z /\
    _value (_read_semaphore r') = (5 + 1)%Z.
Proof.
  eexists _, _, _, _.
  split; [vm_compute; reflexivity|]. split; [vm_compute; reflexivity|].
  split; [vm_compute; reflexivity|]. split; [reflexivity|].
  pose proof (permit_released_on_retrieval (H := memory_backend)
                1 one_finished _ _ (call_read_get_completed 0) _ _ _ _
                ltac:(vm_compute; reflexivity) ltac:(vm_compute; reflexivity)
                ltac:(vm_compute; reflexivity) ltac:(vm_compute; reflexivity))
    as (_ & Hrel & _).
  exact (Hrel 0 _ (or_introl eq_refl) eq_refl).
Defined.

Lemma close_cancels_drains_then_shuts_down_witness :
  closed_cleanly 1 (state_after (two_queued ++ call_close :: closing)).
Proof.
  pose proof (close_cancels_drains_then_shuts_down (H := memory_backend)
                1 two_queued _ _ _
                ltac:(vm_compute; reflexivity) ltac:(vm_compute; reflexivity)
                ltac:(vm_compute; reflexivity) ltac:(vm_compute; discriminate))
    as (Hall & _).
  refine (proj1 (proj2 (Hall closing _ _ _ ltac:(vm_compute; reflexivity) eq_refl))).
  repeat constructor.
Defined.

Lemma close_swallows_cancellations_witness :
  exists ls s',
    run_on_memory (call_close :: closing) (state_after two_queued) = Some (ls, s') /\
    (forall e, raises e ∉ ls) /\
    (forall x, yields x ∉ ls).
Proof.
  eexists _, _. split; [vm_compute; reflexivity|].
  refine (proj2 (proj2 (close_swallows_cancellations (H := memory_backend)
                1 two_queued _ _ _ closing _ _
                ltac:(vm_compute; reflexivity) ltac:(vm_compute; reflexivity)
                ltac:(vm_compute; reflexivity) ltac:(vm_compute; discriminate)
                _ ltac:(vm_compute; reflexivity) eq_refl))).
  repeat constructor.
Defined.

(** *** Workers, and the engine before [open_r] and after [close] *)

Section Lifecycle.
Context {Block : Type} `{IOBackend Block}.

(** The reads a worker of the pool is busy with. *)
Definition running (fs : list (@Future Block)) : nat := total (indicator is_running) fs.

Definition workers_ok (N : Z) (s : @System Block) : Prop :=
  (Z.of_nat (running (futures_of s)) <= Z.max 0 N)%Z.

Lemma running_done (f : @Future Block) x :
  future_result f = Some x -> indicator is_running f = 0.
Proof. unfold future_result, indicator, is_running. by destruct (_state f). Qed.

Lemma running_cancel (f : @Future Block) :
  indicator is_running (cancel f) = indicator is_running f.
Proof. by destruct f as [b [|[]| |]]. Qed.

Lemma start_worker_free (r r' : @ReadSide Block) :
  start_worker r = Some r' ->
  (Z.of_nat (running (_read_futures r)) < _max_workers (_read_executor r))%Z.
Proof. unfold start_worker, running. case_match; [lia|done]. Qed.

Lemma workers_ok_step N ev s l s' :
  inv N s -> step ev s = Some (l, s') -> workers_ok N s -> workers_ok N s'.
Proof.
  intros Hinv Hstep Hok. destruct s as [self c].
  unfold step, close in Hstep. unfold inv in Hinv.
  unfold workers_ok, futures_of, running in *. simpl in *.
  destruct (opened self) as [r|] eqn:Hr.
  - destruct Hinv as [HN [Hrs Hph]].
    destruct ev; simpl in *.
    + by destruct c.
    + destruct c; try done.
      destruct (read self b sync) as [o self1] eqn:Hread.
      assert (exists r', opened self1 = Some r' /\
                total (indicator is_running) (_read_futures r')
                = total (indicator is_running) (_read_futures r)) as (r' & Hr' & Hsame).
      { destruct sync.
        - apply read_sync_state in Hread as ->. eauto.
        - apply read_async_Returned in Hread as [[-> _]|(r0 & Hr0 & _ & _ & ->)]; [eauto|].
          rewrite Hr in Hr0. simplify_eq. eexists. split; [done|].
          unfold with_futures. cbn [_read_futures]. rewrite total_app.
          change (total (indicator is_running) [{| block := b; _state := PENDING |}]) with 0.
          lia. }
      destruct o; simplify_eq; simpl; rewrite Hr'; lia.
    + destruct c; try done.
      destruct (read_get_completed r i) as [[o r1]|] eqn:Hget; [|done].
      pose proof (read_get_completed_Some _ _ _ _ _ Hrs Hget)
        as (f & x & Hf & Hx & -> & He & Hfs & Hsem).
      pose proof (total_delete (indicator is_running) _ _ _ Hf) as Hd.
      simplify_eq. simpl. rewrite Hfs. lia.
    + destruct c; try done.
      destruct (_read_futures r) eqn:Hfs; simplify_eq; simpl; rewrite ?Hr, ?Hfs; done.
    + destruct c as [|i|]; try done. case_decide as Hi; [|done].
      simplify_eq. simpl.
      destruct (lookup_lt_is_Some_2 _ _ Hi) as [f Hf].
      pose proof (total_alter (indicator is_running) cancel _ _ _ Hf) as Ht.
      rewrite running_cancel in Ht. lia.
    + destruct c; try done.
      destruct (read_get_completed r i) as [[o r1]|] eqn:Hget; [|done].
      pose proof (read_get_completed_Some _ _ _ _ _ Hrs Hget)
        as (f & x & Hf & Hx & -> & He & Hfs & Hsem).
      pose proof (total_delete (indicator is_running) _ _ _ Hf) as Hd.
      simplify_eq. simpl. rewrite Hfs. lia.
    + destruct c; try done.
      destruct (_read_futures r) eqn:Hfs; simplify_eq. simpl. by rewrite Hfs.
    + assert (exists r', start_worker r = Some r' /\
                s' = {| io := with_read_side self r'; pc := c |}) as (r' & Hw & ->).
      { destruct c; simpl in Hstep; destruct (start_worker r); simplify_eq/=; eauto. }
      pose proof (start_worker_free _ _ Hw) as Hfree. unfold running in Hfree.
      apply start_worker_Some in Hw as (i & f & Hf & Hst & ->).
      pose proof (total_alter (indicator is_running) (set_state (RUNNING false)) _ _ _ Hf) as Ht.
      assert (indicator is_running f = 0) as Hw0
        by (unfold indicator, is_running; by rewrite Hst).
      change (indicator is_running (set_state (RUNNING false) f)) with 1 in Ht.
      destruct Hrs as (? & Hmax & _). simpl. lia.
    + assert (exists r', worker_acquires r i = Some r' /\
                s' = {| io := with_read_side self r'; pc := c |}) as (r' & Hw & ->).
      { destruct c; simpl in Hstep; destruct (worker_acquires r i); simplify_eq/=; eauto. }
      apply worker_acquires_Some in Hw as (f & Hf & Hst & Hpos & ->).
      pose proof (total_alter (indicator is_running) (set_state (RUNNING true)) _ _ _ Hf) as Ht.
      assert (indicator is_running f = 1) as Hw0
        by (unfold indicator, is_running; by rewrite Hst).
      change (indicator is_running (set_state (RUNNING true) f)) with 1 in Ht.
      simpl. lia.
    + assert (exists r', worker_finishes r i = Some r' /\
                s' = {| io := with_read_side self r'; pc := c |}) as (r' & Hw & ->).
      { destruct c; simpl in Hstep; destruct (worker_finishes r i); simplify_eq/=; eauto. }
      apply worker_finishes_Some in Hw as (f & Hf & Hst & ->).
      pose proof (total_alter (indicator is_running)
                    (set_state (FINISHED (_read (block f)))) _ _ _ Hf) as Ht.
      change (indicator is_running (set_state (FINISHED (_read (block f))) f)) with 0 in Ht.
      simpl. lia.
  - destruct Hinv as [HN ->].
    destruct ev; simpl in *; try done.
    + destruct (open_r self) as [self1|e] eqn:Hopen; simplify_eq; simpl.
      * apply open_r_Returned in Hopen as [Hpos ->]. simpl. lia.
      * rewrite Hr. simpl. lia.
    + destruct (read self b sync) as [o self1] eqn:Hread.
      assert (self1 = self) as ->.
      { destruct sync.
        - by apply read_sync_state in Hread.
        - apply read_async_Returned in Hread as [[-> _]|(r0 & Hr0 & _)]; [done|].
          by rewrite Hr in Hr0. }
      destruct o; simplify_eq; simpl; rewrite Hr; simpl; lia.
    + simplify_eq. simpl. rewrite Hr. simpl. lia.
Qed.

Lemma workers_ok_run N evs : forall s ls s',
  inv N s -> workers_ok N s -> run evs s = Some (ls, s') -> workers_ok N s'.
Proof.
  induction evs as [|ev evs IH]; intros s ls s' Hinv Hok Hrun; simpl in Hrun.
  - by simplify_eq.
  - destruct (step ev s) as [[l s1]|] eqn:Hstep; [|done].
    destruct (run evs s1) as [[ls1 s2]|] eqn:Hrest; [|done].
    simplify_eq. eapply IH; [| |done].
    + by eapply inv_step.
    + by eapply workers_ok_step.
Qed.

(** However the caller and the workers interleave, the pool never has
    more than [simultaneousReads] reads running: the five permits on top
    are for reads that finished and wait to be taken. *)
Theorem workers_bound_running_reads
    (N : Z) (evs : list Event) (ls : list Label) (s : System) (r : ReadSide) :
  run evs (boot N) = Some (ls, s) ->
  opened (io s) = Some r ->
  (Z.of_nat (running (_read_futures r)) <= N)%Z.
Proof.
  intros Hrun Hr.
  assert (inv N s) as Hinv by (eapply inv_run; [apply inv_boot|exact Hrun]).
  assert (workers_ok N s) as Hok.
  { eapply workers_ok_run; [apply inv_boot| |exact Hrun].
    unfold workers_ok, futures_of, running. simpl. lia. }
  unfold workers_ok, futures_of in Hok. rewrite Hr in Hok.
  destruct Hinv as [_ Hinv]. rewrite Hr in Hinv. destruct Hinv as [(HN & _) _]. lia.
Qed.

(** With [simultaneousReads] below one, [open_r] fails with the
    [ValueError] of the thread pool, also where the semaphore would have
    accepted its [simultaneousReads + 5]; the engine stays unopened, so a
    queued read fails for want of [_read_futures] and [close] does
    nothing. *)
Theorem open_r_needs_a_worker (N : Z) (b : Block) :
  (N <= 0)%Z ->
  step call_open_r (boot N)
    = Some (raises (ValueError "max_workers must be greater than 0"), boot N) /\
  step (call_read b false) (boot N)
    = Some (raises (AttributeError "'IOBase' object has no attribute '_read_futures'"),
            boot N) /\
  step call_close (boot N) = Some (returns None, boot N).
Proof.
  intros HN. unfold step, close, boot, open_r, ThreadPoolExecutor_init. simpl.
  destruct (N <=? 0)%Z eqn:Hle; [done|lia].
Qed.

(** Once [close] has run, the pool is shut down for good: a queued read
    raises the [RuntimeError] of [submit] and queues nothing, the workers
    have nothing to do, and closing again changes nothing. *)
Theorem closed_engine_refuses_reads (N : Z) (s : System) (b : Block) :
  closed_cleanly N s ->
  step (call_read b false) s
    = Some (raises (RuntimeError "cannot schedule new futures after shutdown"), s) /\
  step call_close s = Some (returns None, s) /\
  (forall ev, is_worker ev = true -> step ev s = None).
Proof.
  intros (Hpc & r & Hr & Hfs & Hdown & _).
  destruct s as [[n o] c]. simpl in *. subst c o.
  destruct r as [[w d] fs sem]. simpl in *. subst fs d.
  split_and!.
  - done.
  - done.
  - intros ev Hev. destruct ev; try done.
    unfold step, start_worker. cbn. by case_match.
Qed.

End Lifecycle.

Lemma workers_bound_running_reads_witness :
  exists r,
    opened (io (state_after saturating)) = Some r /\
    (Z.of_nat (running (_read_futures r)) <= 1)%Z.
Proof.
  eexists. split; [vm_compute; reflexivity|].
  apply (workers_bound_running_reads (H := memory_backend) 1 saturating _ _ _
           ltac:(vm_compute; reflexivity) ltac:(vm_compute; reflexivity)).
Defined.

Lemma open_r_needs_a_worker_witness :
  step_on_memory call_open_r (boot 0)
  = Some (raises (ValueError "max_workers must be greater than 0"), boot 0).
Proof.
  apply (open_r_needs_a_worker (H := memory_backend) 0 7). lia.
Defined.

Lemma closed_engine_refuses_reads_witness :
  step_on_memory (call_read 7 false) (state_after (two_queued ++ call_close :: closing))
  = Some (raises (RuntimeError "cannot schedule new futures after shutdown"),
          state_after (two_queued ++ call_close :: closing)).
Proof.
  apply (closed_engine_refuses_reads (H := memory_backend) 1).
  split; [reflexivity|]. eexists. split; [vm_compute; reflexivity|]. by split_and!.
Defined.

End IO.

(** ** The Ceph backup script *)

Module Ceph.

(** Python values as the script meets them: decoded JSON, command
    arguments, the [context] handed through, and what receivers return. *)
#[warnings="-register-all"]
Inductive pyval : Type :=
| PNone
| PBool (b : bool)
| PInt (z : Z)
| PStr (s : string)
| PList (items : list pyval)
| PDict (items : list (string * pyval)).

Coercion PStr : string >-> pyval.

(** [bool(v)]. *)
Definition truthy (v : pyval) : bool :=
  match v with
  | PNone => false
  | PBool b => b
  | PInt z => negb (z =? 0)%Z
  | PStr s => negb (String.eqb s EmptyString)
  | PList items => match items with [] => false | _ => true end
  | PDict items => match items with [] => false | _ => true end
  end.

Fixpoint assoc (k : string) (items : list (string * pyval)) : option pyval :=
  match items with
  | [] => None
  | (k', v) :: rest => if String.eqb k k' then Some v else assoc k rest
  end.

(** [v[k]] for a string key. *)
Definition getitem (v : pyval) (k : string) : outcome pyval :=
  match v with
  | PDict items =>
    match assoc k items with
    | Some x => Returned x
    | None => Raised (KeyError k)
    end
  | PList _ => Raised (TypeError "list indices must be integers or slices, not str")
  | PStr _ => Raised (TypeError "string indices must be integers")
  | _ => Raised (TypeError "object is not subscriptable")
  end.

Definition chars (s : string) : list pyval :=
  (fun c => PStr (String c EmptyString)) <$> String.list_ascii_of_string s.

(** [v[0]]. *)
Definition getfirst (v : pyval) : outcome pyval :=
  match v with
  | PList items =>
    match items with
    | x :: _ => Returned x
    | [] => Raised (Exn "IndexError" "list index out of range")
    end
  | PStr s =>
    match chars s with
    | x :: _ => Returned x
    | [] => Raised (Exn "IndexError" "string index out of range")
    end
  | PDict _ => Raised (KeyError "0")
  | _ => Raised (TypeError "object is not subscriptable")
  end.

(** [len(v)]. *)
Definition py_len (v : pyval) : outcome nat :=
  match v with
  | PList items => Returned (length items)
  | PDict items => Returned (length items)
  | PStr s => Returned (String.length s)
  | _ => Raised (TypeError "object has no len()")
  end.

(** The values a [for] loop over [v] goes through. *)
Definition py_iter (v : pyval) : outcome (list pyval) :=
  match v with
  | PList items => Returned items
  | PDict items => Returned ((fun kv => PStr kv.1) <$> items)
  | PStr s => Returned (chars s)
  | _ => Raised (TypeError "object is not iterable")
  end.

(** [v.startswith(prefix)]. *)
Definition startswith (v : pyval) (prefix : string) : outcome bool :=
  match v with
  | PStr s => Returned (String.prefix prefix s)
  | _ => Raised (AttributeError "object has no attribute 'startswith'")
  end.

(** [functools.reduce(f, l)] with no initial value. *)
Definition reduce {A : Type} (f : A -> A -> A) (l : list A) : outcome A :=
  match l with
  | [] => Raised (TypeError "reduce() of empty sequence with no initial value")
  | x :: rest => Returned (fold_left f rest x)
  end.

(** An exception raised inside [except ... as handled:] carries
    [handled] as its context. *)
Definition during {A : Type} (handled : exn) (o : outcome A) : outcome A :=
  match o with
  | Returned a => Returned a
  | Raised e => Raised (with_context handled e)
  end.

(** [isinstance(e, Exception)], which [except Exception] asks.  Of the
    classes of the interpreter these derive from [BaseException] and not
    from [Exception]; an exception is known here by the name of its
    class. *)
Definition BaseException_only : list string :=
  ["BaseException"; "BaseExceptionGroup"; "GeneratorExit"; "KeyboardInterrupt";
   "SystemExit"].

Definition is_Exception (e : exn) : bool :=
  negb (existsb (String.eqb (exn_kind e)) BaseException_only).

(** A keyword argument of a signal. *)
Inductive kwarg : Type :=
| KStr (s : string)
| KLabels (labels : list (string * string))
| KVal (v : pyval)
| KExn (e : exn).

Definition kwargs : Type := list (string * kwarg).

Definition SIGNAL_SENDER : string := "ceph".
Definition RBD_SNAP_CREATE_TIMEOUT : Z := 30.
Definition RBD_SNAP_NAME_PREFIX : string := "b-".

Definition signal_snapshot_create_pre : string := "snapshot_create_pre".
Definition signal_snapshot_create_post_success : string := "snapshot_create_post_success".
Definition signal_snapshot_create_post_error : string := "snapshot_create_post_error".
Definition signal_backup_pre : string := "backup_pre".
Definition signal_backup_post_success : string := "on_backup_post_success".
Definition signal_backup_post_error : string := "on_backup_post_error".
Definition signal_restore_pre : string := "restore_pre".
Definition signal_restore_post_success : string := "restore_post_success".
Definition signal_restore_post_error : string := "restore_post_error".

Definition dquote : string := String (Ascii.ascii_of_nat 34) EmptyString.

(** How a [try] body ends when it does not raise. *)
Inductive completion (A : Type) : Type :=
| Fallthrough
| Return (v : A).
Arguments Fallthrough {A}.
Arguments Return {A} v.









Section Script.

(** What the script runs in: the cluster, the Benji catalog, the file
    system and the clock. *)
Variable World : Type.

(** [benji.helpers.utils.subprocess_run(args, timeout=, decode_json=)]:
    the output of the command, decoded when asked for, or the exception of
    a failed command. *)
Variable subprocess_run :
  list pyval -> option Z -> bool -> World -> outcome pyval * World.

(** [benji.helpers.settings.benji_log_level]. *)
Variable benji_log_level : string.

(** [datetime.utcnow().strftime(format)]. *)
Variable utcnow_strftime : string -> World -> string.

(** [NamedTemporaryFile(mode='w+', encoding='utf-8')] with the content
    written and flushed: the name of the file.  [remove_file] is what
    leaving the [with] block does. *)
Variable named_temporary_file : pyval -> World -> outcome string * World.
Variable remove_file : string -> World -> World.

(** A receiver connected to a signal: called with the sender and the
    keyword arguments, it returns a value. *)
Definition Receiver : Type := string -> kwargs -> World -> pyval * World.

(** The receivers connected to each signal, in the order of registration. *)
Variable receivers_for : string -> list Receiver.

(** The state threaded through the script; [commands] records what was
    handed to [subprocess_run], oldest first. *)
Record St : Type :=
  { world : World; commands : list (list pyval) }.

Definition M (A : Type) : Type := St -> outcome A * St.

Definition ret {A : Type} (a : A) : M A := fun st => (Returned a, st).

Definition raise {A : Type} (e : exn) : M A := fun st => (Raised e, st).

Definition bind {A B : Type} (m : M A) (k : A -> M B) : M B :=
  fun st =>
    match m st with
    | (Returned a, st') => k a st'
    | (Raised e, st') => (Raised e, st')
    end.

Definition lift {A : Type} (o : outcome A) : M A := fun st => (o, st).

Notation "'let*' x ':=' m 'in' k" := (bind m (fun x => k))
  (at level 10, x name, m at level 100, k at level 200).

(** [try: body / except Exception as e: handler e / else: orelse]; an
    exception that is no [Exception] passes through. *)
Definition try_except_else {A : Type}
    (body : M (completion A)) (handler : exn -> M (completion A))
    (orelse : M (completion A)) : M (completion A) :=
  fun st =>
    match body st with
    | (Raised e, st') => if is_Exception e then handler e st' else (Raised e, st')
    | (Returned Fallthrough, st') => orelse st'
    | (Returned (Return v), st') => (Returned (Return v), st')
    end.

(** The end of a function body: falling off the end returns [None]. *)
Definition function_result (m : M (completion pyval)) : M pyval :=
  let* c := m in
  match c with
  | Return v => ret v
  | Fallthrough => ret PNone
  end.

Definition run_command (args : list pyval) (timeout : option Z) (decode_json : bool)
  : M pyval :=
  fun st =>
    let (o, w) := subprocess_run args timeout decode_json (world st) in
    (o, {| world := w; commands := commands st ++ [args] |}).

Fixpoint send_to (receivers : list Receiver) (sender : string) (kw : kwargs) (w : World)
  : list pyval * World :=
  match receivers with
  | [] => ([], w)
  | receiver :: rest =>
    let (v, w1) := receiver sender kw w in
    let (vs, w2) := send_to rest sender kw w1 in
    (v :: vs, w2)
  end.

(** [signal.send(sender, **kw)], keeping of each pair [(receiver, value)]
    the value. *)
Definition send (signal : string) (sender : string) (kw : kwargs) : M (list pyval) :=
  fun st =>
    let (vs, w) := send_to (receivers_for signal) sender kw (world st) in
    (Returned vs, {| world := w; commands := commands st |}).

(** The handler the three operations share:
    [raise_exception = reduce(or_, map(lambda r: bool(r[1]), signal.send(...)))]
    and then [if raise_exception: raise]. *)
Definition vote_on_error (signal : string) (kw : kwargs) (exception : exn)
  : M (completion pyval) :=
  let* replies := send signal SIGNAL_SENDER (kw ++ [("exception", KExn exception)]) in
  let* raise_exception := lift (during exception (reduce orb (truthy <$> replies))) in
  if raise_exception : bool then raise exception else ret Fallthrough.

Definition image_spec (pool image snapshot : string) : string :=
  pool +:+ "/" +:+ image +:+ "@" +:+ snapshot.

Definition snapshot_create (volume pool image snapshot : string) (context : pyval)
  : M pyval :=
  let kw := [("volume", KStr volume); ("pool", KStr pool); ("image", KStr image);
             ("snapshot", KStr snapshot); ("context", KVal context)] in
  let* _ := send signal_snapshot_create_pre SIGNAL_SENDER kw in
  function_result
    (try_except_else
       (let* _ := run_command ["rbd" : pyval; "snap" : pyval; "create" : pyval;
                               image_spec pool image snapshot : pyval]
                              (Some RBD_SNAP_CREATE_TIMEOUT) false in
        ret Fallthrough)
       (vote_on_error signal_snapshot_create_post_error kw)
       (let* _ := send signal_snapshot_create_post_success SIGNAL_SENDER kw in
        ret Fallthrough)).

Definition benji (log_level : string) : list pyval :=
  ["benji" : pyval; "--machine-output" : pyval; "--log-level" : pyval; log_level : pyval].

Definition uid_args (version_uid : option string) : list pyval :=
  match version_uid with
  | Some uid => ["--uid" : pyval; uid : pyval]
  | None => []
  end.

Fixpoint label_args (version_labels : list (string * string)) : list pyval :=
  match version_labels with
  | [] => []
  | (label_name, label_value) :: rest =>
    ["--label" : pyval; (label_name +:+ "=" +:+ label_value) : pyval] ++ label_args rest
  end.

(** [with NamedTemporaryFile(...) as rbd_hints: write; flush; body]. *)
Definition with_rbd_hints {A : Type} (stdout : pyval) (body : string -> M A) : M A :=
  fun st =>
    match named_temporary_file stdout (world st) with
    | (Raised e, w) => (Raised e, {| world := w; commands := commands st |})
    | (Returned name, w) =>
      let (o, st') := body name {| world := w; commands := commands st |} in
      (o, {| world := remove_file name (world st'); commands := commands st' |})
    end.

Definition new_snapshot_name : M string :=
  fun st =>
    (Returned (utcnow_strftime (RBD_SNAP_NAME_PREFIX +:+ "%Y-%m-%dT%H:%M:%SZ") (world st)), st).

Definition backup_initial
    (volume pool image : string) (version_labels : list (string * string))
    (version_uid : option string) (context : pyval) : M pyval :=
  let* snapshot := new_snapshot_name in
  let* _ := snapshot_create volume pool image snapshot context in
  let* stdout := run_command ["rbd" : pyval; "diff" : pyval; "--whole-object" : pyval;
                              "--format=json" : pyval;
                              image_spec pool image snapshot : pyval] None false in
  with_rbd_hints stdout (fun rbd_hints_name =>
    run_command
      (benji benji_log_level
       ++ ["backup" : pyval; "--snapshot" : pyval; snapshot : pyval;
           "--rbd-hints" : pyval; rbd_hints_name : pyval]
       ++ uid_args version_uid
       ++ label_args version_labels
       ++ [(pool +:+ ":" +:+ image_spec pool image snapshot) : pyval; volume : pyval])
      None true).

Definition backup_differential
    (volume pool image last_snapshot : string) (base_version_uid : pyval)
    (version_labels : list (string * string))
    (version_uid : option string) (context : pyval) : M pyval :=
  let* snapshot := new_snapshot_name in
  let* _ := snapshot_create volume pool image snapshot context in
  let* stdout := run_command ["rbd" : pyval; "diff" : pyval; "--whole-object" : pyval;
                              "--format=json" : pyval; "--from-snap" : pyval;
                              last_snapshot : pyval;
                              image_spec pool image snapshot : pyval] None false in
  let* _ := run_command ["rbd" : pyval; "snap" : pyval; "rm" : pyval;
                         image_spec pool image last_snapshot : pyval] None false in
  with_rbd_hints stdout (fun rbd_hints_name =>
    run_command
      (benji benji_log_level
       ++ ["backup" : pyval; "--snapshot" : pyval; snapshot : pyval;
           "--rbd-hints" : pyval; rbd_hints_name : pyval;
           "--base-version" : pyval; base_version_uid]
       ++ uid_args version_uid
       ++ label_args version_labels
       ++ [(pool +:+ ":" +:+ image_spec pool image snapshot) : pyval; volume : pyval])
      None true).

(** [[snapshot['name'] for snapshot in rbd_snap_ls
      if snapshot['name'].startswith(RBD_SNAP_NAME_PREFIX)]];
    a name that went through [startswith] is a string. *)
Fixpoint benjis_snapshots_of (snapshots : list pyval) : outcome (list string) :=
  match snapshots with
  | [] => Returned []
  | snapshot :: rest =>
    match getitem snapshot "name" with
    | Raised e => Raised e
    | Returned name =>
      match startswith name RBD_SNAP_NAME_PREFIX with
      | Raised e => Raised e
      | Returned keep =>
        match benjis_snapshots_of rest with
        | Raised e => Raised e
        | Returned names =>
          match name, keep with
          | PStr n, true => Returned (n :: names)
          | _, _ => Returned names
          end
        end
      end
    end
  end.

(** [for snapshot in benjis_snapshots[:-1]: subprocess_run(['rbd', 'snap', 'rm', ...])]. *)
Fixpoint remove_snapshots (pool image : string) (snapshots : list string) : M unit :=
  match snapshots with
  | [] => ret tt
  | snapshot :: rest =>
    let* _ := run_command ["rbd" : pyval; "snap" : pyval; "rm" : pyval;
                           image_spec pool image snapshot : pyval] None false in
    remove_snapshots pool image rest
  end.

(** The filter handed to [benji ls]. *)
Definition base_version_filter (volume last_snapshot : string) : string :=
  "volume == " +:+ dquote +:+ volume +:+ dquote
  +:+ " and snapshot == " +:+ dquote +:+ last_snapshot +:+ dquote
  +:+ " and status == " +:+ dquote +:+ "valid" +:+ dquote.

Definition benji_ls (volume last_snapshot : string) : list pyval :=
  benji benji_log_level ++ ["ls" : pyval; base_version_filter volume last_snapshot : pyval].

(** What [backup] does once it knows the newest snapshot of its own. *)
Definition backup_from_snapshot
    (volume pool image : string) (version_labels : list (string * string))
    (version_uid : option string) (context : pyval)
    (last_snapshot : string) : M pyval :=
  let* benji_ls_result := run_command (benji_ls volume last_snapshot) None true in
  let* versions := lift (getitem benji_ls_result "versions") in
  let* n := lift (py_len versions) in
  if (0 <? n)%nat then
    let* versions' := lift (getitem benji_ls_result "versions") in
    let* first := lift (getfirst versions') in
    let* base_version_uid := lift (getitem first "uid") in
    backup_differential volume pool image last_snapshot base_version_uid
                        version_labels version_uid context
  else
    let* _ := run_command ["rbd" : pyval; "snap" : pyval; "rm" : pyval;
                           image_spec pool image last_snapshot : pyval] None false in
    backup_initial volume pool image version_labels version_uid context.

(** The body of the [try] of [backup]; it ends in [return result]. *)
Definition backup_try
    (volume pool image : string) (version_labels : list (string * string))
    (version_uid : option string) (context : pyval) : M (completion pyval) :=
  let* rbd_snap_ls := run_command ["rbd" : pyval; "snap" : pyval; "ls" : pyval;
                                   "--format=json" : pyval;
                                   (pool +:+ "/" +:+ image) : pyval] None true in
  let* snapshots := lift (py_iter rbd_snap_ls) in
  let* benjis_snapshots := lift (benjis_snapshots_of snapshots) in
  let* result :=
    match last benjis_snapshots with
    | None => backup_initial volume pool image version_labels version_uid context
    | Some last_snapshot =>
      let* _ := remove_snapshots pool image (removelast benjis_snapshots) in
      backup_from_snapshot volume pool image version_labels version_uid context last_snapshot
    end in
  ret (Return result).

Definition backup_kwargs
    (volume pool image : string) (version_labels : list (string * string))
    (context : pyval) : kwargs :=
  [("volume", KStr volume); ("pool", KStr pool); ("image", KStr image);
   ("version_labels", KLabels version_labels); ("context", KVal context)].

Definition backup
    (volume pool image : string) (version_labels : list (string * string))
    (version_uid : option string) (context : pyval) : M pyval :=
  let kw := backup_kwargs volume pool image version_labels context in
  let* _ := send signal_backup_pre SIGNAL_SENDER kw in
  function_result
    (try_except_else
       (backup_try volume pool image version_labels version_uid context)
       (vote_on_error signal_backup_post_error (kw ++ [("result", KVal PNone)]))
       (let* _ := send signal_backup_post_success SIGNAL_SENDER
                       (kw ++ [("result", KVal PNone)]) in
        ret Fallthrough)).

Definition restore_kwargs (version_uid pool image : string) (context : pyval) : kwargs :=
  [("version_uid", KStr version_uid); ("pool", KStr pool); ("image", KStr image);
   ("context", KVal context)].

(** The body of the [try] of [restore]: [result = subprocess_run(...)]. *)
Definition restore_try (version_uid pool image : string) : M pyval :=
  run_command (benji benji_log_level
               ++ ["restore" : pyval; "--sparse" : pyval; "--force" : pyval;
                   version_uid : pyval; (pool +:+ ":" +:+ pool +:+ "/" +:+ image) : pyval])
              None false.

Definition restore (version_uid pool image : string) (context : pyval) : M pyval :=
  let* _ := send signal_snapshot_create_pre SIGNAL_SENDER
                 (restore_kwargs version_uid pool image context) in
  fun st =>
    match restore_try version_uid pool image st with
    | (Raised e, st') =>
      if is_Exception e then
        function_result
          (vote_on_error signal_restore_post_error
             (restore_kwargs version_uid pool image context ++ [("result", KVal PNone)]) e) st'
      else (Raised e, st')
    | (Returned result, st') =>
      function_result
        (let* _ := send signal_restore_post_success SIGNAL_SENDER
                        [("pool", KStr pool); ("image", KStr image);
                         ("context", KVal context); ("result", KVal result)] in
         ret Fallthrough) st'
    end.

(** The state in which the [try] of an operation starts: the receivers of
    the pre-signal have run. *)
Definition after_send (signal : string) (kw : kwargs) (st : St) : St :=
  (send signal SIGNAL_SENDER kw st).2.

Definition no_initial_value (handled : exn) : exn :=
  ExnDuring "TypeError" "reduce() of empty sequence with no initial value" handled.

(** *** Signals and votes *)

Lemma exn_depth_with_context handled e :
  exn_depth (with_context handled e) = S (exn_depth handled).
Proof. by destruct e. Qed.

Lemma with_context_neq handled e : with_context handled e <> handled.
Proof.
  intros Heq. pose proof (exn_depth_with_context handled e) as Hd.
  rewrite Heq in Hd. lia.
Qed.

Lemma send_to_all (receivers : list Receiver) sender kw w :
  Forall2 (fun receiver reply => exists w0 w1, receiver sender kw w0 = (reply, w1))
          receivers (send_to receivers sender kw w).1.
Proof.
  revert w. induction receivers as [|receiver rest IH]; intros w; simpl; [constructor|].
  destruct (receiver sender kw w) as [v w1] eqn:Hr.
  specialize (IH w1). destruct (send_to rest sender kw w1) as [vs w2]. simpl in *.
  constructor; eauto.
Qed.

Lemma fold_left_orb (bs : list bool) (b : bool) :
  fold_left orb bs b = true <-> b = true \/ true ∈ bs.
Proof.
  revert b. induction bs as [|x bs IH]; intros b; simpl.
  - split; [auto|]. intros [?|Hin]; [done|]. by apply elem_of_nil in Hin.
  - rewrite IH, elem_of_cons. destruct b, x; simpl; intuition congruence.
Qed.

Lemma reduce_orb_votes (replies : list pyval) :
  match reduce orb (truthy <$> replies) with
  | Raised _ => replies = []
  | Returned b => replies <> [] /\
                  (b = true <-> exists reply, reply ∈ replies /\ truthy reply = true)
  end.
Proof.
  destruct replies as [|v vs]; simpl; [done|]. split; [done|].
  rewrite fold_left_orb, list_elem_of_fmap. split.
  - intros [Hv|(y & Hy & Hin)].
    + exists v. split; [apply elem_of_cons; auto|done].
    + exists y. split; [apply elem_of_cons; auto|done].
  - intros (reply & [->|Hin]%elem_of_cons & Ht); [auto|]. right. eauto.
Qed.

(** What the shared handler does with the replies. *)
Lemma vote_on_error_outcome signal kw e st :
  let replies :=
    (send_to (receivers_for signal) SIGNAL_SENDER (kw ++ [("exception", KExn e)]) (world st)).1 in
  (vote_on_error signal kw e st).1 =
    match replies with
    | [] => Raised (with_context e (TypeError "reduce() of empty sequence with no initial value"))
    | _ :: _ =>
      if fold_left orb (truthy <$> tail replies) (from_option truthy false (head replies))
      then Raised e else Returned Fallthrough
    end.
Proof.
  unfold vote_on_error, bind, send, lift, raise, ret. simpl.
  destruct (send_to _ _ _ _) as [replies w]. simpl.
  destruct replies as [|v vs]; simpl; [done|].
  change (list_fmap pyval bool truthy vs) with (truthy <$> vs).
  by destruct (fold_left orb (truthy <$> vs) (truthy v)).
Qed.

Lemma vote_on_error_cases signal kw e st :
  let replies :=
    (send_to (receivers_for signal) SIGNAL_SENDER (kw ++ [("exception", KExn e)]) (world st)).1 in
  (replies = [] /\
   (vote_on_error signal kw e st).1
     = Raised (with_context e (TypeError "reduce() of empty sequence with no initial value"))) \/
  (replies <> [] /\ (exists reply, reply ∈ replies /\ truthy reply = true) /\
   (vote_on_error signal kw e st).1 = Raised e) \/
  (replies <> [] /\ ~ (exists reply, reply ∈ replies /\ truthy reply = true) /\
   (vote_on_error signal kw e st).1 = Returned Fallthrough).
Proof.
  intros replies. pose proof (vote_on_error_outcome signal kw e st) as Ho.
  pose proof (reduce_orb_votes replies) as Hv. fold replies in Ho.
  destruct replies as [|v vs]; simpl in *; [by left|]. right.
  destruct Hv as [Hne Hv].
  destruct (fold_left orb (truthy <$> vs) (truthy v)) eqn:Hf.
  - left. split; [done|]. split; [|done]. apply Hv.
    by change (list_fmap pyval bool truthy vs) with (truthy <$> vs).
  - right. split; [done|]. split; [|done]. intros Hex. apply Hv in Hex.
    change (list_fmap pyval bool truthy vs) with (truthy <$> vs) in Hex. congruence.
Qed.

Lemma function_result_fst (m : M (completion pyval)) st :
  (function_result m st).1 =
    match (m st).1 with
    | Returned (Return v) => Returned v
    | Returned Fallthrough => Returned PNone
    | Raised e => Raised e
    end.
Proof.
  unfold function_result, bind, ret. destruct (m st) as [[[|v]|e] st']; done.
Qed.

Lemma send_returns signal kw st :
  exists vs, send signal SIGNAL_SENDER kw st = (Returned vs, after_send signal kw st).
Proof.
  unfold after_send, send. destruct (send_to _ _ _ _) as [vs w]. by exists vs.
Qed.

(** *** The three operations when their [try] fails *)

Lemma snapshot_create_failed volume pool image snapshot context st e w :
  let kw := [("volume", KStr volume); ("pool", KStr pool); ("image", KStr image);
             ("snapshot", KStr snapshot); ("context", KVal context)] in
  let st0 := after_send signal_snapshot_create_pre kw st in
  subprocess_run ["rbd" : pyval; "snap" : pyval; "create" : pyval;
                  image_spec pool image snapshot : pyval]
                 (Some RBD_SNAP_CREATE_TIMEOUT) false (world st0) = (Raised e, w) ->
  is_Exception e = true ->
  (snapshot_create volume pool image snapshot context st).1 =
    match (vote_on_error signal_snapshot_create_post_error kw e
             {| world := w;
                commands := commands st0 ++ [["rbd" : pyval; "snap" : pyval; "create" : pyval;
                                              image_spec pool image snapshot : pyval]] |}).1 with
    | Returned (Return v) => Returned v
    | Returned Fallthrough => Returned PNone
    | Raised e' => Raised e'
    end.
Proof.
  intros kw st0 Hrun He. unfold snapshot_create. fold kw. unfold bind at 1.
  destruct (send_returns signal_snapshot_create_pre kw st) as [vs ->]. fold st0.
  rewrite function_result_fst. unfold try_except_else, bind, run_command.
  by rewrite Hrun, He.
Qed.

Lemma backup_failed volume pool image version_labels version_uid context st e st1 :
  let kw := backup_kwargs volume pool image version_labels context in
  backup_try volume pool image version_labels version_uid context
             (after_send signal_backup_pre kw st) = (Raised e, st1) ->
  is_Exception e = true ->
  (backup volume pool image version_labels version_uid context st).1 =
    match (vote_on_error signal_backup_post_error (kw ++ [("result", KVal PNone)]) e st1).1 with
    | Returned (Return v) => Returned v
    | Returned Fallthrough => Returned PNone
    | Raised e' => Raised e'
    end.
Proof.
  intros kw Hrun He. unfold backup. fold kw. unfold bind at 1.
  destruct (send_returns signal_backup_pre kw st) as [vs ->].
  rewrite function_result_fst. unfold try_except_else. by rewrite Hrun, He.
Qed.

Lemma restore_failed version_uid pool image context st e st1 :
  let kw := restore_kwargs version_uid pool image context in
  restore_try version_uid pool image (after_send signal_snapshot_create_pre kw st)
    = (Raised e, st1) ->
  is_Exception e = true ->
  (restore version_uid pool image context st).1 =
    match (vote_on_error signal_restore_post_error (kw ++ [("result", KVal PNone)]) e st1).1 with
    | Returned (Return v) => Returned v
    | Returned Fallthrough => Returned PNone
    | Raised e' => Raised e'
    end.
Proof.
  intros kw Hrun He. unfold restore. fold kw. unfold bind at 1.
  destruct (send_returns signal_snapshot_create_pre kw st) as [vs ->].
  rewrite Hrun, He. by rewrite function_result_fst.
Qed.

(** C6.  When the [try] of [backup] fails with [e], an [Exception],
    every receiver connected to the error signal is called, in the order
    of registration, with the arguments of the backup, [result=None] and
    [exception=e].  The call of [backup] ends by raising [e] again exactly
    when one of the replies is truthy, and whatever the replies are it
    never returns anything but [None]. *)
Theorem backup_error_votes
    (volume pool image : string) (version_labels : list (string * string))
    (version_uid : option string) (context : pyval) (st : St) (e : exn) (st1 : St) :
  backup_try volume pool image version_labels version_uid context
             (after_send signal_backup_pre
                (backup_kwargs volume pool image version_labels context) st)
    = (Raised e, st1) ->
  is_Exception e = true ->
  let error_kw :=
    (backup_kwargs volume pool image version_labels context
     ++ [("result", KVal PNone)]) ++ [("exception", KExn e)] in
  let replies :=
    (send_to (receivers_for signal_backup_post_error) SIGNAL_SENDER error_kw (world st1)).1 in
  let outcome := (backup volume pool image version_labels version_uid context st).1 in
  Forall2 (fun receiver reply => exists w0 w1, receiver SIGNAL_SENDER error_kw w0 = (reply, w1))
          (receivers_for signal_backup_post_error) replies /\
  (outcome = Raised e <-> exists reply, reply ∈ replies /\ truthy reply = true) /\
  (forall v, outcome = Returned v -> v = PNone).
Proof.
  intros Hrun He. cbv zeta.
  split; [apply send_to_all|].
  rewrite (backup_failed _ _ _ _ _ _ _ _ _ Hrun He).
  pose proof (vote_on_error_cases signal_backup_post_error
                (backup_kwargs volume pool image version_labels context
                 ++ [("result", KVal PNone)]) e st1) as Hcases.
  cbv zeta in Hcases.
  destruct Hcases as [[Hnil ->] | [(Hne & Hex & ->) | (Hne & Hno & ->)]].
  - split; [|done]. rewrite Hnil. split.
    + intros [= Heq].
      destruct (with_context_neq e (TypeError "reduce() of empty sequence with no initial value") Heq).
    + intros (reply & Hin & _). by apply elem_of_nil in Hin.
  - split; [|done]. split; auto.
  - split; [|by intros v [= <-]]. split; [done|]. intros Hex. by destruct Hno.
Qed.

(** C9.  Each of the three operations on its own: with no receiver
    connected to its error signal, a failure [e] in its [try] makes
    [reduce] run over an empty sequence, and the operation raises the
    [TypeError] of [reduce], with [e] as its context.  It neither raises
    [e] itself nor returns. *)
Theorem no_receiver_raises_TypeError
    (volume pool image snapshot : string) (context : pyval)
    (version_labels : list (string * string)) (version_uid : option string)
    (restored_uid : string) (st : St) (e : exn) :
  is_Exception e = true ->
  (forall w1,
     receivers_for signal_snapshot_create_post_error = [] ->
     subprocess_run ["rbd" : pyval; "snap" : pyval; "create" : pyval;
                     image_spec pool image snapshot : pyval]
                    (Some RBD_SNAP_CREATE_TIMEOUT) false
                    (world (after_send signal_snapshot_create_pre
                              [("volume", KStr volume); ("pool", KStr pool);
                               ("image", KStr image); ("snapshot", KStr snapshot);
                               ("context", KVal context)] st))
       = (Raised e, w1) ->
     (snapshot_create volume pool image snapshot context st).1
       = Raised (no_initial_value e)) /\
  (forall st2,
     receivers_for signal_backup_post_error = [] ->
     backup_try volume pool image version_labels version_uid context
                (after_send signal_backup_pre
                   (backup_kwargs volume pool image version_labels context) st)
       = (Raised e, st2) ->
     (backup volume pool image version_labels version_uid context st).1
       = Raised (no_initial_value e)) /\
  (forall st3,
     receivers_for signal_restore_post_error = [] ->
     restore_try restored_uid pool image
                 (after_send signal_snapshot_create_pre
                    (restore_kwargs restored_uid pool image context) st)
       = (Raised e, st3) ->
     (restore restored_uid pool image context st).1
       = Raised (no_initial_value e)) /\
  no_initial_value e <> e /\
  exn_kind (no_initial_value e) = "TypeError" /\
  exn_context (no_initial_value e) = Some e.
Proof.
  intros He. split_and!.
  - intros w1 Hnone Hrun.
    rewrite (snapshot_create_failed _ _ _ _ _ _ _ _ Hrun He).
    by rewrite vote_on_error_outcome, Hnone.
  - intros st2 Hnone Hrun.
    rewrite (backup_failed _ _ _ _ _ _ _ _ _ Hrun He).
    by rewrite vote_on_error_outcome, Hnone.
  - intros st3 Hnone Hrun.
    rewrite (restore_failed _ _ _ _ _ _ _ Hrun He).
    by rewrite vote_on_error_outcome, Hnone.
  - apply (with_context_neq _ (TypeError "reduce() of empty sequence with no initial value")).
  - done.
  - done.
Qed.

(** *** Choosing the base version *)


Lemma bind_Returned {A B : Type} (m : M A) (k : A -> M B) st a st' :
  m st = (Returned a, st') -> bind m k st = k a st'.
Proof. unfold bind. by intros ->. Qed.

Lemma bind_lift {A B : Type} (o : outcome A) (k : A -> M B) st :
  bind (lift o) k st =
    match o with
    | Returned a => k a st
    | Raised e => (Raised e, st)
    end.
Proof. unfold bind, lift. by destruct o. Qed.

(** *** A backup that succeeds *)

Lemma bind_completes {A B : Type} (m : M A) (k : A -> M (completion B)) st c st' :
  (forall a st0 st1, k a st0 <> (Returned Fallthrough, st1)) ->
  bind m k st = (Returned c, st') -> exists v, c = Return v.
Proof.
  intros Hk. unfold bind. destruct (m st) as [[a|e] st0]; [|done].
  intros Hr. destruct c as [|v]; [|eauto]. by destruct (Hk a st0 st').
Qed.

(** The [try] of [backup] ends in [return result]: when nothing is
    raised, [backup] returns that result directly from the [try], and the
    [else] branch with the success signal is not run. *)
Theorem backup_returns_from_try
    (volume pool image : string) (version_labels : list (string * string))
    (version_uid : option string) (context : pyval) (st : St)
    (c : completion pyval) (st1 : St) :
  backup_try volume pool image version_labels version_uid context
             (after_send signal_backup_pre
                (backup_kwargs volume pool image version_labels context) st)
    = (Returned c, st1) ->
  exists result,
    c = Return result /\
    backup volume pool image version_labels version_uid context st = (Returned result, st1).
Proof.
  intros Hrun.
  assert (exists v, c = Return v) as [v ->].
  { unfold backup_try in Hrun. eapply bind_completes; [|exact Hrun].
    intros a st0 st2 Hk1. apply bind_completes in Hk1 as [? ?]; [done|].
    intros a0 st3 st4 Hk2. apply bind_completes in Hk2 as [? ?]; [done|].
    intros a1 st5 st6 Hk3. apply bind_completes in Hk3 as [? ?]; [done|].
    intros a2 st7 st8. unfold ret. congruence. }
  exists v. split; [done|].
  unfold backup. unfold bind at 1.
  destruct (send_returns signal_backup_pre
              (backup_kwargs volume pool image version_labels context) st) as [vs ->].
  unfold function_result, bind, try_except_else. by rewrite Hrun.
Qed.

(** *** The commands of a backup *)

(** [['rbd', 'snap', 'rm', f'{pool}/{image}@{snapshot}']]. *)
Definition snap_rm (pool image snapshot : string) : list pyval :=
  ["rbd" : pyval; "snap" : pyval; "rm" : pyval; image_spec pool image snapshot : pyval].

(** A command that, if it removes a snapshot at all, removes a snapshot
    of the image whose name starts with [RBD_SNAP_NAME_PREFIX]. *)
Definition removes_only_own (pool image : string) (cmd : list pyval) : Prop :=
  forall target : pyval,
    cmd = ["rbd" : pyval; "snap" : pyval; "rm" : pyval; target] ->
    exists snapshot,
      target = PStr (image_spec pool image snapshot) /\
      String.prefix RBD_SNAP_NAME_PREFIX snapshot = true.

(** Every command that [m] hands to [subprocess_run] satisfies [P]. *)
Definition issues {A : Type} (P : list pyval -> Prop) (m : M A) : Prop :=
  forall st, exists cs, commands (m st).2 = commands st ++ cs /\ Forall P cs.

Lemma issues_ret {A : Type} P (a : A) : issues P (ret a).
Proof. intros st. exists []. by rewrite app_nil_r. Qed.

Lemma issues_raise {A : Type} P e : issues P (raise (A := A) e).
Proof. intros st. exists []. by rewrite app_nil_r. Qed.

Lemma issues_lift {A : Type} P (o : outcome A) : issues P (lift o).
Proof. intros st. exists []. by rewrite app_nil_r. Qed.

Lemma issues_send P signal sender kw : issues P (send signal sender kw).
Proof.
  intros st. exists []. unfold send. destruct (send_to _ _ _ _). simpl.
  by rewrite app_nil_r.
Qed.

Lemma issues_run_command P args timeout decode_json :
  P args -> issues P (run_command args timeout decode_json).
Proof.
  intros HP st. exists [args]. unfold run_command.
  destruct (subprocess_run _ _ _ _). simpl. split; [done|]. by constructor.
Qed.

Lemma issues_bind {A B : Type} P (m : M A) (k : A -> M B) :
  issues P m -> (forall a, issues P (k a)) -> issues P (bind m k).
Proof.
  intros Hm Hk st. unfold bind.
  destruct (Hm st) as (cs1 & Hc1 & HP1).
  destruct (m st) as [[a|e] st1]; simpl in *.
  - destruct (Hk a st1) as (cs2 & Hc2 & HP2).
    exists (cs1 ++ cs2). rewrite Hc2, Hc1, (assoc_L (++)).
    split; [done|]. by apply Forall_app.
  - by exists cs1.
Qed.

Lemma issues_try_except_else {A : Type} P (body : M (completion A)) handler orelse :
  issues P body -> (forall e, issues P (handler e)) -> issues P orelse ->
  issues P (try_except_else body handler orelse).
Proof.
  intros Hb Hh Ho st. unfold try_except_else.
  destruct (Hb st) as (cs1 & Hc1 & HP1).
  destruct (body st) as [[[|v]|e] st1]; simpl in *.
  - destruct (Ho st1) as (cs2 & Hc2 & HP2).
    exists (cs1 ++ cs2). rewrite Hc2, Hc1, (assoc_L (++)).
    split; [done|]. by apply Forall_app.
  - by exists cs1.
  - destruct (is_Exception e); [|by exists cs1].
    destruct (Hh e st1) as (cs2 & Hc2 & HP2).
    exists (cs1 ++ cs2). rewrite Hc2, Hc1, (assoc_L (++)).
    split; [done|]. by apply Forall_app.
Qed.

Lemma issues_function_result P (m : M (completion pyval)) :
  issues P m -> issues P (function_result m).
Proof.
  intros Hm. apply issues_bind; [done|]. intros [|v]; apply issues_ret.
Qed.

Lemma issues_vote_on_error P signal kw e : issues P (vote_on_error signal kw e).
Proof.
  apply issues_bind; [apply issues_send|]. intros replies.
  apply issues_bind; [apply issues_lift|]. intros [|]; [apply issues_raise|apply issues_ret].
Qed.

Lemma issues_with_rbd_hints {A : Type} P stdout (body : string -> M A) :
  (forall name, issues P (body name)) -> issues P (with_rbd_hints stdout body).
Proof.
  intros Hb st. unfold with_rbd_hints.
  destruct (named_temporary_file stdout (world st)) as [[name|e] w]; simpl.
  - destruct (Hb name {| world := w; commands := commands st |}) as (cs & Hc & HP).
    destruct (body name _) as [o st']. simpl in *. by exists cs.
  - exists []. by rewrite app_nil_r.
Qed.

Lemma issues_snapshot_create P volume pool image snapshot context :
  P ["rbd" : pyval; "snap" : pyval; "create" : pyval; image_spec pool image snapshot : pyval] ->
  issues P (snapshot_create volume pool image snapshot context).
Proof.
  intros HP. apply issues_bind; [apply issues_send|]. intros _.
  apply issues_function_result, issues_try_except_else.
  - apply issues_bind; [by apply issues_run_command|]. intros _. apply issues_ret.
  - intros e. apply issues_vote_on_error.
  - apply issues_bind; [apply issues_send|]. intros _. apply issues_ret.
Qed.

Lemma benjis_snapshots_of_prefix snapshots : forall names,
  benjis_snapshots_of snapshots = Returned names ->
  Forall (fun n => String.prefix RBD_SNAP_NAME_PREFIX n = true) names.
Proof.
  induction snapshots as [|snapshot rest IH]; intros names Hn; simpl in Hn.
  { simplify_eq. constructor. }
  destruct (getitem snapshot "name") as [name|e]; [|done].
  destruct (startswith name RBD_SNAP_NAME_PREFIX) as [keep|e] eqn:Hs; [|done].
  destruct (benjis_snapshots_of rest) as [names'|e]; [|done].
  specialize (IH _ eq_refl).
  destruct name as [| | |n| |]; simpl in Hs; simplify_eq.
  destruct (String.prefix RBD_SNAP_NAME_PREFIX n) eqn:Hp; simplify_eq; [|done].
  by constructor.
Qed.

Lemma issues_remove_snapshots pool image snapshots :
  Forall (fun n => String.prefix RBD_SNAP_NAME_PREFIX n = true) snapshots ->
  issues (removes_only_own pool image) (remove_snapshots pool image snapshots).
Proof.
  induction 1 as [|n rest Hn Hrest IH]; simpl; [apply issues_ret|].
  apply issues_bind; [|done].
  apply issues_run_command. intros target [= <-]. eauto.
Qed.

Lemma issues_backup_initial pool image volume version_labels version_uid context :
  issues (removes_only_own pool image)
         (backup_initial volume pool image version_labels version_uid context).
Proof.
  apply issues_bind; [intros st; exists []; by rewrite app_nil_r|]. intros snapshot.
  apply issues_bind; [apply issues_snapshot_create; by intros target [=]|]. intros _.
  apply issues_bind; [apply issues_run_command; by intros target [=]|]. intros stdout.
  apply issues_with_rbd_hints. intros name.
  apply issues_run_command. by intros target [=].
Qed.

Lemma issues_backup_differential
    pool image volume last_snapshot base_version_uid version_labels version_uid context :
  String.prefix RBD_SNAP_NAME_PREFIX last_snapshot = true ->
  issues (removes_only_own pool image)
         (backup_differential volume pool image last_snapshot base_version_uid
                              version_labels version_uid context).
Proof.
  intros Hlast.
  apply issues_bind; [intros st; exists []; by rewrite app_nil_r|]. intros snapshot.
  apply issues_bind; [apply issues_snapshot_create; by intros target [=]|]. intros _.
  apply issues_bind; [apply issues_run_command; by intros target [=]|]. intros stdout.
  apply issues_bind; [apply issues_run_command; intros target [= <-]; eauto|]. intros _.
  apply issues_with_rbd_hints. intros name.
  apply issues_run_command. by intros target [=].
Qed.

(** Whatever the commands answer and whatever the receivers do, a call of
    [backup] removes no snapshot but snapshots of its image whose names
    start with ["b-"]: snapshots made by somebody else are left alone. *)
Theorem backup_removes_only_own_snapshots
    (volume pool image : string) (version_labels : list (string * string))
    (version_uid : option string) (context : pyval) :
  issues (removes_only_own pool image)
         (backup volume pool image version_labels version_uid context).
Proof.
  apply issues_bind; [apply issues_send|]. intros _.
  apply issues_function_result, issues_try_except_else.
  - apply issues_bind; [apply issues_run_command; by intros target [=]|]. intros rbd_snap_ls.
    apply issues_bind; [apply issues_lift|]. intros snapshots.
    intros st. unfold bind at 1, lift at 1.
    destruct (benjis_snapshots_of snapshots) as [names|e] eqn:Hnames.
    2:{ exists []. by rewrite app_nil_r. }
    apply benjis_snapshots_of_prefix in Hnames.
    revert st. apply issues_bind; [|intros result; apply issues_ret].
    destruct (last names) as [last_snapshot|] eqn:Hlast; [|apply issues_backup_initial].
    assert (String.prefix RBD_SNAP_NAME_PREFIX last_snapshot = true) as Hprefix.
    { apply last_Some in Hlast as [older ->]. by apply Forall_app in Hnames as [_ [? _]%Forall_cons]. }
    apply issues_bind.
    { apply issues_remove_snapshots. apply last_Some in Hlast as [older ->].
      rewrite removelast_last. by apply Forall_app in Hnames as [? _]. }
    intros _. unfold backup_from_snapshot.
    apply issues_bind; [apply issues_run_command; by intros target [=]|]. intros benji_ls_result.
    apply issues_bind; [apply issues_lift|]. intros versions.
    apply issues_bind; [apply issues_lift|]. intros n.
    destruct (0 <? n)%nat.
    + apply issues_bind; [apply issues_lift|]. intros versions'.
      apply issues_bind; [apply issues_lift|]. intros first.
      apply issues_bind; [apply issues_lift|]. intros base_version_uid.
      by apply issues_backup_differential.
    + apply issues_bind; [apply issues_run_command; intros target [= <-]; eauto|]. intros _.
      apply issues_backup_initial.
  - intros e. apply issues_vote_on_error.
  - apply issues_bind; [apply issues_send|]. intros _. apply issues_ret.
Qed.

(** The older snapshots are removed oldest first, one command each, and
    the loop stops at the first removal that fails, with its exception:
    the snapshots after it are not touched. *)
Theorem remove_snapshots_in_order (pool image : string) (snapshots : list string) (st : St) :
  exists k,
    commands (remove_snapshots pool image snapshots st).2
      = commands st ++ (snap_rm pool image <$> take k snapshots) /\
    match (remove_snapshots pool image snapshots st).1 with
    | Returned _ => k = length snapshots
    | Raised e =>
      exists j snapshot w w',
        k = S j /\ snapshots !! j = Some snapshot /\
        subprocess_run (snap_rm pool image snapshot) None false w = (Raised e, w')
    end.
Proof.
  revert st. induction snapshots as [|snapshot rest IH]; intros st.
  { exists 0%nat. simpl. by rewrite app_nil_r. }
  cbn [remove_snapshots]. unfold bind, run_command.
  fold (snap_rm pool image snapshot).
  destruct (subprocess_run (snap_rm pool image snapshot) None false (world st))
    as [[v|e] w] eqn:Hrun.
  - destruct (IH {| world := w; commands := commands st ++ [snap_rm pool image snapshot] |})
      as (k & Hc & Ho).
    exists (S k). split.
    + rewrite Hc. cbn [commands take fmap list_fmap]. by rewrite <- (assoc_L (++)).
    + destruct (remove_snapshots pool image rest _).1 as [[]|e]; [by subst|].
      destruct Ho as (j & n & w0 & w1 & -> & Hj & Hn).
      exists (S j), n, w0, w1. by split_and!.
  - exists 1%nat. split; [done|]. exists 0%nat, snapshot, (world st), w. by split_and!.
Qed.

(** An entry of [rbd snap ls]: a dictionary whose ['name'] is the string [n]. *)
Definition named (snapshot : pyval) (n : string) : Prop :=
  exists items, snapshot = PDict items /\ assoc "name" items = Some (PStr n).

(** Of a listing whose entries all have a name, the comprehension keeps
    the names that start with ["b-"], in the order of the listing. *)
Theorem benjis_snapshots_of_filters (snapshots : list pyval) (names : list string) :
  Forall2 named snapshots names ->
  benjis_snapshots_of snapshots
    = Returned (List.filter (String.prefix RBD_SNAP_NAME_PREFIX) names).
Proof.
  induction 1 as [|snapshot n snapshots names (items & -> & Hname) _ IH]; [done|].
  cbn [benjis_snapshots_of getitem List.filter]. rewrite Hname. cbn [startswith].
  rewrite IH. by destruct (String.prefix RBD_SNAP_NAME_PREFIX n).
Qed.

(** One entry without a name makes the whole comprehension fail with
    [KeyError('name')], whatever the entries after it are. *)
Theorem benjis_snapshots_of_missing_name
    (snapshots : list pyval) (names : list string) (items : list (string * pyval))
    (rest : list pyval) :
  Forall2 named snapshots names ->
  assoc "name" items = None ->
  benjis_snapshots_of (snapshots ++ PDict items :: rest) = Raised (KeyError "name").
Proof.
  intros Hnamed Hnone.
  induction Hnamed as [|snapshot n snapshots names (items' & -> & Hname) _ IH].
  - cbn [app benjis_snapshots_of getitem]. by rewrite Hnone.
  - cbn [app benjis_snapshots_of getitem]. rewrite Hname. cbn [startswith]. by rewrite IH.
Qed.

(** *** Votes of the other two operations *)

Lemma votes_decide signal kw e st (o : outcome pyval) :
  o = match (vote_on_error signal kw e st).1 with
      | Returned (Return v) => Returned v
      | Returned Fallthrough => Returned PNone
      | Raised e' => Raised e'
      end ->
  let replies :=
    (send_to (receivers_for signal) SIGNAL_SENDER (kw ++ [("exception", KExn e)]) (world st)).1 in
  (o = Raised e <-> exists reply, reply ∈ replies /\ truthy reply = true) /\
  (o = Returned PNone <->
     replies <> [] /\ ~ exists reply, reply ∈ replies /\ truthy reply = true) /\
  (o = Raised (no_initial_value e) <-> replies = []).
Proof.
  intros ->. pose proof (vote_on_error_cases signal kw e st) as Hcases.
  cbv zeta in Hcases |- *.
  assert (no_initial_value e <> e) as Hneq.
  { apply (with_context_neq e (TypeError "reduce() of empty sequence with no initial value")). }
  destruct Hcases as [[Hnil ->] | [(Hne & Hex & ->) | (Hne & Hno & ->)]].
  - rewrite Hnil. split_and!.
    + split; [intros [= Heq]; by destruct Hneq|].
      intros (reply & Hin & _). by apply elem_of_nil in Hin.
    + split; [done|]. by intros [? _].
    + done.
  - split_and!.
    + done.
    + split; [done|]. intros [_ Hno]. by destruct Hno.
    + split; [|done]. intros [= Heq]. by destruct Hneq.
  - split_and!.
    + split; [done|]. intros Hex. by destruct Hno.
    + done.
    + split; [done|]. intros Hnil. by destruct Hne.
Qed.

(** When [rbd snap create] fails with [e], an [Exception], the receivers
    of [snapshot_create_post_error] decide: [e] is raised again exactly when
    one reply is truthy; with replies that are all falsy the failure is
    swallowed and [snapshot_create] returns [None] as if the snapshot
    existed; with no receiver at all the [TypeError] of [reduce] comes
    out instead. *)
Theorem snapshot_create_error_votes
    (volume pool image snapshot : string) (context : pyval) (st : St) (e : exn) (w : World) :
  let kw := [("volume", KStr volume); ("pool", KStr pool); ("image", KStr image);
             ("snapshot", KStr snapshot); ("context", KVal context)] in
  subprocess_run ["rbd" : pyval; "snap" : pyval; "create" : pyval;
                  image_spec pool image snapshot : pyval]
                 (Some RBD_SNAP_CREATE_TIMEOUT) false
                 (world (after_send signal_snapshot_create_pre kw st)) = (Raised e, w) ->
  is_Exception e = true ->
  let replies :=
    (send_to (receivers_for signal_snapshot_create_post_error) SIGNAL_SENDER
             (kw ++ [("exception", KExn e)]) w).1 in
  let outcome := (snapshot_create volume pool image snapshot context st).1 in
  (outcome = Raised e <-> exists reply, reply ∈ replies /\ truthy reply = true) /\
  (outcome = Returned PNone <->
     replies <> [] /\ ~ exists reply, reply ∈ replies /\ truthy reply = true) /\
  (outcome = Raised (no_initial_value e) <-> replies = []).
Proof.
  intros kw Hrun He. cbv zeta.
  exact (votes_decide _ _ _ _ _ (snapshot_create_failed _ _ _ _ _ _ _ _ Hrun He)).
Qed.

(** The same for [restore], an [Exception] [e] of its command and the
    receivers of [restore_post_error], which are called with
    [result=None]. *)
Theorem restore_error_votes
    (version_uid pool image : string) (context : pyval) (st : St) (e : exn) (st1 : St) :
  restore_try version_uid pool image
              (after_send signal_snapshot_create_pre
                 (restore_kwargs version_uid pool image context) st) = (Raised e, st1) ->
  is_Exception e = true ->
  let replies :=
    (send_to (receivers_for signal_restore_post_error) SIGNAL_SENDER
             ((restore_kwargs version_uid pool image context ++ [("result", KVal PNone)])
              ++ [("exception", KExn e)]) (world st1)).1 in
  let outcome := (restore version_uid pool image context st).1 in
  (outcome = Raised e <-> exists reply, reply ∈ replies /\ truthy reply = true) /\
  (outcome = Returned PNone <->
     replies <> [] /\ ~ exists reply, reply ∈ replies /\ truthy reply = true) /\
  (outcome = Raised (no_initial_value e) <-> replies = []).
Proof.
  intros Hrun He. cbv zeta.
  exact (votes_decide _ _ _ _ _ (restore_failed _ _ _ _ _ _ _ Hrun He)).
Qed.

(** *** Restoring *)

(** [restore] runs one command, the [benji restore] of the version into
    the image, whether it succeeds or not and whatever the receivers
    answer. *)
Theorem restore_runs_one_command
    (version_uid pool image : string) (context : pyval) (st : St) :
  commands (restore version_uid pool image context st).2
  = commands st
    ++ [benji benji_log_level
        ++ ["restore" : pyval; "--sparse" : pyval; "--force" : pyval; version_uid : pyval;
            (pool +:+ ":" +:+ pool +:+ "/" +:+ image) : pyval]].
Proof.
  unfold restore. unfold bind at 1.
  destruct (send_returns signal_snapshot_create_pre
              (restore_kwargs version_uid pool image context) st) as [vs ->].
  unfold restore_try, run_command, after_send, send.
  destruct (send_to _ _ _ (world st)) as [vs0 w0]. cbn [snd world commands].
  destruct (subprocess_run _ _ _ w0) as [[result|e] w1].
  - unfold function_result, bind, send, ret. cbn [world commands].
    by destruct (send_to _ _ _ w1).
  - destruct (is_Exception e); [|done].
    unfold function_result, vote_on_error, bind, send, lift, raise, ret. cbn [world commands].
    destruct (send_to _ _ _ w1) as [replies w2].
    destruct (during e (reduce orb (truthy <$> replies))) as [[|]|e']; done.
Qed.

(** A restore that succeeds returns [None]: the output of the command
    goes to the receivers of [restore_post_success] and nowhere else. *)
Theorem restore_returns_None
    (version_uid pool image : string) (context : pyval) (st : St)
    (result : pyval) (st1 : St) :
  restore_try version_uid pool image
              (after_send signal_snapshot_create_pre
                 (restore_kwargs version_uid pool image context) st) = (Returned result, st1) ->
  restore version_uid pool image context st
  = (Returned PNone,
     after_send signal_restore_post_success
       [("pool", KStr pool); ("image", KStr image);
        ("context", KVal context); ("result", KVal result)] st1).
Proof.
  intros Hrun. unfold restore. unfold bind at 1.
  destruct (send_returns signal_snapshot_create_pre
              (restore_kwargs version_uid pool image context) st) as [vs ->].
  rewrite Hrun. unfold function_result, bind, after_send, send, ret.
  by destruct (send_to _ _ _ (world st1)).
Qed.

(** *** A first backup *)

(** With a listing in which no snapshot starts with ["b-"], [backup] goes
    straight to the initial backup: it asks Benji for no base version and
    removes nothing. *)
Theorem no_own_snapshot_means_initial_backup
    (volume pool image : string) (version_labels : list (string * string))
    (version_uid : option string) (context : pyval) (st : St)
    (rbd_snap_ls : pyval) (st1 : St) (snapshots : list pyval) :
  run_command ["rbd" : pyval; "snap" : pyval; "ls" : pyval; "--format=json" : pyval;
               (pool +:+ "/" +:+ image) : pyval] None true st = (Returned rbd_snap_ls, st1) ->
  py_iter rbd_snap_ls = Returned snapshots ->
  Forall (fun snapshot =>
            exists n, named snapshot n /\ String.prefix RBD_SNAP_NAME_PREFIX n = false)
         snapshots ->
  backup_try volume pool image version_labels version_uid context st
  = (let* result := backup_initial volume pool image version_labels version_uid context in
     ret (Return result)) st1.
Proof.
  intros Hls Hiter Hforeign.
  unfold backup_try.
  rewrite (bind_Returned _ _ _ _ _ Hls), bind_lift, Hiter, bind_lift.
  replace (benjis_snapshots_of snapshots) with (Returned (@nil string)); [done|].
  clear Hiter. induction Hforeign as [|snapshot rest (n & (items & -> & Hname) & Hn) _ IH]; [done|].
  cbn [benjis_snapshots_of getitem]. rewrite Hname. cbn [startswith].
  by rewrite <- IH, Hn.
Qed.

(** *** A snapshot that could not be made *)

Lemma snapshot_create_commands volume pool image snapshot context st :
  commands (snapshot_create volume pool image snapshot context st).2
  = commands st ++ [["rbd" : pyval; "snap" : pyval; "create" : pyval;
                     image_spec pool image snapshot : pyval]].
Proof.
  unfold snapshot_create. unfold bind at 1.
  destruct (send_returns signal_snapshot_create_pre
              [("volume", KStr volume); ("pool", KStr pool); ("image", KStr image);
               ("snapshot", KStr snapshot); ("context", KVal context)] st) as [vs ->].
  unfold function_result, try_except_else, bind, run_command, after_send, send.
  destruct (send_to _ _ _ (world st)) as [vs0 w0]. cbn [snd world commands].
  destruct (subprocess_run _ _ _ w0) as [[result|e] w1].
  - unfold ret. cbn [world commands]. by destruct (send_to _ _ _ w1).
  - destruct (is_Exception e); [|done].
    unfold vote_on_error, bind, send, lift, raise, ret. cbn [world commands].
    destruct (send_to _ _ _ w1) as [replies w2].
    destruct (during e (reduce orb (truthy <$> replies))) as [[|]|e']; done.
Qed.

(** When [rbd snap create] fails with an [Exception] and the receivers
    of [snapshot_create_post_error] all answer something falsy, the
    initial backup does not stop: it goes on to [rbd diff] on the snapshot
    that was not made. *)
Theorem backup_initial_goes_on_without_snapshot
    (volume pool image : string) (version_labels : list (string * string))
    (version_uid : option string) (context : pyval) (st : St) (e : exn) (w : World) :
  let snapshot := utcnow_strftime (RBD_SNAP_NAME_PREFIX +:+ "%Y-%m-%dT%H:%M:%SZ") (world st) in
  let kw := [("volume", KStr volume); ("pool", KStr pool); ("image", KStr image);
             ("snapshot", KStr snapshot); ("context", KVal context)] in
  let replies :=
    (send_to (receivers_for signal_snapshot_create_post_error) SIGNAL_SENDER
             (kw ++ [("exception", KExn e)]) w).1 in
  subprocess_run ["rbd" : pyval; "snap" : pyval; "create" : pyval;
                  image_spec pool image snapshot : pyval]
                 (Some RBD_SNAP_CREATE_TIMEOUT) false
                 (world (after_send signal_snapshot_create_pre kw st)) = (Raised e, w) ->
  is_Exception e = true ->
  replies <> [] ->
  (forall reply, reply ∈ replies -> truthy reply = false) ->
  exists cs,
    commands (backup_initial volume pool image version_labels version_uid context st).2
    = commands st
      ++ [["rbd" : pyval; "snap" : pyval; "create" : pyval;
           image_spec pool image snapshot : pyval];
          ["rbd" : pyval; "diff" : pyval; "--whole-object" : pyval; "--format=json" : pyval;
           image_spec pool image snapshot : pyval]]
      ++ cs.
Proof.
  intros snapshot kw replies Hrun He Hne Hfalsy.
  pose proof (votes_decide _ _ _ _ _ (snapshot_create_failed _ _ _ _ _ _ _ _ Hrun He))
    as (_ & Hnone & _).
  cbv zeta in Hnone. fold kw replies in Hnone.
  assert ((snapshot_create volume pool image snapshot context st).1 = Returned PNone) as Hcreated.
  { apply Hnone. split; [done|]. intros (reply & Hin & Ht).
    rewrite (Hfalsy _ Hin) in Ht. discriminate. }
  pose proof (snapshot_create_commands volume pool image snapshot context st) as Hcommands.
  unfold backup_initial. unfold bind at 1. unfold new_snapshot_name. fold snapshot.
  unfold bind at 1.
  destruct (snapshot_create volume pool image snapshot context st) as [o st1].
  cbn [fst snd] in Hcreated, Hcommands. subst o.
  unfold bind at 1. unfold run_command at 1.
  destruct (subprocess_run _ None false (world st1)) as [[stdout|e'] w1].
  - match goal with
    | |- context [with_rbd_hints stdout ?body ?s] =>
      destruct (issues_with_rbd_hints (fun _ => True) stdout body
                  (fun name => issues_run_command _ _ _ _ I) s) as (cs & Hcs & _)
    end.
    exists cs. rewrite Hcs. cbn [commands]. rewrite Hcommands.
    by rewrite <- !(assoc_L (++)).
  - exists []. cbn [snd commands]. rewrite Hcommands.
    by rewrite <- !(assoc_L (++)).
Qed.

(** *** What is not an [Exception] *)

(** [except Exception] lets a [KeyboardInterrupt] or a [SystemExit] pass:
    when the [try] of an operation is left by an exception that is no
    [Exception], the operation raises it as it is, from the state in which
    the [try] was left, and no receiver of the error signal is called. *)
Theorem other_exceptions_pass_through
    (volume pool image snapshot : string) (context : pyval)
    (version_labels : list (string * string)) (version_uid : option string)
    (restored_uid : string) (st : St) (e : exn) :
  is_Exception e = false ->
  (forall w1,
     subprocess_run ["rbd" : pyval; "snap" : pyval; "create" : pyval;
                     image_spec pool image snapshot : pyval]
                    (Some RBD_SNAP_CREATE_TIMEOUT) false
                    (world (after_send signal_snapshot_create_pre
                              [("volume", KStr volume); ("pool", KStr pool);
                               ("image", KStr image); ("snapshot", KStr snapshot);
                               ("context", KVal context)] st))
       = (Raised e, w1) ->
     exists st1,
       snapshot_create volume pool image snapshot context st = (Raised e, st1) /\
       world st1 = w1) /\
  (forall st2,
     backup_try volume pool image version_labels version_uid context
                (after_send signal_backup_pre
                   (backup_kwargs volume pool image version_labels context) st)
       = (Raised e, st2) ->
     backup volume pool image version_labels version_uid context st = (Raised e, st2)) /\
  (forall st3,
     restore_try restored_uid pool image
                 (after_send signal_snapshot_create_pre
                    (restore_kwargs restored_uid pool image context) st)
       = (Raised e, st3) ->
     restore restored_uid pool image context st = (Raised e, st3)).
Proof.
  intros He. split_and!.
  - intros w1 Hrun. unfold snapshot_create. unfold bind at 1.
    destruct (send_returns signal_snapshot_create_pre
                [("volume", KStr volume); ("pool", KStr pool); ("image", KStr image);
                 ("snapshot", KStr snapshot); ("context", KVal context)] st) as [vs ->].
    unfold function_result, try_except_else, bind, run_command.
    rewrite Hrun, He. by eexists.
  - intros st2 Hrun. unfold backup. unfold bind at 1.
    destruct (send_returns signal_backup_pre
                (backup_kwargs volume pool image version_labels context) st) as [vs ->].
    unfold function_result, try_except_else, bind. by rewrite Hrun, He.
  - intros st3 Hrun. unfold restore. unfold bind at 1.
    destruct (send_returns signal_snapshot_create_pre
                (restore_kwargs restored_uid pool image context) st) as [vs ->].
    by rewrite Hrun, He.
Qed.

(** *** Choosing the base version *)








End Script.

Arguments world {World} _.
Arguments commands {World} _.

(** *** A scripted environment

    The world is the list of outcomes the next commands will have; a
    command run with none left fails.  The clock stands still and
    temporary files all have one name. *)
Definition Script : Type := list (outcome pyval).

Definition CalledProcessError : exn := Exn "CalledProcessError" "command failed".

Definition scripted_run (args : list pyval) (timeout : option Z) (decode_json : bool)
    (w : Script) : outcome pyval * Script :=
  match w with
  | o :: rest => (o, rest)
  | [] => (Raised CalledProcessError, [])
  end.

Definition scripted_now (format : string) (w : Script) : string := "b-2020-02-02T02:02:02Z".

Definition scripted_file (content : pyval) (w : Script) : outcome string * Script :=
  (Returned "/tmp/rbd_hints", w).

Definition scripted_remove (name : string) (w : Script) : Script := w.

Definition says (v : pyval) : Receiver Script := fun _ _ w => (v, w).

(** Two receivers on the error signal of [backup], none elsewhere. *)
Definition two_voters (signal : string) : list (Receiver Script) :=
  if String.eqb signal signal_backup_post_error then [says (PBool false); says (PInt 1)] else [].

Definition nobody (signal : string) : list (Receiver Script) := [].

Definition fresh (w : Script) : St Script := {| world := w; commands := [] |}.

(** The image has two snapshots of Benji and one of somebody else; the
    catalog knows no valid version for the newest. *)
Definition no_valid_version : Script :=
  [Returned (PList [PDict [("name", PStr "b-old")]; PDict [("name", PStr "manual")];
                    PDict [("name", PStr "b-new")]]);
   Returned (PStr EmptyString);
   Returned (PDict [("versions", PList [])]);
   Returned (PStr EmptyString);
   Returned (PStr EmptyString);
   Returned (PStr "[]");
   Returned (PDict [("versions", PList [PDict [("uid", PStr "V2")]])])].

Lemma backup_error_votes_witness :
  (backup Script scripted_run "info" scripted_now scripted_file scripted_remove two_voters
          "vol" "rbd" "img" [] None PNone (fresh [])).1
  = Raised CalledProcessError.
Proof.
  apply (backup_error_votes Script scripted_run "info" scripted_now scripted_file
           scripted_remove two_voters "vol" "rbd" "img" [] None PNone (fresh [])
           CalledProcessError
           {| world := [];
              commands := [["rbd" : pyval; "snap" : pyval; "ls" : pyval;
                            "--format=json" : pyval; "rbd/img" : pyval]] |}
           eq_refl eq_refl).
  exists (PInt 1). split; [|done]. vm_compute. apply elem_of_cons. right. apply elem_of_cons. by left.
Defined.

Lemma no_receiver_raises_TypeError_witness :
  (snapshot_create Script scripted_run nobody "vol" "rbd" "img" "b-1" PNone (fresh [])).1
    = Raised (no_initial_value CalledProcessError) /\
  (backup Script scripted_run "info" scripted_now scripted_file scripted_remove nobody
          "vol" "rbd" "img" [] None PNone (fresh [])).1
    = Raised (no_initial_value CalledProcessError) /\
  (restore Script scripted_run "info" nobody "V1" "rbd" "img" PNone (fresh [])).1
    = Raised (no_initial_value CalledProcessError).
Proof.
  pose proof (no_receiver_raises_TypeError Script scripted_run "info" scripted_now
                scripted_file scripted_remove nobody "vol" "rbd" "img" "b-1" PNone [] None
                "V1" (fresh []) CalledProcessError eq_refl)
    as (Hs & Hb & Hr & _).
  exact (conj (Hs _ eq_refl eq_refl) (conj (Hb _ eq_refl eq_refl) (Hr _ eq_refl eq_refl))).
Defined.




Lemma backup_returns_from_try_witness :
  (backup Script scripted_run "info" scripted_now scripted_file scripted_remove two_voters
          "vol" "rbd" "img" [] None PNone (fresh no_valid_version)).1
  = Returned (PDict [("versions", PList [PDict [("uid", PStr "V2")]])]).
Proof.
  destruct (backup_returns_from_try Script scripted_run "info" scripted_now scripted_file
              scripted_remove two_voters "vol" "rbd" "img" [] None PNone
              (fresh no_valid_version) _ _ eq_refl) as (result & Hc & ->).
  simpl. by injection Hc as <-.
Defined.

(** The command is interrupted from the keyboard. *)
Definition KeyboardInterrupt : exn := Exn "KeyboardInterrupt" EmptyString.

Lemma other_exceptions_pass_through_witness :
  backup Script scripted_run "info" scripted_now scripted_file scripted_remove two_voters
         "vol" "rbd" "img" [] None PNone (fresh [Raised KeyboardInterrupt])
  = (Raised KeyboardInterrupt,
     {| world := [];
        commands := [["rbd" : pyval; "snap" : pyval; "ls" : pyval;
                      "--format=json" : pyval; "rbd/img" : pyval]] |}).
Proof.
  apply (other_exceptions_pass_through Script scripted_run "info" scripted_now scripted_file
           scripted_remove two_voters "vol" "rbd" "img" "b-1" PNone [] None "V1"
           (fresh [Raised KeyboardInterrupt]) KeyboardInterrupt eq_refl).
  reflexivity.
Defined.

(** Receivers that answer [replies] on one signal, none elsewhere. *)
Definition voters (on : string) (replies : list pyval) (signal : string)
  : list (Receiver Script) :=
  if String.eqb signal on then says <$> replies else [].

Lemma benjis_snapshots_of_filters_witness :
  benjis_snapshots_of
    [PDict [("name", PStr "b-old")]; PDict [("name", PStr "manual")];
     PDict [("id", PInt 3); ("name", PStr "b-new")]]
  = Returned ["b-old"; "b-new"].
Proof.
  apply (benjis_snapshots_of_filters _ ["b-old"; "manual"; "b-new"]).
  repeat constructor; eexists; (split; [reflexivity|reflexivity]).
Defined.

Lemma benjis_snapshots_of_missing_name_witness :
  benjis_snapshots_of
    [PDict [("name", PStr "b-old")]; PDict [("id", PInt 3)]; PList []]
  = Raised (KeyError "name").
Proof.
  apply (benjis_snapshots_of_missing_name [PDict [("name", PStr "b-old")]] ["b-old"]
           [("id", PInt 3)] [PList []]); [|reflexivity].
  repeat constructor; eexists; (split; [reflexivity|reflexivity]).
Defined.

Lemma snapshot_create_error_votes_witness :
  (snapshot_create Script scripted_run
     (voters signal_snapshot_create_post_error [PInt 0; PStr EmptyString])
     "vol" "rbd" "img" "b-1" PNone (fresh [])).1
  = Returned PNone.
Proof.
  apply (snapshot_create_error_votes Script scripted_run "info" scripted_now scripted_remove
           (voters signal_snapshot_create_post_error [PInt 0; PStr EmptyString])
           "vol" "rbd" "img" "b-1" PNone (fresh []) CalledProcessError [] eq_refl eq_refl).
  split; [done|]. intros (reply & Hin & Ht). vm_compute in Hin.
  apply elem_of_cons in Hin as [->|Hin]; [done|].
  apply elem_of_cons in Hin as [->|Hin]; [done|].
  by apply elem_of_nil in Hin.
Defined.

Lemma restore_error_votes_witness :
  (restore Script scripted_run "info" (voters signal_restore_post_error [PNone; PBool true])
           "V1" "rbd" "img" PNone (fresh [])).1
  = Raised CalledProcessError.
Proof.
  apply (restore_error_votes Script scripted_run "info" scripted_now scripted_remove
           (voters signal_restore_post_error [PNone; PBool true])
           "V1" "rbd" "img" PNone (fresh []) CalledProcessError
           {| world := [];
              commands := [benji "info" ++ ["restore" : pyval; "--sparse" : pyval;
                                            "--force" : pyval; "V1" : pyval;
                                            "rbd:rbd/img" : pyval]] |}
           eq_refl eq_refl).
  exists (PBool true). split; [|done]. vm_compute. apply elem_of_cons. right.
  apply elem_of_cons. by left.
Defined.

Lemma restore_returns_None_witness :
  (restore Script scripted_run "info" nobody "V1" "rbd" "img" PNone
           (fresh [Returned (PStr "restored")])).1
  = Returned PNone.
Proof.
  by rewrite (restore_returns_None Script scripted_run "info" nobody "V1" "rbd" "img" PNone
                (fresh [Returned (PStr "restored")]) (PStr "restored") _ eq_refl).
Defined.

(** The image has one snapshot, made by somebody else. *)
Definition foreign_snapshot : Script :=
  [Returned (PList [PDict [("name", PStr "manual")]]);
   Returned (PStr EmptyString);
   Returned (PStr "[]");
   Returned (PDict [("versions", PList [PDict [("uid", PStr "V1")]])])].

Lemma no_own_snapshot_means_initial_backup_witness :
  commands (backup_try Script scripted_run "info" scripted_now scripted_file scripted_remove
                       nobody "vol" "rbd" "img" [] None PNone (fresh foreign_snapshot)).2
  = [["rbd" : pyval; "snap" : pyval; "ls" : pyval; "--format=json" : pyval; "rbd/img" : pyval];
     ["rbd" : pyval; "snap" : pyval; "create" : pyval; "rbd/img@b-2020-02-02T02:02:02Z" : pyval];
     ["rbd" : pyval; "diff" : pyval; "--whole-object" : pyval; "--format=json" : pyval;
      "rbd/img@b-2020-02-02T02:02:02Z" : pyval];
     ["benji" : pyval; "--machine-output" : pyval; "--log-level" : pyval; "info" : pyval;
      "backup" : pyval; "--snapshot" : pyval; "b-2020-02-02T02:02:02Z" : pyval;
      "--rbd-hints" : pyval; "/tmp/rbd_hints" : pyval;
      "rbd:rbd/img@b-2020-02-02T02:02:02Z" : pyval; "vol" : pyval]].
Proof.
  rewrite (no_own_snapshot_means_initial_backup Script scripted_run "info" scripted_now
             scripted_file scripted_remove nobody "vol" "rbd" "img" [] None PNone
             (fresh foreign_snapshot) _ _ [PDict [("name", PStr "manual")]]
             eq_refl eq_refl).
  - reflexivity.
  - repeat constructor. exists "manual". split; [|reflexivity].
    eexists. split; reflexivity.
Defined.

Lemma backup_initial_goes_on_without_snapshot_witness :
  exists cs,
    commands (backup_initial Script scripted_run "info" scripted_now scripted_file
                scripted_remove (voters signal_snapshot_create_post_error [PBool false])
                "vol" "rbd" "img" [] None PNone (fresh [])).2
    = [] ++ [["rbd" : pyval; "snap" : pyval; "create" : pyval;
              "rbd/img@b-2020-02-02T02:02:02Z" : pyval];
             ["rbd" : pyval; "diff" : pyval; "--whole-object" : pyval; "--format=json" : pyval;
              "rbd/img@b-2020-02-02T02:02:02Z" : pyval]] ++ cs.
Proof.
  apply (backup_initial_goes_on_without_snapshot Script scripted_run "info" scripted_now
           scripted_file scripted_remove (voters signal_snapshot_create_post_error [PBool false])
           "vol" "rbd" "img" [] None PNone (fresh []) CalledProcessError [] eq_refl eq_refl).
  - discriminate.
  - intros reply Hin. vm_compute in Hin.
    apply elem_of_cons in Hin as [->|Hin]; [done|]. by apply elem_of_nil in Hin.
Defined.

(** No operation of the script sends [restore_pre]: [restore] sends
    [snapshot_create_pre] where its own pre-signal would be.  Whoever is
    connected to [restore_pre] is never called, so two registries that
    differ there only give the same runs. *)
Theorem restore_pre_is_never_sent
    (World : Type)
    (subprocess_run : list pyval -> option Z -> bool -> World -> outcome pyval * World)
    (benji_log_level : string) (utcnow_strftime : string -> World -> string)
    (named_temporary_file : pyval -> World -> outcome string * World)
    (remove_file : string -> World -> World)
    (receivers_for receivers_for' : string -> list (Receiver World)) :
  (forall signal, signal <> signal_restore_pre -> receivers_for signal = receivers_for' signal) ->
  (forall volume pool image snapshot context st,
     snapshot_create World subprocess_run receivers_for volume pool image snapshot context st
     = snapshot_create World subprocess_run receivers_for' volume pool image snapshot context st) /\
  (forall volume pool image version_labels version_uid context st,
     backup World subprocess_run benji_log_level utcnow_strftime named_temporary_file
            remove_file receivers_for volume pool image version_labels version_uid context st
     = backup World subprocess_run benji_log_level utcnow_strftime named_temporary_file
              remove_file receivers_for' volume pool image version_labels version_uid context st) /\
  (forall version_uid pool image context st,
     restore World subprocess_run benji_log_level receivers_for version_uid pool image context st
     = restore World subprocess_run benji_log_level receivers_for' version_uid pool image
               context st).
Proof.
  intros Hsame.
  pose proof (Hsame signal_snapshot_create_pre ltac:(done)) as Hcreate_pre.
  pose proof (Hsame signal_snapshot_create_post_success ltac:(done)) as Hcreate_success.
  pose proof (Hsame signal_snapshot_create_post_error ltac:(done)) as Hcreate_error.
  pose proof (Hsame signal_backup_pre ltac:(done)) as Hbackup_pre.
  pose proof (Hsame signal_backup_post_success ltac:(done)) as Hbackup_success.
  pose proof (Hsame signal_backup_post_error ltac:(done)) as Hbackup_error.
  pose proof (Hsame signal_restore_post_success ltac:(done)) as Hrestore_success.
  pose proof (Hsame signal_restore_post_error ltac:(done)) as Hrestore_error.
  split_and!.
  - intros. unfold snapshot_create, vote_on_error, send.
    by rewrite Hcreate_pre, Hcreate_success, Hcreate_error.
  - intros. unfold backup, backup_try, backup_from_snapshot, backup_differential,
      backup_initial, snapshot_create, vote_on_error, send.
    by rewrite Hcreate_pre, Hcreate_success, Hcreate_error,
      Hbackup_pre, Hbackup_success, Hbackup_error.
  - intros. unfold restore, vote_on_error, send.
    by rewrite Hcreate_pre, Hrestore_success, Hrestore_error.
Qed.

(** A receiver on [restore_pre] and nowhere else. *)
Definition on_restore_pre (signal : string) : list (Receiver Script) :=
  if String.eqb signal signal_restore_pre then [says (PBool true)] else [].

Lemma restore_pre_is_never_sent_witness :
  restore Script scripted_run "info" nobody "V1" "rbd" "img" PNone (fresh [])
  = restore Script scripted_run "info" on_restore_pre "V1" "rbd" "img" PNone (fresh []).
Proof.
  apply (restore_pre_is_never_sent Script scripted_run "info" scripted_now scripted_file
           scripted_remove nobody on_restore_pre).
  intros signal Hne. unfold nobody, on_restore_pre.
  by destruct (String.eqb_spec signal signal_restore_pre).
Defined.

(** The commands of the whole backup in that environment: the newest
    snapshot is removed and the backup made has no base version. *)
Example backup_without_valid_version :
  commands (backup Script scripted_run "info" scripted_now scripted_file scripted_remove
                   nobody "vol" "rbd" "img" [] None PNone (fresh no_valid_version)).2
  = [["rbd" : pyval; "snap" : pyval; "ls" : pyval; "--format=json" : pyval; "rbd/img" : pyval];
     ["rbd" : pyval; "snap" : pyval; "rm" : pyval; "rbd/img@b-old" : pyval];
     benji_ls "info" "vol" "b-new";
     ["rbd" : pyval; "snap" : pyval; "rm" : pyval; "rbd/img@b-new" : pyval];
     ["rbd" : pyval; "snap" : pyval; "create" : pyval; "rbd/img@b-2020-02-02T02:02:02Z" : pyval];
     ["rbd" : pyval; "diff" : pyval; "--whole-object" : pyval; "--format=json" : pyval;
      "rbd/img@b-2020-02-02T02:02:02Z" : pyval];
     ["benji" : pyval; "--machine-output" : pyval; "--log-level" : pyval; "info" : pyval;
      "backup" : pyval; "--snapshot" : pyval; "b-2020-02-02T02:02:02Z" : pyval;
      "--rbd-hints" : pyval; "/tmp/rbd_hints" : pyval;
      "rbd:rbd/img@b-2020-02-02T02:02:02Z" : pyval; "vol" : pyval]].
Proof. reflexivity. Qed.

End Ceph.

(** ** Status lists of the operator *)

Module Resources.

(** Lists and dictionaries are objects in a store, and values refer to
    them by address: two names for one list see each other's updates. *)
Definition loc : Type := positive.

Inductive val : Type :=
| VNone
| VInt (z : Z)
| VStr (s : string)
| VRef (l : loc).

Inductive obj : Type :=
| OList (items : list val)
| ODict (d : gmap string val)
| OModel (attributes : gmap string val).   (* an object of the Kubernetes client *)

Abbreviation heap := (gmap loc obj).

(** Reading and writing the store. *)
Definition H (A : Type) : Type := heap -> outcome A * heap.

Definition ret {A : Type} (a : A) : H A := fun h => (Returned a, h).

Definition raise {A : Type} (e : exn) : H A := fun h => (Raised e, h).

Definition bind {A B : Type} (m : H A) (k : A -> H B) : H B :=
  fun h =>
    match m h with
    | (Returned a, h') => k a h'
    | (Raised e, h') => (Raised e, h')
    end.

Notation "'let*' x ':=' m 'in' k" := (bind m (fun x => k))
  (at level 10, x name, m at level 100, k at level 200).

(** An operation that only reads the store. *)
Definition reading {A : Type} (f : heap -> outcome A) : H A := fun h => (f h, h).

(** A new object, at an address not in use. *)
Definition alloc (o : obj) : H val :=
  fun h => let l := fresh (dom h) in (Returned (VRef l), <[l := o]> h).

(** [v[k]] for a string key. *)
Definition getitem (v : val) (k : string) (h : heap) : outcome val :=
  match v with
  | VRef l =>
    match h !! l with
    | Some (ODict d) =>
      match d !! k with
      | Some x => Returned x
      | None => Raised (KeyError k)
      end
    | Some (OList _) => Raised (TypeError "list indices must be integers or slices, not str")
    | _ => Raised (TypeError "object is not subscriptable")
    end
  | VStr _ => Raised (TypeError "string indices must be integers")
  | _ => Raised (TypeError "object is not subscriptable")
  end.

(** [a == b]: numbers and strings by value, lists and dictionaries by
    their contents.  [None] as a result is a comparison nested deeper
    than the interpreter allows. *)
Fixpoint all_equal (eq : val -> val -> option bool) (pairs : list (val * val)) : option bool :=
  match pairs with
  | [] => Some true
  | (a, b) :: rest =>
    match eq a b with
    | Some true => all_equal eq rest
    | r => r
    end
  end.

Fixpoint py_eq_depth (n : nat) (h : heap) (a b : val) : option bool :=
  match a, b with
  | VNone, VNone => Some true
  | VInt x, VInt y => Some (bool_decide (x = y))
  | VStr s, VStr t => Some (bool_decide (s = t))
  | VRef la, VRef lb =>
    if decide (la = lb) then Some true
    else
      match n with
      | O => None
      | S n' =>
        match h !! la, h !! lb with
        | Some (OList xs), Some (OList ys) =>
          if decide (length xs = length ys)
          then all_equal (py_eq_depth n' h) (zip xs ys)
          else Some false
        | Some (ODict d), Some (ODict e) =>
          if decide (dom d = dom e)
          then all_equal (py_eq_depth n' h) ((map_to_list (map_zip d e)).*2)
          else Some false
        | _, _ => Some false
        end
      end
  | _, _ => Some false
  end.

Definition recursion_limit : nat := 1000.

Definition py_eq (a b : val) (h : heap) : outcome bool :=
  match py_eq_depth recursion_limit h a b with
  | Some r => Returned r
  | None => Raised (Exn "RecursionError" "maximum recursion depth exceeded in comparison")
  end.

Section StatusList.

(** [benji.k8s_operator.constants.RESOURCE_STATUS_LIST_OBJECT_REFERENCE]. *)
Variable RESOURCE_STATUS_LIST_OBJECT_REFERENCE : string.

(** [resource.to_dict()] of the Kubernetes client: the dictionary made
    from a client object.  It builds new objects and leaves the existing
    ones alone. *)
Variable to_dict : val -> H val.
Hypothesis to_dict_allocates : forall v h o h', to_dict v h = (o, h') -> h ⊆ h'.

(** [hasattr(resource, 'to_dict')]. *)
Definition has_to_dict (resource : val) (h : heap) : bool :=
  match resource with
  | VRef l => match h !! l with Some (OModel _) => true | _ => false end
  | _ => false
  end.

(** [if hasattr(resource, 'to_dict'): resource_dict = resource.to_dict()]
    and [else: resource_dict = resource]. *)
Definition resource_dict_of (resource : val) : H val :=
  fun h => if has_to_dict resource h then to_dict resource h else ret resource h.

(** The three entries of the dictionary [reference] in [create_object_ref],
    read from [resource_dict['metadata']]; the source evaluates
    [resource_dict['metadata']] once for each entry, in a store that does
    not change in between. *)
Definition reference_of (resource_dict : val) (h : heap) : outcome (gmap string val) :=
  match getitem resource_dict "metadata" h with
  | Raised e => Raised e
  | Returned metadata =>
    match getitem metadata "name" h with
    | Raised e => Raised e
    | Returned name =>
      match getitem metadata "namespace" h with
      | Raised e => Raised e
      | Returned namespace =>
        match getitem metadata "uid" h with
        | Raised e => Raised e
        | Returned uid =>
          Returned {[ "name" := name; "namespace" := namespace; "uid" := uid ]}
        end
      end
    end
  end.

Definition create_object_ref (resource_dict : val) (include_gvk : bool) : H val :=
  let* fields := reading (reference_of resource_dict) in
  if include_gvk then
    let* api_version := reading (getitem resource_dict "apiVersion") in
    let* kind := reading (getitem resource_dict "kind") in
    alloc (ODict ({[ "apiVersion" := api_version; "kind" := kind ]} ∪ fields))
  else
    alloc (ODict fields).

(** [value[RESOURCE_STATUS_LIST_OBJECT_REFERENCE]['uid'] == resource_dict['metadata']['uid']]. *)
Definition same_uid (resource_dict value : val) (h : heap) : outcome bool :=
  match getitem value RESOURCE_STATUS_LIST_OBJECT_REFERENCE h with
  | Raised e => Raised e
  | Returned reference =>
    match getitem reference "uid" h with
    | Raised e => Raised e
    | Returned uid =>
      match getitem resource_dict "metadata" h with
      | Raised e => Raised e
      | Returned metadata =>
        match getitem metadata "uid" h with
        | Raised e => Raised e
        | Returned resource_uid => py_eq uid resource_uid h
        end
      end
    end
  end.

(** The [for i, value in enumerate(new_lst)] loop up to its [break]:
    the index at which it breaks, or [None] when it runs to its [else]. *)
Fixpoint find_entry (resource_dict : val) (items : list val) (i : nat) (h : heap)
  : outcome (option nat) :=
  match items with
  | [] => Returned None
  | value :: rest =>
    match same_uid resource_dict value h with
    | Raised e => Raised e
    | Returned true => Returned (Some i)
    | Returned false => find_entry resource_dict rest (S i) h
    end
  end.

(** [list(lst)].  The parameter is declared [List]; another argument is
    outside this embedding and reported as not iterable. *)
Definition list_copy (lst : val) : H val :=
  fun h =>
    match lst with
    | VRef l =>
      match h !! l with
      | Some (OList items) => alloc (OList items) h
      | _ => (Raised (TypeError "object is not iterable"), h)
      end
    | _ => (Raised (TypeError "object is not iterable"), h)
    end.

Definition list_items (lst : val) (h : heap) : outcome (list val) :=
  match lst with
  | VRef l =>
    match h !! l with
    | Some (OList items) => Returned items
    | _ => Raised (TypeError "object is not a list")
    end
  | _ => Raised (TypeError "object is not a list")
  end.

(** [lst[i] = v]. *)
Definition list_setitem (lst : val) (i : nat) (v : val) : H unit :=
  fun h =>
    match lst with
    | VRef l =>
      match h !! l with
      | Some (OList items) =>
        if decide (i < length items)
        then (Returned tt, <[l := OList (<[i := v]> items)]> h)
        else (Raised (Exn "IndexError" "list assignment index out of range"), h)
      | _ => (Raised (TypeError "object does not support item assignment"), h)
      end
    | _ => (Raised (TypeError "object does not support item assignment"), h)
    end.

(** [lst.append(v)]. *)
Definition list_append (lst : val) (v : val) : H unit :=
  fun h =>
    match lst with
    | VRef l =>
      match h !! l with
      | Some (OList items) => (Returned tt, <[l := OList (items ++ [v])]> h)
      | _ => (Raised (AttributeError "object has no attribute 'append'"), h)
      end
    | _ => (Raised (AttributeError "object has no attribute 'append'"), h)
    end.

(** [lst[i]], and [lst[-1]]. *)
Definition list_getitem (lst : val) (i : nat) (h : heap) : outcome val :=
  match list_items lst h with
  | Raised e => Raised e
  | Returned items =>
    match items !! i with
    | Some v => Returned v
    | None => Raised (Exn "IndexError" "list index out of range")
    end
  end.

Definition list_last (lst : val) (h : heap) : outcome val :=
  match list_items lst h with
  | Raised e => Raised e
  | Returned items =>
    match last items with
    | Some v => Returned v
    | None => Raised (Exn "IndexError" "list index out of range")
    end
  end.

(** [target.update(extra_data)].  The parameter is declared
    [Dict[str, Any]]; another argument is outside this embedding and
    reported as not iterable. *)
Definition dict_update (target extra_data : val) : H unit :=
  fun h =>
    match target, extra_data with
    | VRef t, VRef x =>
      match h !! t, h !! x with
      | Some (ODict d), Some (ODict extra) => (Returned tt, <[t := ODict (extra ∪ d)]> h)
      | Some (ODict _), _ => (Raised (TypeError "object is not iterable"), h)
      | _, _ => (Raised (AttributeError "object has no attribute 'update'"), h)
      end
    | VRef t, _ =>
      match h !! t with
      | Some (ODict _) => (Raised (TypeError "object is not iterable"), h)
      | _ => (Raised (AttributeError "object has no attribute 'update'"), h)
      end
    | _, _ => (Raised (AttributeError "object has no attribute 'update'"), h)
    end.

(** [{RESOURCE_STATUS_LIST_OBJECT_REFERENCE: create_object_ref(resource_dict, include_gvk=False)}]. *)
Definition new_entry (resource_dict : val) : H val :=
  let* reference := create_object_ref resource_dict false in
  alloc (ODict {[ RESOURCE_STATUS_LIST_OBJECT_REFERENCE := reference ]}).

Definition update_status_list (lst resource extra_data : val) : H val :=
  let* resource_dict := resource_dict_of resource in
  let* new_lst := list_copy lst in
  let* items := reading (list_items new_lst) in
  let* found := reading (find_entry resource_dict items 0) in
  let* _ :=
    match found with
    | Some i =>
      let* entry := new_entry resource_dict in
      let* _ := list_setitem new_lst i entry in
      let* target := reading (list_getitem new_lst i) in
      dict_update target extra_data
    | None =>
      let* entry := new_entry resource_dict in
      let* _ := list_append new_lst entry in
      let* target := reading (list_last new_lst) in
      dict_update target extra_data
    end in
  ret new_lst.

(** An entry of a status list as the operator writes it, and a resource
    as the API hands it over, with strings for uids. *)
Definition entry_with_uid (h : heap) (v : val) : Prop :=
  exists e d r reference u,
    v = VRef e /\ h !! e = Some (ODict d) /\
    d !! RESOURCE_STATUS_LIST_OBJECT_REFERENCE = Some (VRef r) /\
    h !! r = Some (ODict reference) /\ reference !! "uid" = Some (VStr u).

Definition resource_with_metadata (h : heap) (resource : val) : Prop :=
  exists r d m metadata name namespace u,
    resource = VRef r /\ h !! r = Some (ODict d) /\
    d !! "metadata" = Some (VRef m) /\ h !! m = Some (ODict metadata) /\
    metadata !! "name" = Some name /\ metadata !! "namespace" = Some namespace /\
    metadata !! "uid" = Some (VStr u).

(** The items of the list a call returns. *)
Definition updated (items : list val) (found : option nat) (entry : val) : list val :=
  match found with
  | Some i => <[i := entry]> items
  | None => items ++ [entry]
  end.

(** *** The loop *)

Lemma fresh_lookup (h : heap) : h !! fresh (dom h) = None.
Proof. apply not_elem_of_dom, is_fresh. Qed.

Lemma insert_fresh_subseteq (h : heap) (o : obj) : h ⊆ <[fresh (dom h) := o]> h.
Proof. apply insert_subseteq, fresh_lookup. Qed.

Lemma find_entry_spec resource_dict h items : forall k found,
  find_entry resource_dict items k h = Returned found ->
  match found with
  | Some i =>
    exists j v, i = k + j /\ items !! j = Some v /\
      same_uid resource_dict v h = Returned true /\
      forall j' v', j' < j -> items !! j' = Some v' ->
        same_uid resource_dict v' h = Returned false
  | None =>
    forall j v, items !! j = Some v -> same_uid resource_dict v h = Returned false
  end.
Proof.
  induction items as [|value rest IH]; intros k found Hfind; simpl in Hfind.
  { simplify_eq. by intros j v. }
  destruct (same_uid resource_dict value h) as [[|]|e] eqn:Hsame; [| |done].
  - simplify_eq. exists 0, value. split; [lia|]. split; [done|]. split; [done|].
    intros j' v' Hj'. lia.
  - specialize (IH _ _ Hfind). destruct found as [i|].
    + destruct IH as (j & v & -> & Hv & Htrue & Hfalse).
      exists (S j), v. split; [lia|]. split; [done|]. split; [done|].
      intros [|j'] v' Hj' Hv'; simplify_eq/=; [done|]. apply (Hfalse j'); [lia|done].
    + intros [|j] v Hv; simplify_eq/=; [done|]. by apply (IH j).
Qed.

(** *** What a call does to the store *)

Lemma resource_dict_of_allocates resource h o h' :
  resource_dict_of resource h = (o, h') -> h ⊆ h'.
Proof.
  unfold resource_dict_of, ret. destruct (has_to_dict resource h).
  - apply to_dict_allocates.
  - by intros [= <- <-].
Qed.

Lemma update_status_list_run l items x extra resource resource_dict h h0 :
  h !! l = Some (OList items) ->
  h !! x = Some (ODict extra) ->
  resource_dict_of resource h = (Returned resource_dict, h0) ->
  let nl := fresh (dom h0) in
  let hl := <[nl := OList items]> h0 in
  update_status_list (VRef l) resource (VRef x) h =
    match find_entry resource_dict items 0 hl with
    | Raised e => (Raised e, hl)
    | Returned found =>
      match reference_of resource_dict hl with
      | Raised e => (Raised e, hl)
      | Returned fields =>
        let rl := fresh (dom hl) in
        let hr := <[rl := ODict fields]> hl in
        let el := fresh (dom hr) in
        (Returned (VRef nl),
         <[el := ODict (extra ∪ {[ RESOURCE_STATUS_LIST_OBJECT_REFERENCE := VRef rl ]})]>
           (<[nl := OList (updated items found (VRef el))]>
              (<[el := ODict {[ RESOURCE_STATUS_LIST_OBJECT_REFERENCE := VRef rl ]}]> hr)))
      end
    end.
Proof.
  intros Hl Hx Hrd nl hl.
  pose proof (resource_dict_of_allocates _ _ _ _ Hrd) as Hsub.
  pose proof (lookup_weaken _ _ _ _ Hl Hsub) as Hl0.
  pose proof (lookup_weaken _ _ _ _ Hx Hsub) as Hx0.
  pose proof (fresh_lookup h0) as Hnl. fold nl in Hnl.
  unfold update_status_list. unfold bind at 1. rewrite Hrd.
  unfold bind at 1. unfold list_copy. rewrite Hl0. unfold alloc. fold nl hl.
  assert (hl !! nl = Some (OList items)) as Hnl' by apply lookup_insert_eq.
  unfold bind at 1. unfold reading at 1. unfold list_items at 1. rewrite Hnl'.
  unfold bind at 1. unfold reading at 1.
  destruct (find_entry resource_dict items 0 hl) as [found|e] eqn:Hfind; [|done].
  apply find_entry_spec in Hfind.
  unfold new_entry, create_object_ref.
  destruct (reference_of resource_dict hl) as [fields|e] eqn:Href.
  2:{ destruct found; unfold bind, reading; by rewrite Href. }
  set (rl := fresh (dom hl)). set (hr := <[rl := ODict fields]> hl).
  set (el := fresh (dom hr)).
  set (he := <[el := ODict {[ RESOURCE_STATUS_LIST_OBJECT_REFERENCE := VRef rl ]}]> hr).
  pose proof (fresh_lookup hl) as Hrl. fold rl in Hrl.
  pose proof (fresh_lookup hr) as Hel. fold el in Hel.
  assert (rl <> nl) as Hrn by (intros Heq; rewrite Heq in Hrl; congruence).
  assert (el <> rl) as Her.
  { intros Heq. unfold hr in Hel. rewrite Heq, lookup_insert_eq in Hel. done. }
  assert (el <> nl) as Hen.
  { intros Heq. unfold hr in Hel. rewrite Heq, lookup_insert_ne in Hel by done. congruence. }
  assert (x <> nl) as Hxn by (intros Heq; rewrite Heq in Hx0; congruence).
  assert (hl !! x = Some (ODict extra)) as Hxl
    by (unfold hl; by rewrite lookup_insert_ne).
  assert (x <> rl) as Hxr by (intros Heq; rewrite Heq in Hxl; congruence).
  assert (hr !! x = Some (ODict extra)) as Hxh
    by (unfold hr; by rewrite lookup_insert_ne).
  assert (x <> el) as Hxe by (intros Heq; rewrite Heq in Hxh; congruence).
  assert (he !! nl = Some (OList items)) as Hnle.
  { unfold he, hr. by rewrite !lookup_insert_ne. }
  assert (forall items',
            dict_update (VRef el) (VRef x) (<[nl := OList items']> he) =
            (Returned tt,
             <[el := ODict (extra ∪ {[ RESOURCE_STATUS_LIST_OBJECT_REFERENCE := VRef rl ]})]>
               (<[nl := OList items']> he))) as Hupdate.
  { intros items'. unfold dict_update.
    rewrite (lookup_insert_ne _ nl el) by done.
    rewrite (lookup_insert_ne _ nl x) by done.
    assert (he !! el = Some (ODict {[ RESOURCE_STATUS_LIST_OBJECT_REFERENCE := VRef rl ]}))
      as -> by apply lookup_insert_eq.
    assert (he !! x = Some (ODict extra)) as ->
      by (unfold he; by rewrite lookup_insert_ne).
    done. }
  destruct found as [i|]; simpl updated.
  - destruct Hfind as (j & v & -> & Hv & _). change (0 + j) with j.
    pose proof (lookup_lt_Some _ _ _ Hv) as Hlt.
    unfold bind, reading, alloc. rewrite Href. fold rl hr el he.
    unfold list_setitem. rewrite Hnle, decide_True by done.
    unfold list_getitem, list_items. rewrite lookup_insert_eq.
    rewrite list_lookup_insert_eq by done. by rewrite Hupdate.
  - unfold bind, reading, alloc. rewrite Href. fold rl hr el he.
    unfold list_append. rewrite Hnle.
    unfold list_last, list_items. rewrite lookup_insert_eq, last_snoc.
    by rewrite Hupdate.
Qed.

Lemma update_status_list_conversion_failed lst resource extra_data h e h0 :
  resource_dict_of resource h = (Raised e, h0) ->
  update_status_list lst resource extra_data h = (Raised e, h0).
Proof. intros Hrd. unfold update_status_list, bind. by rewrite Hrd. Qed.

Lemma py_eq_strings a b h :
  py_eq (VStr a) (VStr b) h = Returned (bool_decide (a = b)).
Proof. reflexivity. Qed.

Lemma same_uid_well_formed h h' resource v :
  h ⊆ h' -> resource_with_metadata h resource -> entry_with_uid h v ->
  exists b, same_uid resource v h' = Returned b.
Proof.
  intros Hsub (r & d & m & metadata & name & namespace & u
               & -> & Hr & Hm & Hmd & _ & _ & Hu)
         (e & d' & r' & reference & u' & -> & He & Hd' & Hr' & Hu').
  unfold same_uid, getitem.
  rewrite (lookup_weaken _ _ _ _ He Hsub), Hd'.
  rewrite (lookup_weaken _ _ _ _ Hr' Hsub), Hu'.
  rewrite (lookup_weaken _ _ _ _ Hr Hsub), Hm.
  rewrite (lookup_weaken _ _ _ _ Hmd Hsub), Hu.
  rewrite py_eq_strings. eauto.
Qed.

Lemma find_entry_well_formed h h' resource items : forall k,
  h ⊆ h' -> resource_with_metadata h resource -> Forall (entry_with_uid h) items ->
  exists found, find_entry resource items k h' = Returned found.
Proof.
  induction items as [|v rest IH]; intros k Hsub Hres Hall; simpl; [eauto|].
  apply Forall_cons in Hall as [Hv Hall].
  destruct (same_uid_well_formed h h' resource v Hsub Hres Hv) as [[|] ->]; eauto.
Qed.

Lemma resource_dict_of_dict h resource :
  resource_with_metadata h resource ->
  resource_dict_of resource h = (Returned resource, h).
Proof.
  intros (r & d & ? & ? & ? & ? & ? & -> & Hr & _).
  unfold resource_dict_of, has_to_dict. by rewrite Hr.
Qed.

(** *** Taking a resource off a status list *)

(** [for value in lst] of the comprehension.  The parameter is declared
    [List]; another argument is outside this embedding and reported as
    not iterable. *)
Definition iterate (lst : val) (h : heap) : outcome (list val) :=
  match lst with
  | VRef l =>
    match h !! l with
    | Some (OList items) => Returned items
    | _ => Raised (TypeError "object is not iterable")
    end
  | _ => Raised (TypeError "object is not iterable")
  end.

(** [[value for value in lst if not value[...]['uid'] == resource_dict['metadata']['uid']]]. *)
Fixpoint entries_without (resource_dict : val) (items : list val) (h : heap)
  : outcome (list val) :=
  match items with
  | [] => Returned []
  | value :: rest =>
    match same_uid resource_dict value h with
    | Raised e => Raised e
    | Returned same =>
      match entries_without resource_dict rest h with
      | Raised e => Raised e
      | Returned kept => Returned (if same then kept else value :: kept)
      end
    end
  end.

Definition delete_from_status_list (lst resource : val) : H val :=
  let* resource_dict := resource_dict_of resource in
  let* items := reading (iterate lst) in
  let* kept := reading (entries_without resource_dict items) in
  alloc (OList kept).

(** The entry is one of another resource. *)
Definition of_another (resource_dict : val) (h : heap) (value : val) : bool :=
  match same_uid resource_dict value h with
  | Returned false => true
  | _ => false
  end.



Lemma delete_from_status_list_run l items resource resource_dict h h0 :
  h !! l = Some (OList items) ->
  resource_dict_of resource h = (Returned resource_dict, h0) ->
  delete_from_status_list (VRef l) resource h =
    match entries_without resource_dict items h0 with
    | Raised e => (Raised e, h0)
    | Returned kept =>
      (Returned (VRef (fresh (dom h0))), <[fresh (dom h0) := OList kept]> h0)
    end.
Proof.
  intros Hl Hrd.
  pose proof (lookup_weaken _ _ _ _ Hl (resource_dict_of_allocates _ _ _ _ Hrd)) as Hl0.
  unfold delete_from_status_list. unfold bind at 1. rewrite Hrd.
  unfold bind at 1. unfold reading at 1. unfold iterate. rewrite Hl0.
  unfold bind, reading. by destruct (entries_without resource_dict items h0).
Qed.



(** *** Updating and then deleting *)

(** The uid, a string, that an entry refers to and that a resource has. *)
Definition entry_uid (h : heap) (v : val) (u : string) : Prop :=
  exists e d r reference,
    v = VRef e /\ h !! e = Some (ODict d) /\
    d !! RESOURCE_STATUS_LIST_OBJECT_REFERENCE = Some (VRef r) /\
    h !! r = Some (ODict reference) /\ reference !! "uid" = Some (VStr u).

Definition resource_uid (h : heap) (resource : val) (u : string) : Prop :=
  exists r d m metadata,
    resource = VRef r /\ h !! r = Some (ODict d) /\
    d !! "metadata" = Some (VRef m) /\ h !! m = Some (ODict metadata) /\
    metadata !! "uid" = Some (VStr u).

Lemma same_uid_strings h h' resource v u u' :
  h ⊆ h' -> resource_uid h resource u -> entry_uid h v u' ->
  same_uid resource v h' = Returned (bool_decide (u' = u)).
Proof.
  intros Hsub (r & d & m & metadata & -> & Hr & Hm & Hmd & Hu)
         (e & d' & r' & reference & -> & He & Hd' & Hr' & Hu').
  unfold same_uid, getitem.
  rewrite (lookup_weaken _ _ _ _ He Hsub), Hd'.
  rewrite (lookup_weaken _ _ _ _ Hr' Hsub), Hu'.
  rewrite (lookup_weaken _ _ _ _ Hr Hsub), Hm.
  rewrite (lookup_weaken _ _ _ _ Hmd Hsub), Hu.
  apply py_eq_strings.
Qed.

Lemma entry_with_uid_uid h v : entry_with_uid h v -> exists u, entry_uid h v u.
Proof. intros (e & d & r & reference & u & ?). exists u, e, d, r, reference. done. Qed.

Lemma resource_with_metadata_uid h resource :
  resource_with_metadata h resource -> exists u, resource_uid h resource u.
Proof.
  intros (r & d & m & metadata & name & namespace & u & ? & ? & ? & ? & _ & _ & ?).
  exists u, r, d, m, metadata. done.
Qed.

Lemma resource_with_metadata_weaken h h' resource :
  h ⊆ h' -> resource_with_metadata h resource -> resource_with_metadata h' resource.
Proof.
  intros Hsub (r & d & m & metadata & name & namespace & u
               & -> & Hr & Hm & Hmd & Hname & Hns & Hu).
  exists r, d, m, metadata, name, namespace, u.
  split_and!; try done; by eapply lookup_weaken.
Qed.

Lemma resource_uid_weaken h h' resource u :
  h ⊆ h' -> resource_uid h resource u -> resource_uid h' resource u.
Proof.
  intros Hsub (r & d & m & metadata & -> & Hr & Hm & Hmd & Hu).
  exists r, d, m, metadata. split_and!; try done; by eapply lookup_weaken.
Qed.

Lemma reference_of_uid h h' resource u :
  h ⊆ h' -> resource_with_metadata h resource -> resource_uid h resource u ->
  exists fields, reference_of resource h' = Returned fields /\
                 fields !! "uid" = Some (VStr u).
Proof.
  intros Hsub (r & d & m & metadata & name & namespace & u0
               & -> & Hr & Hm & Hmd & Hname & Hns & Hu0)
         (r' & d' & m' & metadata' & [= <-] & Hr' & Hm' & Hmd' & Hu).
  simplify_eq.
  unfold reference_of, getitem.
  rewrite (lookup_weaken _ _ _ _ Hr Hsub), Hm.
  rewrite (lookup_weaken _ _ _ _ Hmd Hsub), Hname, Hns, Hu0.
  eexists. split; [done|]. done.
Qed.

Lemma entries_without_filter resource_dict h items :
  Forall (fun value => exists same, same_uid resource_dict value h = Returned same) items ->
  entries_without resource_dict items h
  = Returned (List.filter (of_another resource_dict h) items).
Proof.
  induction 1 as [|value rest [same Hsame] _ IH]; [done|].
  cbn [entries_without List.filter]. rewrite Hsame, IH.
  unfold of_another. rewrite Hsame. by destruct same.
Qed.

Lemma filter_related {A : Type} (f g : A -> bool) (l k : list A) :
  Forall2 (fun a b => (f a = false /\ g b = false) \/ (a = b /\ f a = g b)) l k ->
  List.filter f l = List.filter g k.
Proof.
  induction 1 as [|a b l k [[Ha Hb]|[-> Hab]] _ IH]; [done| |]; cbn [List.filter].
  - by rewrite Ha, Hb.
  - rewrite Hab, IH. done.
Qed.

Lemma updated_store (h : heap) (items items' : list val) (fields extra : gmap string val) :
  let nl := fresh (dom h) in
  let hl := <[nl := OList items]> h in
  let rl := fresh (dom hl) in
  let hr := <[rl := ODict fields]> hl in
  let el := fresh (dom hr) in
  let h1 := <[el := ODict (extra ∪ {[ RESOURCE_STATUS_LIST_OBJECT_REFERENCE := VRef rl ]})]>
              (<[nl := OList items']>
                 (<[el := ODict {[ RESOURCE_STATUS_LIST_OBJECT_REFERENCE := VRef rl ]}]> hr)) in
  h ⊆ h1 /\ h1 !! nl = Some (OList items') /\ h1 !! rl = Some (ODict fields) /\
  h1 !! el = Some (ODict (extra ∪ {[ RESOURCE_STATUS_LIST_OBJECT_REFERENCE := VRef rl ]})).
Proof.
  intros nl hl rl hr el h1.
  pose proof (fresh_lookup h) as Hnl. fold nl in Hnl.
  pose proof (fresh_lookup hl) as Hrl. fold rl in Hrl.
  pose proof (fresh_lookup hr) as Hel. fold el in Hel.
  assert (rl <> nl) as Hrn.
  { intros Heq. unfold hl in Hrl. by rewrite Heq, lookup_insert_eq in Hrl. }
  assert (el <> rl) as Her.
  { intros Heq. unfold hr in Hel. by rewrite Heq, lookup_insert_eq in Hel. }
  assert (el <> nl) as Hen.
  { intros Heq. unfold hr, hl in Hel.
    by rewrite Heq, lookup_insert_ne, lookup_insert_eq in Hel. }
  assert (h !! rl = None) as Hrl0.
  { unfold hl in Hrl. by rewrite lookup_insert_ne in Hrl. }
  assert (h !! el = None) as Hel0.
  { unfold hr, hl in Hel. by rewrite !lookup_insert_ne in Hel. }
  unfold h1. split_and!.
  - apply map_subseteq_spec. intros k o Hk.
    assert (k <> nl) by congruence. assert (k <> rl) by congruence.
    assert (k <> el) by congruence.
    unfold hr, hl. by rewrite !lookup_insert_ne.
  - by rewrite lookup_insert_ne, lookup_insert_eq.
  - do 3 (rewrite lookup_insert_ne by (done || by apply not_eq_sym)).
    apply lookup_insert_eq.
  - apply lookup_insert_eq.
Qed.

(** Updating the status list for a resource and then deleting the
    resource from the result gives the entries that deleting it from the
    given list would have kept: the entry that the update wrote is found
    again by its uid and taken out, whether it replaced an entry or was
    added.  This needs extra data that do not bring an object reference
    of their own, which would replace the one just written. *)
Theorem delete_undoes_update
    (l x : loc) (items : list val) (extra : gmap string val) (resource : val) (h : heap) :
  h !! l = Some (OList items) ->
  h !! x = Some (ODict extra) ->
  extra !! RESOURCE_STATUS_LIST_OBJECT_REFERENCE = None ->
  resource_with_metadata h resource ->
  Forall (entry_with_uid h) items ->
  exists new_lst h1 dl,
    update_status_list (VRef l) resource (VRef x) h = (Returned new_lst, h1) /\
    h1 !! dl = None /\
    delete_from_status_list new_lst resource h1
    = (Returned (VRef dl), <[dl := OList (List.filter (of_another resource h) items)]> h1).
Proof.
  intros Hl Hx Hextra Hres Hall.
  destruct (resource_with_metadata_uid _ _ Hres) as [u Hu].
  pose proof (resource_dict_of_dict _ _ Hres) as Hrd.
  rewrite (update_status_list_run _ _ _ _ _ _ _ _ Hl Hx Hrd).
  set (nl := fresh (dom h)). set (hl := <[nl := OList items]> h).
  assert (h ⊆ hl) as Hhl by apply insert_fresh_subseteq.
  destruct (find_entry_well_formed _ hl _ items 0 Hhl Hres Hall) as [found Hfind].
  rewrite Hfind.
  destruct (reference_of_uid _ hl _ _ Hhl Hres Hu) as (fields & Href & Hfu).
  rewrite Href. cbv zeta.
  destruct (updated_store h items (updated items found (VRef (fresh (dom
              (<[fresh (dom hl) := ODict fields]> hl))))) fields extra)
    as (Hsub & Hn1 & Hr1 & He1).
  fold nl hl in Hsub, Hn1, Hr1, He1 |- *.
  set (rl := fresh (dom hl)) in *. set (hr := <[rl := ODict fields]> hl) in *.
  set (el := fresh (dom hr)) in *.
  set (h1 := <[el := _]> _) in *.
  exists (VRef nl), h1, (fresh (dom h1)).
  split; [done|]. split; [apply fresh_lookup|].
  pose proof (resource_with_metadata_weaken _ _ _ Hsub Hres) as Hres1.
  rewrite (delete_from_status_list_run _ _ _ _ _ _ Hn1 (resource_dict_of_dict _ _ Hres1)).
  assert (same_uid resource (VRef el) h1 = Returned true) as Hnew.
  { rewrite (same_uid_strings h1 h1 resource (VRef el) u u); [by rewrite bool_decide_eq_true_2|done| |].
    - by eapply resource_uid_weaken.
    - exists el, (extra ∪ {[ RESOURCE_STATUS_LIST_OBJECT_REFERENCE := VRef rl ]}), rl, fields.
      split_and!; try done.
      rewrite lookup_union_r by done. apply lookup_singleton_eq. }
  assert (forall v, entry_with_uid h v ->
            same_uid resource v h1 = same_uid resource v h /\
            exists same, same_uid resource v h = Returned same) as Hold.
  { intros v [u' Hv]%entry_with_uid_uid.
    rewrite (same_uid_strings h h1 resource v u u' Hsub Hu Hv).
    rewrite (same_uid_strings h h resource v u u' ltac:(done) Hu Hv). eauto. }
  assert (Forall2 (fun a b => (of_another resource h1 a = false /\
                               of_another resource h b = false) \/
                              (a = b /\ of_another resource h1 a = of_another resource h b))
                  items items) as Hdiag.
  { apply Forall_Forall2_diag. eapply Forall_impl; [exact Hall|].
    intros v Hv. right. split; [done|]. unfold of_another.
    by destruct (Hold v Hv) as [-> _]. }
  assert (Forall (fun value => exists same, same_uid resource value h1 = Returned same) items)
    as Hitems.
  { eapply Forall_impl; [exact Hall|]. intros v Hv.
    destruct (Hold v Hv) as [-> ?]. done. }
  assert (of_another resource h1 (VRef el) = false) as Hdrop
    by (unfold of_another; by rewrite Hnew).
  apply find_entry_spec in Hfind.
  destruct found as [i|]; cbn [updated].
  - destruct Hfind as (j & v & -> & Hv & Htrue & _). change (0 + j) with j.
    rewrite entries_without_filter.
    2:{ apply Forall_insert; [done|eauto]. }
    rewrite (filter_related (of_another resource h1) (of_another resource h)
               (<[j := VRef el]> items) items); [done|].
    rewrite <- (list_insert_id items j v Hv) at 2.
    apply Forall2_insert; [done|]. left. split; [done|].
    unfold of_another.
    assert (entry_with_uid h v) as Hwf by (eapply Forall_lookup_1; eauto).
    destruct (entry_with_uid_uid _ _ Hwf) as [u' Hu'].
    rewrite (same_uid_strings h hl resource v u u' Hhl Hu Hu') in Htrue.
    injection Htrue as Htrue.
    by rewrite (same_uid_strings h h resource v u u' ltac:(done) Hu Hu'), Htrue.
  - rewrite entries_without_filter.
    2:{ apply Forall_app. split; [done|]. constructor; [eauto|constructor]. }
    rewrite List.filter_app. cbn [List.filter]. rewrite Hdrop, app_nil_r.
    by rewrite (filter_related _ _ _ _ Hdiag).
Qed.

(** *** Object references *)

(** [create_object_ref] either raises and leaves the store as it was, or
    adds one new dictionary and nothing else: the name, the namespace and
    the uid of [resource_dict['metadata']], and with [include_gvk] also
    the [apiVersion] and the [kind] of the resource. *)
Theorem create_object_ref_allocates_one
    (resource_dict : val) (include_gvk : bool) (h : heap) :
  let result := create_object_ref resource_dict include_gvk h in
  match result.1 with
  | Raised e => result.2 = h
  | Returned reference =>
    exists l d metadata,
      reference = VRef l /\ h !! l = None /\ result.2 = <[l := ODict d]> h /\
      getitem resource_dict "metadata" h = Returned metadata /\
      (forall k, k ∈ ["name"; "namespace"; "uid"] ->
         exists v, getitem metadata k h = Returned v /\ d !! k = Some v) /\
      (forall k, k ∈ ["apiVersion"; "kind"] ->
         if include_gvk
         then exists v, getitem resource_dict k h = Returned v /\ d !! k = Some v
         else d !! k = None) /\
      dom d ⊆ {[ "name"; "namespace"; "uid"; "apiVersion"; "kind" ]}
  end.
Proof.
  cbv zeta.
  destruct (create_object_ref resource_dict include_gvk h) as [o h'] eqn:Hrun.
  unfold create_object_ref, bind, reading, reference_of, alloc in Hrun. simpl.
  destruct (getitem resource_dict "metadata" h) as [metadata|e] eqn:Hmd; [|by simplify_eq].
  destruct (getitem metadata "name" h) as [name|e] eqn:Hname; [|by simplify_eq].
  destruct (getitem metadata "namespace" h) as [namespace|e] eqn:Hns; [|by simplify_eq].
  destruct (getitem metadata "uid" h) as [uid|e] eqn:Huid; [|by simplify_eq].
  assert (forall k : string, k ∈ ["name"; "namespace"; "uid"] ->
            exists v, getitem metadata k h = Returned v /\
              ({[ "name" := name; "namespace" := namespace; "uid" := uid ]}
                 : gmap string val) !! k = Some v) as Hfields.
  { intros k Hk. repeat (apply elem_of_cons in Hk as [->|Hk]); [eauto..|].
    by apply elem_of_nil in Hk. }
  destruct include_gvk.
  - destruct (getitem resource_dict "apiVersion" h) as [api_version|e] eqn:Hav;
      [|by simplify_eq].
    destruct (getitem resource_dict "kind" h) as [kind|e] eqn:Hkind; [|by simplify_eq].
    simplify_eq. eexists _, _, metadata.
    split; [done|]. split; [apply fresh_lookup|]. split; [done|]. split; [done|].
    split_and!.
    + intros k Hk. destruct (Hfields k Hk) as (v & Hv & Hd). exists v. split; [done|].
      rewrite lookup_union_r; [done|].
      repeat (apply elem_of_cons in Hk as [->|Hk]); [done..|].
      by apply elem_of_nil in Hk.
    + intros k Hk. repeat (apply elem_of_cons in Hk as [->|Hk]); [eauto..|].
      by apply elem_of_nil in Hk.
    + set_solver.
  - simplify_eq. eexists _, _, metadata.
    split; [done|]. split; [apply fresh_lookup|]. split; [done|]. split; [done|].
    split_and!.
    + done.
    + intros k Hk. repeat (apply elem_of_cons in Hk as [->|Hk]); [done..|].
      by apply elem_of_nil in Hk.
    + rewrite !dom_insert, dom_singleton. intros k.
      rewrite !elem_of_union, !elem_of_singleton. tauto.
Qed.

(** *** The lists that the two operations return *)

Lemma update_status_list_not_a_list lst resource extra_data resource_dict h h0 :
  resource_dict_of resource h = (Returned resource_dict, h0) ->
  list_items lst h0 = Raised (TypeError "object is not a list") ->
  update_status_list lst resource extra_data h
  = (Raised (TypeError "object is not iterable"), h0).
Proof.
  intros Hrd Hlst. unfold update_status_list. unfold bind at 1. rewrite Hrd.
  unfold bind at 1. unfold list_copy. unfold list_items in Hlst.
  destruct lst as [| | |l]; try done.
  by destruct (h0 !! l) as [[]|].
Qed.

Lemma update_status_list_new_list lst resource x extra h o h' :
  h !! x = Some (ODict extra) ->
  (forall l, lst = VRef l -> is_Some (h !! l)) ->
  update_status_list lst resource (VRef x) h = (o, h') ->
  h ⊆ h' /\
  forall new_lst, o = Returned new_lst ->
    exists nl items', new_lst = VRef nl /\ h !! nl = None /\ h' !! nl = Some (OList items').
Proof.
  intros Hx Hlst Hrun.
  destruct (resource_dict_of resource h) as [[resource_dict|e] h0] eqn:Hrd.
  2:{ rewrite (update_status_list_conversion_failed _ _ _ _ _ _ Hrd) in Hrun.
      simplify_eq. split; [by eapply resource_dict_of_allocates|done]. }
  pose proof (resource_dict_of_allocates _ _ _ _ Hrd) as Hsub.
  destruct (list_items lst h) as [items|e] eqn:Hitems.
  - unfold list_items in Hitems. destruct lst as [| | |l]; try done.
    destruct (h !! l) as [[items0| |]|] eqn:Hl; simplify_eq.
    rewrite (update_status_list_run _ _ _ _ _ _ _ _ Hl Hx Hrd) in Hrun.
    cbv zeta in Hrun.
    assert (h0 ⊆ <[fresh (dom h0) := OList items]> h0) as Hhl
      by apply insert_fresh_subseteq.
    assert (h !! fresh (dom h0) = None) as Hnl.
    { eapply lookup_weaken_None; [apply fresh_lookup|done]. }
    destruct (find_entry _ _ _ _) as [found|e].
    2:{ simplify_eq. split; [by etrans|done]. }
    destruct (reference_of _ _) as [fields|e].
    2:{ simplify_eq. split; [by etrans|done]. }
    destruct (updated_store h0 items
                (updated items found (VRef (fresh (dom
                   (<[fresh (dom (<[fresh (dom h0) := OList items]> h0)) := ODict fields]>
                      (<[fresh (dom h0) := OList items]> h0))))))
                fields extra) as (Hsub1 & Hn1 & _).
    simplify_eq. split; [by etrans|]. intros new_lst [= <-]. eauto.
  - assert (list_items lst h0 = Raised (TypeError "object is not a list")) as Hnot.
    { unfold list_items in *. destruct lst as [| | |l]; try done.
      destruct (Hlst l eq_refl) as [o' Ho']. rewrite Ho' in Hitems.
      rewrite (lookup_weaken _ _ _ _ Ho' Hsub). by destruct o'. }
    rewrite (update_status_list_not_a_list _ _ _ _ _ _ Hrd Hnot) in Hrun.
    simplify_eq. done.
Qed.

Lemma delete_from_status_list_new_list lst resource h o h' :
  delete_from_status_list lst resource h = (o, h') ->
  h ⊆ h' /\
  forall new_lst, o = Returned new_lst ->
    exists nl items', new_lst = VRef nl /\ h !! nl = None /\ h' !! nl = Some (OList items').
Proof.
  unfold delete_from_status_list. unfold bind at 1.
  destruct (resource_dict_of resource h) as [[resource_dict|e] h0] eqn:Hrd.
  2:{ intros [= <- <-]. split; [by eapply resource_dict_of_allocates|done]. }
  pose proof (resource_dict_of_allocates _ _ _ _ Hrd) as Hsub.
  unfold bind, reading, alloc.
  destruct (iterate lst h0) as [items|e]; [|by intros [= <- <-]].
  destruct (entries_without resource_dict items h0) as [kept|e]; [|by intros [= <- <-]].
  intros [= <- <-]. split.
  - etrans; [exact Hsub|apply insert_fresh_subseteq].
  - intros new_lst [= <-]. eexists _, _. split; [done|]. split.
    + eapply lookup_weaken_None; [apply fresh_lookup|done].
    + apply lookup_insert_eq.
Qed.

(** *** The list that an update returns *)







End StatusList.

(** *** The status of a dependant job *)

Section JobStatus.

(** Constants of [benji.k8s_operator.constants]: three keys of the status
    of a job, the key under which the derived status is reported, and the
    four values it can have. *)
Variables JOB_STATUS_START_TIME JOB_STATUS_COMPLETION_TIME JOB_STATUS_FAILED : string.
Variable RESOURCE_STATUS_DEPENDANT_JOBS_STATUS : string.
Variables RESOURCE_JOB_STATUS_SUCCEEDED RESOURCE_JOB_STATUS_FAILED : val.
Variables RESOURCE_JOB_STATUS_RUNNING RESOURCE_JOB_STATUS_PENDING : val.

Record _DependantJobStatus : Type :=
  { start_time : val; completion_time : val; status : val }.

(** [v > 0]: only a number can be compared with [0]; the message of
    Python names the two types. *)
Definition gt_zero (v : val) : outcome bool :=
  match v with
  | VInt z => Returned (0 <? z)%Z
  | _ => Raised (TypeError "'>' not supported between instances")
  end.

(** The [if]/[elif]/[else] of [derive_job_status]; [and] looks at
    [job_status[JOB_STATUS_FAILED]] only when the key is there. *)
Definition derived_status (job_status : gmap string val) : outcome val :=
  if decide (is_Some (job_status !! JOB_STATUS_COMPLETION_TIME))
  then Returned RESOURCE_JOB_STATUS_SUCCEEDED
  else if decide (is_Some (job_status !! JOB_STATUS_START_TIME))
  then
    match job_status !! JOB_STATUS_FAILED with
    | Some failed =>
      match gt_zero failed with
      | Raised e => Raised e
      | Returned true => Returned RESOURCE_JOB_STATUS_FAILED
      | Returned false => Returned RESOURCE_JOB_STATUS_RUNNING
      end
    | None => Returned RESOURCE_JOB_STATUS_RUNNING
    end
  else Returned RESOURCE_JOB_STATUS_PENDING.

Definition derive_job_status (job_status : gmap string val) : outcome _DependantJobStatus :=
  match derived_status job_status with
  | Raised e => Raised e
  | Returned status =>
    Returned {| start_time := default VNone (job_status !! JOB_STATUS_START_TIME);
                completion_time := default VNone (job_status !! JOB_STATUS_COMPLETION_TIME);
                status := status |}
  end.

Definition is_not_None (v : val) : bool :=
  match v with VNone => false | _ => true end.

Definition build_dependant_job_status (job_status : gmap string val)
  : outcome (gmap string val) :=
  match derive_job_status job_status with
  | Raised e => Raised e
  | Returned derived_status =>
    let dependant_job_status : gmap string val := ∅ in
    let dependant_job_status :=
      if is_not_None (start_time derived_status)
      then <[JOB_STATUS_START_TIME := start_time derived_status]> dependant_job_status
      else dependant_job_status in
    let dependant_job_status :=
      if is_not_None (completion_time derived_status)
      then <[JOB_STATUS_COMPLETION_TIME := completion_time derived_status]> dependant_job_status
      else dependant_job_status in
    Returned (<[RESOURCE_STATUS_DEPENDANT_JOBS_STATUS := status derived_status]>
                dependant_job_status)
  end.

Lemma get_is_not_None (d : gmap string val) (k : string) :
  is_not_None (default VNone (d !! k)) = true ->
  d !! k = Some (default VNone (d !! k)) /\ default VNone (d !! k) <> VNone.
Proof. by destruct (d !! k) as [[]|]. Qed.

(** [build_dependant_job_status] fails in one case only: the job has
    started, has no completion time, and its failed count is there but
    is not a number.  The failure is a [TypeError]. *)
Theorem build_dependant_job_status_raises_iff (job_status : gmap string val) :
  (forall e, build_dependant_job_status job_status = Raised e -> exn_kind e = "TypeError") /\
  ((exists e, build_dependant_job_status job_status = Raised e) <->
   job_status !! JOB_STATUS_COMPLETION_TIME = None /\
   is_Some (job_status !! JOB_STATUS_START_TIME) /\
   exists failed, job_status !! JOB_STATUS_FAILED = Some failed /\
                  forall z, failed <> VInt z).
Proof.
  unfold build_dependant_job_status, derive_job_status, derived_status.
  destruct (decide (is_Some (job_status !! JOB_STATUS_COMPLETION_TIME))) as [Hc|Hc].
  { split; [done|]. split; [by intros [e ?]|].
    intros (Hnone & _). rewrite Hnone in Hc. by destruct Hc. }
  apply eq_None_not_Some in Hc.
  destruct (decide (is_Some (job_status !! JOB_STATUS_START_TIME))) as [Hs|Hs].
  2:{ split; [done|]. split; [by intros [e ?]|]. by intros (_ & ? & _). }
  destruct (job_status !! JOB_STATUS_FAILED) as [failed|] eqn:Hf.
  2:{ split; [done|]. split; [by intros [e ?]|]. by intros (_ & _ & ? & ? & _). }
  destruct failed as [|z|t|r]; cbn [gt_zero].
  - split; [by intros e [= <-]|]. split; [|eauto].
    intros _. split_and!; try done. by exists VNone.
  - destruct (0 <? z)%Z.
    + split; [done|]. split; [by intros [e ?]|].
      intros (_ & _ & failed & [= <-] & Hz). by destruct (Hz z).
    + split; [done|]. split; [by intros [e ?]|].
      intros (_ & _ & failed & [= <-] & Hz). by destruct (Hz z).
  - split; [by intros e [= <-]|]. split; [|eauto].
    intros _. split_and!; try done. by exists (VStr t).
  - split; [by intros e [= <-]|]. split; [|eauto].
    intros _. split_and!; try done. by exists (VRef r).
Qed.

(** What [build_dependant_job_status] returns always reports a status,
    one of the four; every other entry is a start or completion time
    taken over from the job, and none of them is [None]. *)
Theorem build_dependant_job_status_shape
    (job_status dependant_job_status : gmap string val) :
  build_dependant_job_status job_status = Returned dependant_job_status ->
  (exists status,
     dependant_job_status !! RESOURCE_STATUS_DEPENDANT_JOBS_STATUS = Some status /\
     status ∈ [RESOURCE_JOB_STATUS_SUCCEEDED; RESOURCE_JOB_STATUS_FAILED;
               RESOURCE_JOB_STATUS_RUNNING; RESOURCE_JOB_STATUS_PENDING]) /\
  (forall k v, dependant_job_status !! k = Some v ->
     k = RESOURCE_STATUS_DEPENDANT_JOBS_STATUS \/
     ((k = JOB_STATUS_START_TIME \/ k = JOB_STATUS_COMPLETION_TIME) /\
      job_status !! k = Some v /\ v <> VNone)).
Proof.
  unfold build_dependant_job_status, derive_job_status.
  destruct (derived_status job_status) as [reported|e] eqn:Hstatus; [|done].
  cbn [start_time completion_time status]. intros [= <-].
  split.
  - exists reported. split; [apply lookup_insert_eq|].
    unfold derived_status in Hstatus.
    repeat case_decide; simplify_eq; [set_solver| |set_solver].
    destruct (job_status !! JOB_STATUS_FAILED) as [failed|]; simplify_eq; [|set_solver].
    destruct (gt_zero failed) as [[|]|]; simplify_eq; set_solver.
  - intros k v [[<- <-]|[Hk Hv]]%lookup_insert_Some; [by left|]. right.
    pose proof (get_is_not_None job_status JOB_STATUS_START_TIME) as Hs.
    pose proof (get_is_not_None job_status JOB_STATUS_COMPLETION_TIME) as Hc.
    destruct (is_not_None (default VNone (job_status !! JOB_STATUS_COMPLETION_TIME)));
      destruct (is_not_None (default VNone (job_status !! JOB_STATUS_START_TIME)));
      repeat (apply lookup_insert_Some in Hv as [[<- <-]|[_ Hv]]);
      try done.
    + destruct (Hc eq_refl). split_and!; [by right|done..].
    + destruct (Hs eq_refl). split_and!; [by left|done..].
    + destruct (Hc eq_refl). split_and!; [by right|done..].
    + destruct (Hs eq_refl). split_and!; [by left|done..].
Qed.

(** A job with a completion time is reported as succeeded whatever else
    its status says: the failed count is not looked at, so it cannot make
    the call fail either. *)
Theorem completed_job_has_succeeded (job_status : gmap string val) (completed : val) :
  job_status !! JOB_STATUS_COMPLETION_TIME = Some completed ->
  exists dependant_job_status,
    build_dependant_job_status job_status = Returned dependant_job_status /\
    dependant_job_status !! RESOURCE_STATUS_DEPENDANT_JOBS_STATUS
    = Some RESOURCE_JOB_STATUS_SUCCEEDED.
Proof.
  intros Hc. unfold build_dependant_job_status, derive_job_status, derived_status.
  rewrite decide_True by (by rewrite Hc).
  eexists. split; [done|]. apply lookup_insert_eq.
Qed.

(** *** The patch for the parent *)

(** More constants, and the conversion of client objects as for the
    status lists. *)
Variable RESOURCE_STATUS_DEPENDANT_JOBS : string.
Variable RESOURCE_STATUS_LIST_OBJECT_REFERENCE : string.
Variable to_dict : val -> H val.
Hypothesis to_dict_allocates : forall v h o h', to_dict v h = (o, h') -> h ⊆ h'.

(** [status.get(RESOURCE_STATUS_DEPENDANT_JOBS, [])]: the empty list of
    the default is made before [get] looks for the key. *)
Definition status_get (status : val) : H val :=
  fun h =>
    match status with
    | VRef l =>
      match h !! l with
      | Some (ODict d) =>
        let empty := fresh (dom h) in
        (Returned (default (VRef empty) (d !! RESOURCE_STATUS_DEPENDANT_JOBS)),
         <[empty := OList []]> h)
      | _ => (Raised (AttributeError "object has no attribute 'get'"), h)
      end
    | _ => (Raised (AttributeError "object has no attribute 'get'"), h)
    end.

(** [job] as the dictionary that [in] and [get] work on in
    [derive_job_status].  The parameter is declared [Dict[str, Any]]; a
    list or a string is outside this embedding, everything else is not
    iterable. *)
Definition job_status_of (job : val) (h : heap) : outcome (gmap string val) :=
  match job with
  | VRef l =>
    match h !! l with
    | Some (ODict d) => Returned d
    | _ => Raised (TypeError "argument is not iterable")
    end
  | _ => Raised (TypeError "argument is not iterable")
  end.

(** The [if delete:] / [else:] that makes [dependant_jobs]. *)
Definition dependant_jobs_of (status job : val) (delete : bool) : H val :=
  if delete then
    let* lst := status_get status in
    delete_from_status_list RESOURCE_STATUS_LIST_OBJECT_REFERENCE to_dict lst job
  else
    let* lst := status_get status in
    let* job_status := reading (job_status_of job) in
    let* dependant_job_status := reading (fun _ => build_dependant_job_status job_status) in
    let* extra_data := alloc (ODict dependant_job_status) in
    update_status_list RESOURCE_STATUS_LIST_OBJECT_REFERENCE to_dict lst job extra_data.

Definition build_resource_status_dependant_jobs (status job : val) (delete : bool) : H val :=
  let* dependant_jobs := dependant_jobs_of status job delete in
  alloc (ODict {[ RESOURCE_STATUS_DEPENDANT_JOBS := dependant_jobs ]}).

Lemma status_get_new_or_old status h o h' :
  status_get status h = (o, h') ->
  h ⊆ h' /\
  forall lst, o = Returned lst ->
    exists s d, status = VRef s /\ h !! s = Some (ODict d) /\
      (d !! RESOURCE_STATUS_DEPENDANT_JOBS = Some lst \/
       exists empty, lst = VRef empty /\ h' !! empty = Some (OList [])).
Proof.
  unfold status_get. destruct status as [| | |s]; try by intros [= <- <-].
  destruct (h !! s) as [[|d|]|] eqn:Hs; try by intros [= <- <-].
  intros [= <- <-]. split; [apply insert_fresh_subseteq|].
  intros lst [= <-]. exists s, d. split; [done|]. split; [done|].
  destruct (d !! RESOURCE_STATUS_DEPENDANT_JOBS) as [v|]; [by left|]. right.
  eexists. split; [done|]. apply lookup_insert_eq.
Qed.

Lemma dependant_jobs_of_new_list s d job delete h o h' :
  h !! s = Some (ODict d) ->
  (forall l, d !! RESOURCE_STATUS_DEPENDANT_JOBS = Some (VRef l) -> is_Some (h !! l)) ->
  dependant_jobs_of (VRef s) job delete h = (o, h') ->
  h ⊆ h' /\
  forall new_lst, o = Returned new_lst ->
    exists nl items', new_lst = VRef nl /\ h !! nl = None /\ h' !! nl = Some (OList items').
Proof.
  intros Hs Hlst Hrun. unfold dependant_jobs_of in Hrun.
  destruct (status_get (VRef s) h) as [[lst|e] h0] eqn:Hget.
  2:{ pose proof (status_get_new_or_old _ _ _ _ Hget) as [Hsub _].
      destruct delete; unfold bind in Hrun; rewrite Hget in Hrun; by simplify_eq. }
  pose proof (status_get_new_or_old _ _ _ _ Hget) as [Hsub0 Hwhich].
  destruct (Hwhich lst eq_refl) as (s' & d' & [= <-] & Hs' & Hcase).
  rewrite Hs in Hs'. simplify_eq.
  assert (forall l, lst = VRef l -> is_Some (h0 !! l)) as Hin.
  { intros l ->. destruct Hcase as [Hold|(empty & [= <-] & Hempty)]; [|eauto].
    destruct (Hlst l Hold) as [o' Ho']. exists o'. by eapply lookup_weaken. }
  destruct delete; unfold bind at 1 in Hrun; rewrite Hget in Hrun.
  - apply delete_from_status_list_new_list in Hrun as [Hsub1 Hnew]; [|done].
    split; [by etrans|]. intros new_lst Ho.
    destruct (Hnew new_lst Ho) as (nl & items' & -> & Hnl & Hitems).
    exists nl, items'. split; [done|]. split; [|done].
    by eapply lookup_weaken_None.
  - unfold bind at 1 in Hrun. unfold reading at 1 in Hrun.
    destruct (job_status_of job h0) as [job_status|e]; [|by simplify_eq].
    unfold bind at 1 in Hrun. unfold reading at 1 in Hrun.
    destruct (build_dependant_job_status job_status) as [extra|e]; [|by simplify_eq].
    unfold bind at 1 in Hrun. unfold alloc at 1 in Hrun.
    pose proof (insert_fresh_subseteq h0 (ODict extra)) as Hsub1.
    apply update_status_list_new_list with (extra := extra) in Hrun
      as [Hsub2 Hnew]; [|done|apply lookup_insert_eq|].
    2:{ intros l Hl. destruct (Hin l Hl) as [o' Ho']. exists o'.
        by eapply lookup_weaken. }
    split; [by do 2 (etrans; [eassumption|])|]. intros new_lst Ho.
    destruct (Hnew new_lst Ho) as (nl & items' & -> & Hnl & Hitems).
    exists nl, items'. split; [done|]. split; [|done].
    eapply lookup_weaken_None; [|exact Hsub0].
    by eapply lookup_weaken_None.
Qed.

(** The patch that [build_resource_status_dependant_jobs] builds shares
    nothing with the status it was built from: no object that existed
    before the call is changed, also when the call fails, and the result
    is a new dictionary with the one key [RESOURCE_STATUS_DEPENDANT_JOBS]
    and a new list under it. *)
Theorem build_resource_status_dependant_jobs_is_new
    (s : loc) (d : gmap string val) (job : val) (delete : bool) (h : heap) :
  h !! s = Some (ODict d) ->
  (forall l, d !! RESOURCE_STATUS_DEPENDANT_JOBS = Some (VRef l) -> is_Some (h !! l)) ->
  let result := build_resource_status_dependant_jobs (VRef s) job delete h in
  h ⊆ result.2 /\
  forall patch, result.1 = Returned patch ->
    exists p jobs items,
      patch = VRef p /\ h !! p = None /\
      result.2 !! p = Some (ODict {[ RESOURCE_STATUS_DEPENDANT_JOBS := VRef jobs ]}) /\
      h !! jobs = None /\ jobs <> p /\
      result.2 !! jobs = Some (OList items).
Proof.
  intros Hs Hlst. cbv zeta. unfold build_resource_status_dependant_jobs, bind.
  destruct (dependant_jobs_of (VRef s) job delete h) as [o1 h1] eqn:Hjobs.
  destruct (dependant_jobs_of_new_list _ _ _ _ _ _ _ Hs Hlst Hjobs) as [Hsub Hnew].
  destruct o1 as [dependant_jobs|e]; [|done].
  destruct (Hnew dependant_jobs eq_refl) as (nl & items' & -> & Hnl & Hitems).
  unfold alloc. cbn [fst snd].
  split; [etrans; [exact Hsub|apply insert_fresh_subseteq]|].
  intros patch [= <-].
  assert (nl <> fresh (dom h1)) as Hne.
  { intros Heq. pose proof (fresh_lookup h1) as Hf. rewrite <- Heq in Hf. congruence. }
  exists (fresh (dom h1)), nl, items'. split_and!; try done.
  - eapply lookup_weaken_None; [apply fresh_lookup|done].
  - apply lookup_insert_eq.
  - by rewrite lookup_insert_ne.
Qed.

End JobStatus.

(** *** A status list with two jobs *)

Definition OBJECT_REFERENCE : string := "objectReference".

(** Resources are dictionaries here; the conversion of a client object
    is not needed. *)
Definition no_to_dict (v : val) : H val := ret v.

Lemma no_to_dict_allocates v (h : heap) o (h' : heap) :
  no_to_dict v h = (o, h') -> h ⊆ h'.
Proof. by intros [= <- <-]. Qed.

(** At 1 the list, at 2 and 4 its entries with their references at 3 and
    5, at 6 the resource with its metadata at 7, at 8 the extra data. *)
Definition two_jobs : heap :=
  {[ 1%positive := OList [VRef 2%positive; VRef 4%positive];
     2%positive := ODict {[ OBJECT_REFERENCE := VRef 3%positive; "status" := VStr "Running" ]};
     3%positive := ODict {[ "name" := VStr "job-a"; "namespace" := VStr "ns";
                            "uid" := VStr "u1" ]};
     4%positive := ODict {[ OBJECT_REFERENCE := VRef 5%positive; "status" := VStr "Running" ]};
     5%positive := ODict {[ "name" := VStr "job-b"; "namespace" := VStr "ns";
                            "uid" := VStr "u2" ]};
     6%positive := ODict {[ "metadata" := VRef 7%positive ]};
     7%positive := ODict {[ "name" := VStr "job-b"; "namespace" := VStr "ns";
                            "uid" := VStr "u2" ]};
     8%positive := ODict {[ "status" := VStr "Succeeded" ]} ]}.

Definition updated_jobs : outcome val * heap :=
  update_status_list OBJECT_REFERENCE no_to_dict (VRef 1%positive) (VRef 6%positive) (VRef 8%positive) two_jobs.

(** The second entry has the uid of the resource: the list returned is
    a new list at 9 with a new entry at 11 in its place, and the list at 1
    still has its two entries. *)
Example updated_jobs_result :
  updated_jobs.1 = Returned (VRef 9%positive) /\
  updated_jobs.2 !! 9%positive = Some (OList [VRef 2%positive; VRef 11%positive]) /\
  updated_jobs.2 !! 1%positive = Some (OList [VRef 2%positive; VRef 4%positive]) /\
  updated_jobs.2 !! 11%positive
    = Some (ODict {[ OBJECT_REFERENCE := VRef 10%positive; "status" := VStr "Succeeded" ]}) /\
  updated_jobs.2 !! 10%positive
    = Some (ODict {[ "name" := VStr "job-b"; "namespace" := VStr "ns"; "uid" := VStr "u2" ]}).
Proof. by vm_compute. Qed.



Lemma delete_undoes_update_witness :
  exists new_lst h1 dl,
    updated_jobs = (Returned new_lst, h1) /\
    h1 !! dl = None /\
    delete_from_status_list OBJECT_REFERENCE no_to_dict new_lst (VRef 6%positive) h1
    = (Returned (VRef dl),
       <[dl := OList (List.filter (of_another OBJECT_REFERENCE (VRef 6%positive) two_jobs)
                                  [VRef 2%positive; VRef 4%positive])]> h1).
Proof.
  apply (delete_undoes_update OBJECT_REFERENCE no_to_dict no_to_dict_allocates
           1%positive 8%positive [VRef 2%positive; VRef 4%positive]
           {[ "status" := VStr "Succeeded" ]} (VRef 6%positive) two_jobs
           ltac:(vm_compute; reflexivity) ltac:(vm_compute; reflexivity)
           ltac:(vm_compute; reflexivity)).
  - eexists 6%positive, _, 7%positive, _, _, _, _.
    split; [reflexivity|]. split; [vm_compute; reflexivity|].
    split; [vm_compute; reflexivity|]. split; [vm_compute; reflexivity|].
    split; [vm_compute; reflexivity|]. split; vm_compute; reflexivity.
  - constructor; [|constructor; [|constructor]].
    + eexists 2%positive, _, 3%positive, _, _.
      split; [reflexivity|]. split; [vm_compute; reflexivity|].
      split; [vm_compute; reflexivity|]. split; vm_compute; reflexivity.
    + eexists 4%positive, _, 5%positive, _, _.
      split; [reflexivity|]. split; [vm_compute; reflexivity|].
      split; [vm_compute; reflexivity|]. split; vm_compute; reflexivity.
Defined.

(** *** The status of a job, with sample constants *)

Definition sample_job_status : gmap string val -> outcome (gmap string val) :=
  build_dependant_job_status "startTime" "completionTime" "failed" "status"
    (VStr "Succeeded") (VStr "Failed") (VStr "Running") (VStr "Pending").

(** A job that failed twice and then completed. *)
Definition completed_job : gmap string val :=
  {[ "startTime" := VStr "2020-02-02T02:02:02Z";
     "completionTime" := VStr "2020-02-02T02:03:02Z";
     "failed" := VInt 2 ]}.

Lemma build_dependant_job_status_shape_witness :
  exists status,
    ({[ "startTime" := VStr "2020-02-02T02:02:02Z";
        "completionTime" := VStr "2020-02-02T02:03:02Z";
        "status" := VStr "Succeeded" ]} : gmap string val) !! "status" = Some status /\
    status ∈ [VStr "Succeeded"; VStr "Failed"; VStr "Running"; VStr "Pending"].
Proof.
  refine (proj1 (build_dependant_job_status_shape "startTime" "completionTime" "failed"
                   "status" (VStr "Succeeded") (VStr "Failed") (VStr "Running")
                   (VStr "Pending") completed_job _ _)).
  apply (f_equal Returned). apply map_eq. intros k.
  by vm_compute.
Defined.

Lemma completed_job_has_succeeded_witness :
  exists dependant_job_status,
    sample_job_status completed_job = Returned dependant_job_status /\
    dependant_job_status !! "status" = Some (VStr "Succeeded").
Proof.
  apply (completed_job_has_succeeded "startTime" "completionTime" "failed" "status"
           (VStr "Succeeded") (VStr "Failed") (VStr "Running") (VStr "Pending")
           completed_job (VStr "2020-02-02T02:03:02Z")).
  by vm_compute.
Defined.

(** The status of a parent at 9, with the list of [two_jobs] as its
    dependant jobs. *)
Definition parent_status : heap :=
  <[ 9%positive := ODict {[ "dependantJobs" := VRef 1%positive ]} ]> two_jobs.

Lemma build_resource_status_dependant_jobs_is_new_witness :
  parent_status
  ⊆ (build_resource_status_dependant_jobs "startTime" "completionTime" "failed" "status"
       (VStr "Succeeded") (VStr "Failed") (VStr "Running") (VStr "Pending")
       "dependantJobs" OBJECT_REFERENCE no_to_dict
       (VRef 9%positive) (VRef 6%positive) false parent_status).2.
Proof.
  refine (proj1 (build_resource_status_dependant_jobs_is_new "startTime" "completionTime"
                   "failed" "status" (VStr "Succeeded") (VStr "Failed") (VStr "Running")
                   (VStr "Pending") "dependantJobs" OBJECT_REFERENCE no_to_dict
                   no_to_dict_allocates 9%positive
                   ({[ "dependantJobs" := VRef 1%positive ]} : gmap string val)
                   (VRef 6%positive) false parent_status
                   (lookup_insert_eq two_jobs 9%positive _) _)).
  intros l Hl. rewrite lookup_singleton_eq in Hl. injection Hl as <-.
  eexists. vm_compute. reflexivity.
Defined.

End Resources.
